(** * FlareMail front end: account directory, mailbox session, notifications

    A shallow embedding of the logic of [src/components/EmailManagement.tsx]
    and [src/components/About.tsx].

    - JavaScript strings are sequences of UTF-16 code units ([list N]).
    - JavaScript numbers that the code only uses as integers (ids, page
      numbers, counts, milliseconds) are [Z].
    - React state is one record per component; a state setter updates the
      record at the point of the call.
    - An [async] handler is cut at each [await]: the part before it runs
      inside the event that starts the handler and leaves a pending task
      holding the continuation; the part after it runs when the environment
      settles that task. *)

From Stdlib Require Import List ZArith NArith Bool Lia String Ascii.
Import ListNotations.
Open Scope Z_scope.

(** ** JavaScript strings *)

Definition jsstring := list N.

(** A literal whose characters are all ASCII. *)
Definition jsstr (s : string) : jsstring :=
  map N_of_ascii (list_ascii_of_string s).

(** ECMAScript [WhiteSpace] and [LineTerminator] code points, the ones
    [String.prototype.trim] strips. *)
Definition isWhiteSpace (c : N) : bool :=
  ((9 <=? c) && (c <=? 13) || (c =? 32) || (c =? 160) || (c =? 5760)
   || (8192 <=? c) && (c <=? 8202) || (c =? 8232) || (c =? 8233)
   || (c =? 8239) || (c =? 8287) || (c =? 12288) || (c =? 65279))%N.

Fixpoint trimStart (s : jsstring) : jsstring :=
  match s with
  | [] => []
  | c :: s' => if isWhiteSpace c then trimStart s' else s
  end.

Definition trimEnd (s : jsstring) : jsstring := rev (trimStart (rev s)).

Definition trim (s : jsstring) : jsstring := trimEnd (trimStart s).

Fixpoint startsWith (s pat : jsstring) {struct pat} : bool :=
  match pat, s with
  | [], _ => true
  | _ :: _, [] => false
  | p :: pat', c :: s' => (p =? c)%N && startsWith s' pat'
  end.

(** [String.prototype.includes]: [pat] occurs at some position of [s]. *)
Fixpoint includes (s pat : jsstring) : bool :=
  startsWith s pat ||
  match s with
  | [] => false
  | _ :: s' => includes s' pat
  end.

Fixpoint jsstring_eqb (s t : jsstring) : bool :=
  match s, t with
  | [], [] => true
  | c :: s', d :: t' => (c =? d)%N && jsstring_eqb s' t'
  | _, _ => false
  end.

(** [toLowerCase] on strings all of whose code units are below 128, where
    the Unicode lower-casing that JavaScript applies only maps A-Z to a-z.
    Used to instantiate the theorems at concrete ASCII inputs. *)
Definition toLowerCaseAscii (s : jsstring) : jsstring :=
  map (fun c => if (65 <=? c) && (c <=? 90) then c + 32 else c)%N s.

(** ** Data model ([src/types]) *)

Inductive MailFolder := INBOX | JUNK.

Definition MailFolder_eqb (a b : MailFolder) : bool :=
  match a, b with
  | INBOX, INBOX | JUNK, JUNK => true
  | _, _ => false
  end.

Record EmailAccount := {
  account_id : Z;                       (* id *)
  email : jsstring;
  password : jsstring;
  mail_type : jsstring;
  client_id : jsstring;
  refresh_token : jsstring;
  last_check_time : option jsstring
}.

Record MailRecord := {
  mail_id : Z;                          (* id *)
  email_id : Z;
  subject : option jsstring;
  sender : option jsstring;
  received_time : option jsstring;
  content : option jsstring;
  folder : option jsstring;
  has_attachments : Z
}.

Record ImportResult := {
  success_count : Z;
  failed_count : Z;
  failed_lines : list jsstring
}.

(** ** Pagination strip *)

Inductive PageItem := Page (n : Z) | Ellipsis.

(** [Array.from({ length: total }, (_, index) => index + 1)] *)
Definition pagesUpTo (total : Z) : list PageItem :=
  map (fun index => Page (Z.of_nat index + 1)) (seq 0 (Z.to_nat total)).

Definition buildPageItems (total current : Z) : list PageItem :=
  if total <=? 7 then pagesUpTo total
  else if current <=? 3 then
    [Page 1; Page 2; Page 3; Page 4; Ellipsis; Page total]
  else if current >=? total - 2 then
    [Page 1; Ellipsis; Page (total - 3); Page (total - 2); Page (total - 1);
     Page total]
  else
    [Page 1; Ellipsis; Page (current - 1); Page current; Page (current + 1);
     Ellipsis; Page total].

(** The window as the specification words it: the pages [1..totalPages] are
    listed by counting up from 1, and the three abbreviated shapes are given
    by explicit case conditions. *)
Fixpoint countUp (from : Z) (n : nat) : list PageItem :=
  match n with
  | O => []
  | S n' => Page from :: countUp (from + 1) n'
  end.

Inductive pageWindow (totalPages currentPage : Z) : list PageItem -> Prop :=
| window_all :
    totalPages <= 7 ->
    pageWindow totalPages currentPage (countUp 1 (Z.to_nat totalPages))
| window_head :
    7 < totalPages -> currentPage <= 3 ->
    pageWindow totalPages currentPage
      [Page 1; Page 2; Page 3; Page 4; Ellipsis; Page totalPages]
| window_tail :
    7 < totalPages -> 3 < currentPage -> totalPages - 2 <= currentPage ->
    pageWindow totalPages currentPage
      [Page 1; Ellipsis; Page (totalPages - 3); Page (totalPages - 2);
       Page (totalPages - 1); Page totalPages]
| window_middle :
    7 < totalPages -> 3 < currentPage -> currentPage < totalPages - 2 ->
    pageWindow totalPages currentPage
      [Page 1; Ellipsis; Page (currentPage - 1); Page currentPage;
       Page (currentPage + 1); Ellipsis; Page totalPages].

(** ** Selection of account ids ([selectedIds : number[]]) *)

(** [ids.includes(id)] on an array of numbers. *)
Definition includesId (ids : list Z) (id : Z) : bool :=
  existsb (Z.eqb id) ids.

(** [Array.from(new Set(xs))]: a [Set] keeps insertion order and ignores a
    value that it already holds. *)
Definition arrayFromSet (xs : list Z) : list Z :=
  fold_left (fun acc x => if includesId acc x then acc else acc ++ [x]) xs [].

(** The new value that [handleSelectAll(checked, ids)] gives [selectedIds],
    as a function of the previous value. *)
Definition handleSelectAll_update (checked : bool) (ids prev : list Z) : list Z :=
  match ids with
  | [] => prev
  | _ :: _ =>
      if checked then arrayFromSet (prev ++ ids)
      else filter (fun id => negb (includesId ids id)) prev
  end.

(** The new value that [toggleSelect(id)] gives [selectedIds]. *)
Definition toggleSelect_update (id : Z) (selectedIds : list Z) : list Z :=
  if includesId selectedIds id
  then filter (fun i => negb (i =? id)) selectedIds
  else selectedIds ++ [id].

(** ** Component state of [EmailManagement] *)

(** The text shown in the import result box.  The source builds it from
    templates; the embedding keeps the data that goes into the template. *)
Inductive ImportMessage :=
| ImportedAll (count : Z)
| ImportedSome (succeeded failed : Z) (details : list jsstring)
| ImportError (error : jsstring).

Record State := {
  emails : list EmailAccount;
  loading : bool;
  selectedIds : list Z;
  currentPage : Z;
  pageSize : Z;
  separator : jsstring;
  searchQuery : jsstring;
  importResult : option ImportMessage;
  mailViewerOpen : bool;
  mailViewerEmail : option EmailAccount;
  mailViewerFolder : MailFolder;
  mailViewerRecords : list MailRecord;
  mailViewerLoading : bool;
  selectedMail : option MailRecord;
  isDetailOpen : bool
}.

(** The [useState] initial values. *)
Definition initialState : State := {|
  emails := [];
  loading := false;
  selectedIds := [];
  currentPage := 1;
  pageSize := 10;
  separator := jsstr "----";
  searchQuery := [];
  importResult := None;
  mailViewerOpen := false;
  mailViewerEmail := None;
  mailViewerFolder := INBOX;
  mailViewerRecords := [];
  mailViewerLoading := false;
  selectedMail := None;
  isDetailOpen := false
|}.

(** One constructor per state setter. *)
Inductive Update :=
| setEmails (v : list EmailAccount)
| setLoading (v : bool)
| setSelectedIds (v : list Z)
| setCurrentPage (v : Z)
| setPageSize (v : Z)
| setSeparator (v : jsstring)
| setSearchQuery (v : jsstring)
| setImportResult (v : option ImportMessage)
| setMailViewerOpen (v : bool)
| setMailViewerEmail (v : option EmailAccount)
| setMailViewerFolder (v : MailFolder)
| setMailViewerRecords (v : list MailRecord)
| setMailViewerLoading (v : bool)
| setSelectedMail (v : option MailRecord)
| setIsDetailOpen (v : bool).

Definition applyUpdate (u : Update) (s : State) : State :=
  let '(Build_State em ld sel cp ps sep sq ir vo ve vf vr vl sm dt) := s in
  match u with
  | setEmails v => Build_State v ld sel cp ps sep sq ir vo ve vf vr vl sm dt
  | setLoading v => Build_State em v sel cp ps sep sq ir vo ve vf vr vl sm dt
  | setSelectedIds v => Build_State em ld v cp ps sep sq ir vo ve vf vr vl sm dt
  | setCurrentPage v => Build_State em ld sel v ps sep sq ir vo ve vf vr vl sm dt
  | setPageSize v => Build_State em ld sel cp v sep sq ir vo ve vf vr vl sm dt
  | setSeparator v => Build_State em ld sel cp ps v sq ir vo ve vf vr vl sm dt
  | setSearchQuery v => Build_State em ld sel cp ps sep v ir vo ve vf vr vl sm dt
  | setImportResult v => Build_State em ld sel cp ps sep sq v vo ve vf vr vl sm dt
  | setMailViewerOpen v => Build_State em ld sel cp ps sep sq ir v ve vf vr vl sm dt
  | setMailViewerEmail v => Build_State em ld sel cp ps sep sq ir vo v vf vr vl sm dt
  | setMailViewerFolder v => Build_State em ld sel cp ps sep sq ir vo ve v vr vl sm dt
  | setMailViewerRecords v => Build_State em ld sel cp ps sep sq ir vo ve vf v vl sm dt
  | setMailViewerLoading v => Build_State em ld sel cp ps sep sq ir vo ve vf vr v sm dt
  | setSelectedMail v => Build_State em ld sel cp ps sep sq ir vo ve vf vr vl v dt
  | setIsDetailOpen v => Build_State em ld sel cp ps sep sq ir vo ve vf vr vl sm v
  end.

(** ** Calls to the backend and their continuations *)

Inductive Command :=
| get_emails
| import_emails (input : jsstring)
| get_mail_records (emailId : Z)
| check_outlook_email (emailId : Z) (folder : MailFolder)
| delete_email (emailId : Z).

Definition JsError := jsstring.

Inductive Response :=
| RNone
| REmails (list : list EmailAccount)
| RMailRecords (records : list MailRecord)
| RImport (response : ImportResult).

(** How the promise returned by [invoke] settles. *)
Inductive Settled :=
| Resolved (v : Response)
| Rejected (error : JsError).

(** The rest of an [async] function after the [await] it is suspended at. *)
Inductive Cont :=
| K_loadEmails
| K_handleBatchImport
| K_loadMailViewerRecords (emailId : Z) (folder : MailFolder)
| K_handleOpenMailbox (account : EmailAccount) (folder : MailFolder)
| K_handleDelete (id : Z)
| K_handleBatchDelete (rest : list Z).

Record Task := { command : Command; cont : Cont }.

(** What a handler does that is visible outside its own variables, in
    program order. *)
Inductive Effect :=
| ESet (u : Update)
| EInvoke (c : Command)
| EConfirm (answer : bool)
| EAlert
| EConsoleError (error : JsError)
| EUnhandledRejection (error : JsError).

Record World := {
  state : State;
  pending : list Task;
  trace : list Effect
}.

(** ** The handler monad: state, effect trace and JavaScript exceptions *)

Inductive Outcome (A : Type) :=
| Normal (a : A)
| Throw (error : JsError).
Arguments Normal {A} a.
Arguments Throw {A} error.

Definition M (A : Type) := World -> Outcome A * World.

Definition ret {A} (a : A) : M A := fun w => (Normal a, w).

Definition bind {A B} (m : M A) (k : A -> M B) : M B :=
  fun w =>
    match m w with
    | (Normal a, w') => k a w'
    | (Throw e, w') => (Throw e, w')
    end.

Notation "x <- m ;; k" := (bind m (fun x => k))
  (at level 61, m at next level, right associativity).
Notation "m ;; k" := (bind m (fun _ => k))
  (at level 61, right associativity).

Definition throw {A} (e : JsError) : M A := fun w => (Throw e, w).

Definition emit (e : Effect) : M unit :=
  fun w => (Normal tt,
            {| state := state w; pending := pending w; trace := trace w ++ [e] |}).

Definition set (u : Update) : M unit :=
  fun w => (Normal tt,
            {| state := applyUpdate u (state w);
               pending := pending w;
               trace := trace w ++ [ESet u] |}).

Definition get : M State := fun w => (Normal (state w), w).

(** [await invoke(c, ...)]: the call is issued and the handler is suspended
    with continuation [k]. *)
Definition await (c : Command) (k : Cont) : M unit :=
  fun w => (Normal tt,
            {| state := state w;
               pending := pending w ++ [{| command := c; cont := k |}];
               trace := trace w ++ [EInvoke c] |}).

(** [try { body } catch (error) { handler error }] *)
Definition try_catch {A} (body : M A) (handler : JsError -> M A) : M A :=
  fun w =>
    match body w with
    | (Normal a, w') => (Normal a, w')
    | (Throw e, w') => handler e w'
    end.

(** [try { body } finally { final }] *)
Definition try_finally {A} (body : M A) (final : M unit) : M A :=
  fun w =>
    match body w with
    | (r, w') =>
        match final w' with
        | (Normal _, w'') => (r, w'')
        | (Throw e, w'') => (Throw e, w'')
        end
    end.

(** The value of [await p] once [p] has settled. *)
Definition awaited (r : Settled) : M Response :=
  match r with
  | Resolved v => ret v
  | Rejected e => throw e
  end.

(** Whether a settlement has the shape that the [invoke<T>] call site
    declares for the command.  The handlers discard what
    [check_outlook_email] and [delete_email] resolve with. *)
Definition wellTyped (c : Command) (r : Settled) : bool :=
  match r with
  | Rejected _ => true
  | Resolved v =>
      match c, v with
      | get_emails, REmails _ => true
      | import_emails _, RImport _ => true
      | get_mail_records _, RMailRecords _ => true
      | check_outlook_email _ _, _ => true
      | delete_email _, _ => true
      | _, _ => false
      end
  end.

Definition asEmails (v : Response) : list EmailAccount :=
  match v with REmails l => l | _ => [] end.

Definition asMailRecords (v : Response) : list MailRecord :=
  match v with RMailRecords l => l | _ => [] end.

Definition asImport (v : Response) : ImportResult :=
  match v with
  | RImport r => r
  | _ => {| success_count := 0; failed_count := 0; failed_lines := [] |}
  end.

(** ** The handlers of [EmailManagement] *)

Section EmailManagement.

(** [String.prototype.toLowerCase], the Unicode lower-casing of the
    JavaScript engine.  The component only calls it; the handlers are
    written over any such function. *)
Variable toLowerCase : jsstring -> jsstring.

Definition junkTerm : jsstring := [22403; 22334]%N.     (* U+5783 U+573E *)

Definition normalizeFolder (raw : option jsstring) : MailFolder :=
  match raw with
  | None => INBOX
  | Some [] => INBOX
  | Some s =>
      let normalized := toLowerCase (trim s) in
      if includes normalized (jsstr "junk")
         || includes normalized (jsstr "spam")
         || includes normalized junkTerm
      then JUNK
      else INBOX
  end.

Definition filterMailRecordsByFolder (records : list MailRecord)
    (wanted : MailFolder) : list MailRecord :=
  filter (fun record => MailFolder_eqb (normalizeFolder (folder record)) wanted)
         records.

(** *** Values derived at render time *)

Definition filteredEmails (s : State) : list EmailAccount :=
  filter (fun e => includes (toLowerCase (email e)) (toLowerCase (searchQuery s)))
         (emails s).

(** [Math.max(1, Math.ceil(length / pageSize))]; [pageSize] only takes the
    values of the size selector, which are positive. *)
Definition totalPages (s : State) : Z :=
  Z.max 1 ((Z.of_nat (List.length (filteredEmails s)) + pageSize s - 1) / pageSize s).

Definition pageStart (s : State) : Z := (currentPage s - 1) * pageSize s.

Definition paginatedEmails (s : State) : list EmailAccount :=
  firstn (Z.to_nat (pageSize s)) (skipn (Z.to_nat (pageStart s)) (filteredEmails s)).

Definition pageEmailIds (s : State) : list Z := map account_id (paginatedEmails s).

Definition pageItems (s : State) : list PageItem :=
  buildPageItems (totalPages s) (currentPage s).

(** *** Account list *)

Definition loadEmails : M unit :=
  set (setLoading true) ;;
  await get_emails K_loadEmails.

Definition loadEmails_resumed (r : Settled) : M unit :=
  try_finally
    (try_catch
       (v <- awaited r ;;
        set (setEmails (asEmails v)))
       (fun error => emit (EConsoleError error)))
    (set (setLoading false)).

(** *** Import *)

Definition handleBatchImport (content : jsstring) : M unit :=
  set (setLoading true) ;;
  set (setImportResult None) ;;
  await (import_emails content) K_handleBatchImport.

Definition handleBatchImport_resumed (r : Settled) : M unit :=
  try_finally
    (try_catch
       (v <- awaited r ;;
        let response := asImport v in
        (if failed_count response =? 0
         then set (setImportResult (Some (ImportedAll (success_count response))))
         else set (setImportResult
                     (Some (ImportedSome (success_count response)
                                         (failed_count response)
                                         (failed_lines response))))) ;;
        loadEmails)
       (fun error => set (setImportResult (Some (ImportError error)))))
    (set (setLoading false)).

(** *** Mailbox viewer *)

Definition loadMailViewerRecords (emailId : Z) (wanted : MailFolder) : M unit :=
  set (setMailViewerLoading true) ;;
  await (get_mail_records emailId) (K_loadMailViewerRecords emailId wanted).

Definition loadMailViewerRecords_resumed (emailId : Z) (wanted : MailFolder)
    (r : Settled) : M unit :=
  try_finally
    (try_catch
       (v <- awaited r ;;
        set (setMailViewerRecords
               (filterMailRecordsByFolder (asMailRecords v) wanted)))
       (fun error =>
          emit (EConsoleError error) ;;
          set (setMailViewerRecords [])))
    (set (setMailViewerLoading false)).

Definition handleOpenMailbox (account : EmailAccount) (wanted : MailFolder)
    : M unit :=
  set (setMailViewerEmail (Some account)) ;;
  set (setMailViewerFolder wanted) ;;
  set (setMailViewerRecords []) ;;
  set (setMailViewerOpen true) ;;
  set (setMailViewerLoading true) ;;
  await (check_outlook_email (account_id account) wanted)
        (K_handleOpenMailbox account wanted).

Definition handleOpenMailbox_resumed (account : EmailAccount)
    (wanted : MailFolder) (r : Settled) : M unit :=
  try_catch
    (_ <- awaited r ;; ret tt)
    (fun error => emit (EConsoleError error)) ;;
  loadMailViewerRecords (account_id account) wanted.

Definition handleCloseMailbox : M unit :=
  set (setMailViewerOpen false) ;;
  set (setMailViewerEmail None) ;;
  set (setMailViewerRecords []) ;;
  set (setSelectedMail None) ;;
  set (setIsDetailOpen false).

Definition handleViewMailDetail (mail : MailRecord) : M unit :=
  set (setSelectedMail (Some mail)) ;;
  set (setIsDetailOpen true).

(** *** Deleting accounts *)

(** [answer] is what the user replies to [confirm]. *)
Definition handleDelete (id : Z) (answer : bool) : M unit :=
  emit (EConfirm answer) ;;
  if negb answer then ret tt
  else await (delete_email id) (K_handleDelete id).

Definition handleDelete_resumed (id : Z) (r : Settled) : M unit :=
  try_catch
    (_ <- awaited r ;;
     loadEmails)
    (fun error => emit EAlert).

(** The loop [for (const id of selectedIds) await invoke(...).catch(...)]
    runs over the array that the handler read when it started; the
    continuation carries the ids still to delete. *)
Definition handleBatchDelete_next (rest : list Z) : M unit :=
  match rest with
  | id :: rest' => await (delete_email id) (K_handleBatchDelete rest')
  | [] =>
      set (setSelectedIds []) ;;
      loadEmails
  end.

Definition handleBatchDelete (answer : bool) : M unit :=
  s <- get ;;
  match selectedIds s with
  | [] => ret tt
  | _ :: _ =>
      emit (EConfirm answer) ;;
      if negb answer then ret tt
      else handleBatchDelete_next (selectedIds s)
  end.

Definition handleBatchDelete_resumed (rest : list Z) (r : Settled) : M unit :=
  match r with
  | Rejected error => emit (EConsoleError error)
  | Resolved _ => ret tt
  end ;;
  handleBatchDelete_next rest.

(** *** Selection *)

Definition handleSelectAll (checked : bool) (ids : list Z) : M unit :=
  match ids with
  | [] => ret tt
  | _ :: _ =>
      s <- get ;;
      set (setSelectedIds (handleSelectAll_update checked ids (selectedIds s)))
  end.

Definition toggleSelect (id : Z) : M unit :=
  s <- get ;;
  set (setSelectedIds (toggleSelect_update id (selectedIds s))).

(** *** Effects that run after a render *)

(** [useEffect(() => setCurrentPage(1), [searchQuery, pageSize])] and
    [useEffect(() => { if (currentPage > totalPages) setCurrentPage(totalPages) },
    [currentPage, totalPages])].  Both run in the same commit and read the
    values of the render they belong to; [before] is the state of the
    previous render. *)
Definition renderEffects (before : State) : M unit :=
  cur <- get ;;
  (if jsstring_eqb (searchQuery before) (searchQuery cur)
      && (pageSize before =? pageSize cur)
   then ret tt
   else set (setCurrentPage 1)) ;;
  (if totalPages cur <? currentPage cur
   then set (setCurrentPage (totalPages cur))
   else ret tt).

(** *** Events *)

Inductive Event :=
| Click_openMailbox (account : EmailAccount) (wanted : MailFolder)
| Click_closeMailbox
| Click_viewMailDetail (mail : MailRecord)
| Click_delete (id : Z) (answer : bool)
| Click_batchDelete (answer : bool)
| Change_selectAll (checked : bool)
| Change_toggleSelect (id : Z)
| Click_page (item : Z)
| Click_prevPage
| Click_nextPage
| Change_pageSize (size : Z)
| Change_searchQuery (query : jsstring)
| Change_separator (value : jsstring)
| Import (content : jsstring)
| Settle (i : nat) (r : Settled).

Definition resume (k : Cont) (r : Settled) : M unit :=
  match k with
  | K_loadEmails => loadEmails_resumed r
  | K_handleBatchImport => handleBatchImport_resumed r
  | K_loadMailViewerRecords emailId wanted =>
      loadMailViewerRecords_resumed emailId wanted r
  | K_handleOpenMailbox account wanted =>
      handleOpenMailbox_resumed account wanted r
  | K_handleDelete id => handleDelete_resumed id r
  | K_handleBatchDelete rest => handleBatchDelete_resumed rest r
  end.

Definition isPage (item : Z) (p : PageItem) : bool :=
  match p with
  | Page n => n =? item
  | Ellipsis => false
  end.

(** Removes the [i]-th pending task. *)
Definition takeTask (i : nat) (w : World) : option (Task * World) :=
  match nth_error (pending w) i with
  | None => None
  | Some t =>
      Some (t, {| state := state w;
                  pending := firstn i (pending w) ++ skipn (S i) (pending w);
                  trace := trace w |})
  end.

(** The handler that an event runs, and the world it runs in; [None] when
    the event cannot happen in [w]. *)
Definition dispatch (e : Event) (w : World) : option (M unit * World) :=
  let s := state w in
  match e with
  | Click_openMailbox account wanted => Some (handleOpenMailbox account wanted, w)
  | Click_closeMailbox => Some (handleCloseMailbox, w)
  | Click_viewMailDetail mail => Some (handleViewMailDetail mail, w)
  | Click_delete id answer => Some (handleDelete id answer, w)
  | Click_batchDelete answer => Some (handleBatchDelete answer, w)
  | Change_selectAll checked => Some (handleSelectAll checked (pageEmailIds s), w)
  | Change_toggleSelect id => Some (toggleSelect id, w)
  | Click_page item =>
      if existsb (isPage item) (pageItems s)
      then Some (set (setCurrentPage item), w)
      else None
  | Click_prevPage => Some (set (setCurrentPage (Z.max 1 (currentPage s - 1))), w)
  | Click_nextPage =>
      Some (set (setCurrentPage (Z.min (totalPages s) (currentPage s + 1))), w)
  | Change_pageSize size =>
      if existsb (Z.eqb size) [10; 20; 50]
      then Some (set (setPageSize size), w)
      else None
  | Change_searchQuery query => Some (set (setSearchQuery query), w)
  | Change_separator value => Some (set (setSeparator value), w)
  | Import content => Some (handleBatchImport content, w)
  | Settle i r =>
      match takeTask i w with
      | Some (t, w') =>
          if wellTyped (command t) r then Some (resume (cont t) r, w') else None
      | None => None
      end
  end.

(** An exception that leaves a handler rejects a promise that nobody
    awaits. *)
Definition runHandler (m : M unit) : M unit :=
  try_catch m (fun error => emit (EUnhandledRejection error)).

Definition step (e : Event) (w : World) : option World :=
  match dispatch e w with
  | None => None
  | Some (m, w0) => Some (snd ((runHandler m ;; renderEffects (state w)) w0))
  end.

Fixpoint run (es : list Event) (w : World) : option World :=
  match es with
  | [] => Some w
  | e :: es' =>
      match step e w with
      | None => None
      | Some w' => run es' w'
      end
  end.

(** The world after the first render: the mount effect has called
    [loadEmails()], and the page effect has run once. *)
Definition mount : World :=
  snd ((loadEmails ;; set (setCurrentPage 1))
         {| state := initialState; pending := []; trace := [] |}).

End EmailManagement.

(** ** The toast of [About] *)

Module About.

Record UpdateInfo := { version : jsstring; downloadUrl : jsstring }.

(** A timeout registered with [window.setTimeout].  Every timeout of this
    component has the same callback, [autoDismiss] below. *)
Record Timer := { handle : Z; delay : Z }.

Record ToastState := {
  toastMessage : option jsstring;
  toastId : Z;
  toastTimerRef : option Z;              (* toastTimerRef.current *)
  updateInfo : option UpdateInfo;
  timers : list Timer;                   (* the timeouts the window holds *)
  nextHandle : Z                         (* the handle [setTimeout] returns next *)
}.

(** Timeout handles are positive integers, handed out in increasing order. *)
Definition initial : ToastState := {|
  toastMessage := None;
  toastId := 0;
  toastTimerRef := None;
  updateInfo := None;
  timers := [];
  nextHandle := 1
|}.

(** [if (toastTimerRef.current)]: [null] and [0] are falsy. *)
Definition truthy (ref : option Z) : bool :=
  match ref with
  | Some h => negb (h =? 0)
  | None => false
  end.

Definition clearTimeout (ref : option Z) (ts : list Timer) : list Timer :=
  match ref with
  | Some h => filter (fun t => negb (handle t =? h)) ts
  | None => ts
  end.

Definition showToast (message : jsstring) (duration : Z) (s : ToastState)
    : ToastState :=
  (* setToastMessage(message); setToastId((prev) => prev + 1); *)
  let message1 := Some message in
  let id1 := toastId s + 1 in
  (* if (toastTimerRef.current) { clearTimeout(...); ...current = null; } *)
  let '(ref1, timers1) :=
    if truthy (toastTimerRef s)
    then (None, clearTimeout (toastTimerRef s) (timers s))
    else (toastTimerRef s, timers s) in
  (* if (duration > 0) { ...current = window.setTimeout(..., duration); } *)
  if 0 <? duration
  then {| toastMessage := message1; toastId := id1;
          toastTimerRef := Some (nextHandle s);
          updateInfo := updateInfo s;
          timers := timers1 ++ [{| handle := nextHandle s; delay := duration |}];
          nextHandle := nextHandle s + 1 |}
  else {| toastMessage := message1; toastId := id1;
          toastTimerRef := ref1;
          updateInfo := updateInfo s;
          timers := timers1;
          nextHandle := nextHandle s |}.

Definition dismissToast (s : ToastState) : ToastState :=
  let '(ref1, timers1) :=
    if truthy (toastTimerRef s)
    then (None, clearTimeout (toastTimerRef s) (timers s))
    else (toastTimerRef s, timers s) in
  {| toastMessage := None; toastId := toastId s; toastTimerRef := ref1;
     updateInfo := None; timers := timers1; nextHandle := nextHandle s |}.

(** The callback given to [setTimeout]. *)
Definition autoDismiss (s : ToastState) : ToastState :=
  {| toastMessage := None; toastId := toastId s; toastTimerRef := None;
     updateInfo := None; timers := timers s; nextHandle := nextHandle s |}.

(** The window runs the timeout with handle [h], if it still holds it. *)
Definition timerFires (h : Z) (s : ToastState) : option ToastState :=
  if existsb (fun t => handle t =? h) (timers s)
  then Some (autoDismiss
               {| toastMessage := toastMessage s; toastId := toastId s;
                  toastTimerRef := toastTimerRef s; updateInfo := updateInfo s;
                  timers := filter (fun t => negb (handle t =? h)) (timers s);
                  nextHandle := nextHandle s |})
  else None.

Definition setUpdateInfo (v : option UpdateInfo) (s : ToastState) : ToastState :=
  {| toastMessage := toastMessage s; toastId := toastId s;
     toastTimerRef := toastTimerRef s; updateInfo := v;
     timers := timers s; nextHandle := nextHandle s |}.

(** [{toastMessage && createPortal(...)}]: the toast is rendered when the
    message is neither [null] nor the empty string. *)
Definition visibleToast (s : ToastState) : option jsstring :=
  match toastMessage s with
  | Some (c :: m) => Some (c :: m)
  | _ => None
  end.

(** The states the component can be in. *)
Inductive reachable : ToastState -> Prop :=
| reach_initial : reachable initial
| reach_show message duration s :
    reachable s -> reachable (showToast message duration s)
| reach_dismiss s :
    reachable s -> reachable (dismissToast s)
| reach_update v s :
    reachable s -> reachable (setUpdateInfo v s)
| reach_fire h s s' :
    reachable s -> timerFires h s = Some s' -> reachable s'.

(** The window holds no timeout but the one the ref points to. *)
Definition tracked (s : ToastState) : Prop :=
  0 < nextHandle s /\
  match toastTimerRef s with
  | Some h => 0 < h < nextHandle s /\ exists d, timers s = [{| handle := h; delay := d |}]
  | None => timers s = []
  end.

End About.

(** * Predicates used in the statements *)

(** [pat] occurs in [s]. *)
Definition occurs (pat s : jsstring) : Prop :=
  exists pre post, s = pre ++ pat ++ post.

(** A normalized label that names the junk-mail folder. *)
Definition junkLabel (normalized : jsstring) : Prop :=
  occurs (jsstr "junk") normalized
  \/ occurs (jsstr "spam") normalized
  \/ occurs junkTerm normalized.

(** A handler keeps a property of the component state. *)
Definition keeps {A} (P : State -> Prop) (m : M A) : Prop :=
  forall w, P (state w) -> P (state (snd (m w))).

(** A world with the given state, nothing pending and an empty trace; and a
    world extended by what a handler did when started from such a world. *)
Definition fresh (s : State) : World :=
  {| state := s; pending := []; trace := [] |}.

Definition extend (w d : World) : World :=
  {| state := state d;
     pending := pending w ++ pending d;
     trace := trace w ++ trace d |}.

(** A handler is local: it reads the component state only, and only adds
    to the pending tasks and to the trace. *)
Definition local {A} (m : M A) : Prop :=
  forall w, m w = (fst (m (fresh (state w))),
                   extend w (snd (m (fresh (state w))))).

(** Two worlds that differ in their traces only. *)
Definition sameButTrace (w1 w2 : World) : Prop :=
  state w1 = state w2 /\ pending w1 = pending w2.

Definition isSettle (e : Event) : Prop :=
  match e with
  | Settle _ _ => True
  | _ => False
  end.

Definition isInvoke (e : Effect) : Prop :=
  match e with
  | EInvoke _ => True
  | _ => False
  end.

Definition isUnhandledRejection (e : Effect) : Prop :=
  match e with
  | EUnhandledRejection _ => True
  | _ => False
  end.

(** The page effects only write the current page. *)
Definition isPageSet (e : Effect) : Prop :=
  exists v, e = ESet (setCurrentPage v).

(** Events that are not a selection change and do not resume the batch
    delete loop. *)
Definition leavesSelection (e : Event) (w : World) : Prop :=
  match e with
  | Change_selectAll _ | Change_toggleSelect _ => False
  | Settle i _ =>
      match nth_error (pending w) i with
      | Some t =>
          match cont t with
          | K_handleBatchDelete _ => False
          | _ => True
          end
      | None => True
      end
  | _ => True
  end.

(** The task that [handleOpenMailbox] leaves pending, and the one that
    [loadMailViewerRecords] leaves pending. *)
Definition syncTask (account : EmailAccount) (wanted : MailFolder) : Task :=
  {| command := check_outlook_email (account_id account) wanted;
     cont := K_handleOpenMailbox account wanted |}.

Definition loadTask (emailId : Z) (wanted : MailFolder) : Task :=
  {| command := get_mail_records emailId;
     cont := K_loadMailViewerRecords emailId wanted |}.

(** The pending tasks without the [i]-th. *)
Definition without (i : nat) (tasks : list Task) : list Task :=
  firstn i tasks ++ skipn (S i) tasks.

(** What [handleOpenMailbox] does up to its [await], in program order. *)
Definition openEffects (account : EmailAccount) (wanted : MailFolder)
    : list Effect :=
  [ESet (setMailViewerEmail (Some account));
   ESet (setMailViewerFolder wanted);
   ESet (setMailViewerRecords []);
   ESet (setMailViewerOpen true);
   ESet (setMailViewerLoading true);
   EInvoke (check_outlook_email (account_id account) wanted)].

(** What the [catch] of [handleOpenMailbox] logs. *)
Definition syncLog (r : Settled) : list Effect :=
  match r with
  | Rejected error => [EConsoleError error]
  | Resolved _ => []
  end.

(** What [handleOpenMailbox] does after its [await]. *)
Definition loadEffects (account : EmailAccount) : list Effect :=
  [ESet (setMailViewerLoading true);
   EInvoke (get_mail_records (account_id account))].

(** The task that [handleBatchImport] leaves pending. *)
Definition importTask (content : jsstring) : Task :=
  {| command := import_emails content; cont := K_handleBatchImport |}.

(** ** Concrete accounts, mails and runs *)

Definition exampleAccount (n : Z) (address : string) : EmailAccount :=
  {| account_id := n; email := jsstr address; password := jsstr "pw";
     mail_type := jsstr "outlook"; client_id := jsstr "cid";
     refresh_token := jsstr "rt"; last_check_time := None |}.


Definition account3 : EmailAccount := exampleAccount 3 "three@example.com".
Definition account7 : EmailAccount := exampleAccount 7 "seven@example.com".

(** The account list arrives; the user opens the inbox of account 3; its
    sync settles and its load is issued; the user closes the viewer. *)
Definition syncPending : list Event :=
  [Settle 0 (Resolved (REmails [account3; account7]));
   Click_openMailbox account3 INBOX].

Definition loadPending : list Event :=
  syncPending ++ [Settle 0 (Resolved RNone)].




(** Accounts 3 and 7 are selected; account 3 is deleted with its own delete
    button; the delete and the reload of the list settle. *)
Definition deleteRun : list Event :=
  [Settle 0 (Resolved (REmails [account3; account7]));
   Change_toggleSelect 3;
   Change_toggleSelect 7;
   Click_delete 3 true;
   Settle 0 (Resolved RNone);
   Settle 0 (Resolved (REmails [account7]))].

(** Account 3 is selected and deleted with the batch delete button. *)
Definition batchDeleteRun : list Event :=
  [Settle 0 (Resolved (REmails [account3; account7]));
   Change_toggleSelect 3;
   Click_batchDelete true;
   Settle 0 (Resolved RNone);
   Settle 0 (Resolved (REmails [account7]))].

(** The world a run from the first render ends in. *)
Definition worldAfter (es : list Event) : World :=
  match run toLowerCaseAscii es mount with
  | Some w => w
  | None => mount
  end.

(** ** Further values derived at render time *)

Section Derived.

Variable toLowerCase : jsstring -> jsstring.

(** [pageEmailIds.length > 0 && pageEmailIds.every((id) =>
    selectedIds.includes(id))] *)
Definition allPageSelected (s : State) : bool :=
  negb (Nat.eqb (List.length (pageEmailIds toLowerCase s)) 0)
  && forallb (includesId (selectedIds s)) (pageEmailIds toLowerCase s).

(** The page that is rendered when the current page is [p]. *)
Definition pageAt (s : State) (p : Z) : list EmailAccount :=
  paginatedEmails toLowerCase (applyUpdate (setCurrentPage p) s).

End Derived.

(** The page numbers of a strip, in order. *)
Fixpoint pageNumbers (items : list PageItem) : list Z :=
  match items with
  | [] => []
  | Page n :: rest => n :: pageNumbers rest
  | Ellipsis :: rest => pageNumbers rest
  end.

Fixpoint increasing (ns : list Z) : Prop :=
  match ns with
  | [] => True
  | n :: rest =>
      match rest with
      | [] => True
      | m :: _ => n < m /\ increasing rest
      end
  end.

(** The sizes the page size selector offers, and what holds of the page
    state between events. *)
Definition pageInvariant (toLowerCase : jsstring -> jsstring) (s : State) : Prop :=
  In (pageSize s) [10; 20; 50]
  /\ 1 <= currentPage s <= totalPages toLowerCase s.

(** The backend calls in a trace, in the order they were issued. *)
Fixpoint invoked (t : list Effect) : list Command :=
  match t with
  | [] => []
  | EInvoke c :: rest => c :: invoked rest
  | _ :: rest => invoked rest
  end.

(** The tasks that [loadEmails], [handleDelete] and the loop of
    [handleBatchDelete] leave pending. *)
Definition emailsTask : Task :=
  {| command := get_emails; cont := K_loadEmails |}.

Definition deleteTask (id : Z) : Task :=
  {| command := delete_email id; cont := K_handleDelete id |}.

Definition batchDeleteTask (id : Z) (rest : list Z) : Task :=
  {| command := delete_email id; cont := K_handleBatchDelete rest |}.

(** What the import result box shows for a response of the backend. *)
Definition importMessage (response : ImportResult) : ImportMessage :=
  if failed_count response =? 0
  then ImportedAll (success_count response)
  else ImportedSome (success_count response) (failed_count response)
                    (failed_lines response).

(** ** Version comparison ([About.tsx], [utils/updateChecker.ts]) *)

(** [s.split(sep)] for a separator of one code unit: there is always at
    least one part. *)
Fixpoint splitOn (sep : N) (s : jsstring) : list jsstring :=
  match s with
  | [] => [[]]
  | c :: s' =>
      if (c =? sep)%N then [] :: splitOn sep s'
      else match splitOn sep s' with
           | part :: parts => (c :: part) :: parts
           | [] => [[c]]
           end
  end.

Definition isDigit (c : N) : bool := ((48 <=? c) && (c <=? 57))%N.

Fixpoint takeDigits (s : jsstring) : list N :=
  match s with
  | c :: s' => if isDigit c then c :: takeDigits s' else []
  | [] => []
  end.

Definition digitsValue (ds : list N) : Z :=
  fold_left (fun acc d => acc * 10 + (Z.of_N d - 48)) ds 0.

Section Versions.

(** The Number value of a decimal integer: the integer itself up to 2^53,
    the nearest double beyond.  The comparison is written over any such
    function. *)
Variable number : Z -> Z.

(** [parseInt(s, 10)]: leading white space is skipped, a sign is read, then
    the longest run of decimal digits; [None] is NaN. *)
Definition parseInt10 (s : jsstring) : option Z :=
  let s1 := trimStart s in
  let '(sign, s2) :=
    match s1 with
    | 45%N :: r => (-1, r)
    | 43%N :: r => (1, r)
    | _ => (1, s1)
    end in
  match takeDigits s2 with
  | [] => None
  | ds => Some (sign * number (digitsValue ds))
  end.

(** [x || 0] for a number or undefined: NaN, 0 and undefined give 0. *)
Definition orZero (x : option Z) : Z :=
  match x with
  | Some z => z
  | None => 0
  end.

(** [v.replace(/^v/, '').split('.').map(n => parseInt(n, 10) || 0)] *)
Definition normalize (v : jsstring) : list Z :=
  map (fun n => orZero (parseInt10 n))
      (splitOn 46 match v with
                  | 118%N :: r => r
                  | _ => v
                  end).

(** The loop of [compareVersions] from index [i], with [n] rounds left;
    [curr[i] || 0] is the component or 0. *)
Fixpoint compareLoop (curr lat : list Z) (n i : nat) : Z :=
  match n with
  | O => 0
  | S n' =>
      let c := nth i curr 0 in
      let l := nth i lat 0 in
      if l >? c then 1
      else if l <? c then -1
      else compareLoop curr lat n' (S i)
  end.

Definition compareVersions (current latest : jsstring) : Z :=
  let curr := normalize current in
  let lat := normalize latest in
  compareLoop curr lat (Nat.max (List.length curr) (List.length lat)) 0.

End Versions.

(** [latest] is newer than [current] at component [i]: the first component
    in which they differ, missing components counting as 0. *)
Definition newerAt (curr lat : list Z) (i : nat) : Prop :=
  nth i curr 0 < nth i lat 0
  /\ forall j, (j < i)%nat -> nth j curr 0 = nth j lat 0.

(** ** Checking for updates ([About.tsx], [utils/updateChecker.ts]) *)

Module UpdateCheck.

(** The part of the GitHub release that the code reads. *)
Record Release := { tag_name : jsstring; html_url : jsstring }.

(** What the environment answers to the awaits of one check. *)
Inductive VersionAnswer :=
| VersionResolved (v : jsstring)
| VersionRejected (error : JsError).

Inductive JsonAnswer :=
| JsonRelease (release : Release)
| JsonRejected (error : JsError).

Inductive FetchAnswer :=
| FetchResponse (status : Z) (json : JsonAnswer)
| FetchRejected (error : JsError).

Record Answers := {
  getVersionAnswer : VersionAnswer;
  fetchAnswer : FetchAnswer
}.

(** [response.ok] *)
Definition ok (status : Z) : bool := (200 <=? status) && (status <=? 299).

Definition loadingText : jsstring := [21152; 36733; 20013; 46; 46; 46]%N.
Definition noReleaseText : jsstring :=
  [26242; 26080; 21457; 24067; 29256; 26412]%N.
Definition newVersionText (tag : jsstring) : jsstring :=
  [21457; 29616; 26032; 29256; 26412; 32]%N ++ tag.
Definition upToDateText : jsstring :=
  [24403; 21069; 24050; 26159; 26368; 26032; 29256; 26412; 32; 10003]%N.
Definition failedText : jsstring :=
  [26816; 26597; 26356; 26032; 22833; 36133; 65292; 35831; 26816; 26597;
   32593; 32476; 36830; 25509]%N.

(** The error that [throw new Error(`HTTP ${response.status}`)] raises; the
    handlers only log it. *)
Definition httpError : JsError := jsstr "HTTP".

(** The state of [About]. *)
Record AboutState := {
  version : jsstring;
  checking : bool;
  toast : About.ToastState
}.

Definition Act (A : Type) := AboutState -> Outcome A * AboutState.

Definition unit_ {A} (a : A) : Act A := fun s => (Normal a, s).

Definition then_ {A B} (m : Act A) (k : A -> Act B) : Act B :=
  fun s =>
    match m s with
    | (Normal a, s') => k a s'
    | (Throw e, s') => (Throw e, s')
    end.

Notation "x <~ m ;; k" := (then_ m (fun x => k))
  (at level 61, m at next level, right associativity).

Definition raise {A} (e : JsError) : Act A := fun s => (Throw e, s).

Definition catch_ {A} (body : Act A) (handler : JsError -> Act A) : Act A :=
  fun s =>
    match body s with
    | (Normal a, s') => (Normal a, s')
    | (Throw e, s') => handler e s'
    end.

Definition finally_ {A} (body : Act A) (final : Act unit) : Act A :=
  fun s =>
    match body s with
    | (r, s') =>
        match final s' with
        | (Normal _, s'') => (r, s'')
        | (Throw e, s'') => (Throw e, s'')
        end
    end.

Definition onToast (f : About.ToastState -> About.ToastState) : Act unit :=
  fun s => (Normal tt,
            {| version := version s; checking := checking s;
               toast := f (toast s) |}).

Definition setChecking (v : bool) : Act unit :=
  fun s => (Normal tt,
            {| version := version s; checking := v; toast := toast s |}).

Definition awaitVersion (a : VersionAnswer) : Act jsstring :=
  match a with
  | VersionResolved v => unit_ v
  | VersionRejected e => raise e
  end.

Definition awaitFetch (a : FetchAnswer) : Act (Z * JsonAnswer) :=
  match a with
  | FetchResponse status json => unit_ (status, json)
  | FetchRejected e => raise e
  end.

Definition awaitJson (a : JsonAnswer) : Act Release :=
  match a with
  | JsonRelease release => unit_ release
  | JsonRejected e => raise e
  end.

Section WithNumber.

Variable number : Z -> Z.

(** [handleCheckUpdate] up to its first [await]. *)
Definition handleCheckUpdate_start : Act unit := setChecking true.

(** The rest of [handleCheckUpdate], given the version the handler read
    when it started and the answers to its awaits.  Nothing is written
    between the awaits, so the rest runs on the state that the component has
    when the last answer arrives. *)
Definition handleCheckUpdate_rest (versionRead : jsstring) (a : Answers)
    : Act unit :=
  finally_
    (catch_
       (currentVersion <~
          (if jsstring_eqb versionRead loadingText
           then awaitVersion (getVersionAnswer a)
           else unit_ versionRead) ;;
        response <~ awaitFetch (fetchAnswer a) ;;
        let '(status, json) := response in
        if negb (ok status) then
          if status =? 404
          then onToast (About.showToast noReleaseText 3000)
          else raise httpError
        else
          release <~ awaitJson json ;;
          let latestVersion := tag_name release in
          let cmp := compareVersions number currentVersion latestVersion in
          if cmp >? 0 then
            _ <~ onToast (About.setUpdateInfo
                            (Some {| About.version := latestVersion;
                                     About.downloadUrl := html_url release |})) ;;
            onToast (About.showToast (newVersionText latestVersion) 0)
          else
            onToast (About.showToast upToDateText 3000))
       (fun error => onToast (About.showToast failedText 3000)))
    (setChecking false).

(** [checkForUpdate] of [utils/updateChecker.ts]; it has no state of its
    own. *)
Definition checkForUpdate (a : Answers) : Act (option About.UpdateInfo) :=
  catch_
    (currentVersion <~ awaitVersion (getVersionAnswer a) ;;
     response <~ awaitFetch (fetchAnswer a) ;;
     let '(status, json) := response in
     if negb (ok status) then unit_ None
     else
       release <~ awaitJson json ;;
       let latestVersion := tag_name release in
       if compareVersions number currentVersion latestVersion >? 0
       then unit_ (Some {| About.version := latestVersion;
                           About.downloadUrl := html_url release |})
       else unit_ None)
    (fun error => unit_ None).

(** The release that a check reports as newer, if any. *)
Definition newerRelease (currentVersion : jsstring) (a : FetchAnswer)
    : option Release :=
  match a with
  | FetchResponse status (JsonRelease release) =>
      if ok status
         && (compareVersions number currentVersion (tag_name release) >? 0)
      then Some release
      else None
  | _ => None
  end.

End WithNumber.

End UpdateCheck.

(** The version that a check compares against: the one the handler read
    when it started, or the answer of [getVersion] when the component had
    not loaded its version yet. *)
Definition versionCompared (versionRead : jsstring)
    (a : UpdateCheck.Answers) : option jsstring :=
  if jsstring_eqb versionRead UpdateCheck.loadingText
  then match UpdateCheck.getVersionAnswer a with
       | UpdateCheck.VersionResolved v => Some v
       | UpdateCheck.VersionRejected _ => None
       end
  else Some versionRead.

(** The release that a whole check finds. *)
Definition foundRelease (number : Z -> Z) (versionRead : jsstring)
    (a : UpdateCheck.Answers) : option UpdateCheck.Release :=
  match versionCompared versionRead a with
  | Some v => UpdateCheck.newerRelease number v (UpdateCheck.fetchAnswer a)
  | None => None
  end.

Definition updateInfoOf (release : UpdateCheck.Release) : About.UpdateInfo :=
  {| About.version := UpdateCheck.tag_name release;
     About.downloadUrl := UpdateCheck.html_url release |}.

(** ** Mail preview ([stripHtml]) *)

(** [html.replace(/<[^>]*>/g, ' ')]: a [<] that has a [>] somewhere after it
    starts a tag, which runs to the first [>]; [inTag] says that the scan is
    inside one. *)
Fixpoint stripTags (inTag : bool) (s : jsstring) : jsstring :=
  match s with
  | [] => []
  | c :: s' =>
      if inTag then
        if (c =? 62)%N then stripTags false s' else stripTags true s'
      else if (c =? 60)%N && existsb (N.eqb 62) s' then 32%N :: stripTags true s'
      else c :: stripTags false s'
  end.

(** [s.replace(/pat/g, rep)] for a literal, non-empty [pat]: the matches are
    taken from the left and do not overlap; [skip] counts the code units of
    the current match still to pass over. *)
Fixpoint replaceAllFrom (pat rep : jsstring) (skip : nat) (s : jsstring)
    : jsstring :=
  match s with
  | [] => []
  | c :: s' =>
      match skip with
      | S k => replaceAllFrom pat rep k s'
      | O =>
          if startsWith (c :: s') pat
          then rep ++ replaceAllFrom pat rep (List.length pat - 1) s'
          else c :: replaceAllFrom pat rep 0 s'
      end
  end.

Definition replaceAll (pat rep s : jsstring) : jsstring :=
  replaceAllFrom pat rep 0 s.

Definition decodeEntities (text : jsstring) : jsstring :=
  replaceAll (jsstr "&quot;") [34%N]
    (replaceAll (jsstr "&gt;") (jsstr ">")
       (replaceAll (jsstr "&lt;") (jsstr "<")
          (replaceAll (jsstr "&amp;") (jsstr "&")
             (replaceAll (jsstr "&nbsp;") (jsstr " ") text)))).

(** [text.replace(/\s+/g, ' ')]; [inRun] says that the code unit before was
    white space. *)
Fixpoint collapseSpaces (inRun : bool) (s : jsstring) : jsstring :=
  match s with
  | [] => []
  | c :: s' =>
      if isWhiteSpace c
      then if inRun then collapseSpaces true s' else 32%N :: collapseSpaces true s'
      else c :: collapseSpaces false s'
  end.

Definition stripHtml (html : option jsstring) : jsstring :=
  match html with
  | None => []
  | Some [] => []
  | Some s =>
      trim (collapseSpaces false (decodeEntities (stripTags false s)))
  end.

(** [stripHtml(mail.content)?.substring(0, 120) || '-'] *)
Definition mailPreview (content : option jsstring) : jsstring :=
  match firstn 120 (stripHtml content) with
  | [] => jsstr "-"
  | c :: rest => c :: rest
  end.

(** The same, as a scan of the string. *)
Fixpoint tidy (s : jsstring) : Prop :=
  match s with
  | [] => True
  | c :: rest =>
      (isWhiteSpace c = true ->
       c = 32%N /\ match rest with
                  | d :: _ => isWhiteSpace d = false
                  | [] => True
                  end)
      /\ tidy rest
  end.

Definition headNotSpace (s : jsstring) : Prop :=
  match s with
  | c :: _ => isWhiteSpace c = false
  | [] => True
  end.

(** White space in [s] is only the space, and never two in a row. *)
Definition singleSpaced (s : jsstring) : Prop :=
  (forall c, In c s -> isWhiteSpace c = true -> c = 32%N)
  /\ (forall pre c d post,
        s = pre ++ c :: d :: post ->
        isWhiteSpace c = true -> isWhiteSpace d = false).

(** [s] neither starts nor ends with white space. *)
Definition noOuterSpace (s : jsstring) : Prop :=
  (forall c rest, s = c :: rest -> isWhiteSpace c = false)
  /\ (forall pre c, s = pre ++ [c] -> isWhiteSpace c = false).

(** No [<] of [s] has a [>] after it. *)
Definition withoutTags (s : jsstring) : Prop :=
  forall pre mid post, s <> pre ++ 60%N :: mid ++ 62%N :: post.

(** The scan for a [<] with a [>] after it. *)
Fixpoint noTagB (s : jsstring) : bool :=
  match s with
  | [] => true
  | c :: rest =>
      (negb (c =? 60)%N || negb (existsb (N.eqb 62) rest)) && noTagB rest
  end.

(** ** The copy toast of [EmailManagement] *)

Module CopyToast.

Record ToastState := {
  toastMessage : option jsstring;
  toastId : Z;
  toastTimerRef : option Z;              (* toastTimerRef.current *)
  timers : list About.Timer;             (* the timeouts the window holds *)
  nextHandle : Z
}.

Definition initial : ToastState := {|
  toastMessage := None; toastId := 0; toastTimerRef := None;
  timers := []; nextHandle := 1
|}.

(** [showToast(message)]: the pending timeout is cleared and a new one of
    2000 ms takes its place in the ref. *)
Definition showToast (message : jsstring) (s : ToastState) : ToastState :=
  let timers1 :=
    if About.truthy (toastTimerRef s)
    then About.clearTimeout (toastTimerRef s) (timers s)
    else timers s in
  {| toastMessage := Some message;
     toastId := toastId s + 1;
     toastTimerRef := Some (nextHandle s);
     timers := timers1 ++ [{| About.handle := nextHandle s; About.delay := 2000 |}];
     nextHandle := nextHandle s + 1 |}.

(** The window runs the timeout with handle [h], if it still holds it; the
    callback clears the message and the ref. *)
Definition timerFires (h : Z) (s : ToastState) : option ToastState :=
  if existsb (fun t => About.handle t =? h) (timers s)
  then Some {| toastMessage := None; toastId := toastId s;
               toastTimerRef := None;
               timers := filter (fun t => negb (About.handle t =? h)) (timers s);
               nextHandle := nextHandle s |}
  else None.

(** How a copy goes: the environment has no clipboard, or the write
    resolves, or it is rejected. *)
Inductive CopyAnswer :=
| NoClipboard
| Written
| WriteRejected (error : JsError).

Definition copiedText (displayValue : jsstring) : jsstring :=
  displayValue ++ [24050; 22797; 21046]%N.

(** [handleCopyValue(value, displayValue)]: the new toast state, and
    whether an alert was raised. *)
Definition handleCopyValue (displayValue : jsstring) (a : CopyAnswer)
    (s : ToastState) : ToastState * bool :=
  match a with
  | NoClipboard => (s, true)
  | Written => (showToast (copiedText displayValue) s, false)
  | WriteRejected _ => (s, true)
  end.

Inductive reachable : ToastState -> Prop :=
| reach_initial : reachable initial
| reach_copy displayValue a s :
    reachable s -> reachable (fst (handleCopyValue displayValue a s))
| reach_fire h s s' :
    reachable s -> timerFires h s = Some s' -> reachable s'.

(** A toast is showing exactly while its one timeout is pending. *)
Definition timed (s : ToastState) : Prop :=
  0 < nextHandle s
  /\ match toastMessage s with
     | Some _ =>
         exists h, 0 < h < nextHandle s
                   /\ toastTimerRef s = Some h
                   /\ timers s = [{| About.handle := h; About.delay := 2000 |}]
     | None => toastTimerRef s = None /\ timers s = []
     end.

End CopyToast.

(** ** Further concrete worlds *)

(** 35 accounts, the first 14 of them of [ann]. *)
Definition manyAccounts : list EmailAccount :=
  map (fun k => exampleAccount (Z.of_nat k)
                  (if (k <? 15)%nat then "ann@example.com" else "bob@example.com"))
      (seq 1 35).

(** The list has arrived and the user has gone to the last of its 4 pages. *)
Definition onLastPage : list Event :=
  [Settle 0 (Resolved (REmails manyAccounts));
   Click_nextPage; Click_nextPage; Click_nextPage].

Definition listLoaded : list Event :=
  [Settle 0 (Resolved (REmails [account3; account7]))].

Definition bothSelected : list Event :=
  listLoaded ++ [Change_toggleSelect 3; Change_toggleSelect 7].

Definition importStarted : list Event :=
  listLoaded ++ [Import (jsstr "a@b.com----pw----cid----rt")].

Definition deleteStarted : list Event :=
  listLoaded ++ [Click_delete 3 true].

Definition partlyImported : ImportResult :=
  {| success_count := 2; failed_count := 1;
     failed_lines := [jsstr "2: a@b.com----pw"] |}.

Definition releaseAnswers : UpdateCheck.Answers :=
  {| UpdateCheck.getVersionAnswer := UpdateCheck.VersionResolved (jsstr "0.3.4");
     UpdateCheck.fetchAnswer :=
       UpdateCheck.FetchResponse 200
         (UpdateCheck.JsonRelease
            {| UpdateCheck.tag_name := jsstr "v0.4.0";
               UpdateCheck.html_url := jsstr "https://example.com/v0.4.0" |}) |}.

Definition aboutBeforeVersion : UpdateCheck.AboutState :=
  {| UpdateCheck.version := UpdateCheck.loadingText;
     UpdateCheck.checking := true;
     UpdateCheck.toast := About.initial |}.

(** * Properties *)

(** ** The definitions on small inputs *)

Example trim_spaces : trim (jsstr "  Junk Email ") = jsstr "Junk Email".
Proof. reflexivity. Qed.

Example includes_inside : includes (jsstr "junk email") (jsstr "k e") = true.
Proof. reflexivity. Qed.

Example includes_absent : includes (jsstr "inbox") (jsstr "junk") = false.
Proof. reflexivity. Qed.

Example normalizeFolder_upper_case :
  normalizeFolder toLowerCaseAscii (Some (jsstr "SPAM")) = JUNK.
Proof. reflexivity. Qed.

Example normalizeFolder_localized :
  normalizeFolder toLowerCaseAscii (Some [22403; 22334; 37038; 20214]%N) = JUNK.
Proof. reflexivity. Qed.

Example normalizeFolder_blank :
  normalizeFolder toLowerCaseAscii (Some (jsstr "   ")) = INBOX.
Proof. reflexivity. Qed.

Example normalizeFolder_absent : normalizeFolder toLowerCaseAscii None = INBOX.
Proof. reflexivity. Qed.

Example buildPageItems_seven :
  buildPageItems 7 4
  = [Page 1; Page 2; Page 3; Page 4; Page 5; Page 6; Page 7].
Proof. reflexivity. Qed.

Example buildPageItems_eight_tail :
  buildPageItems 8 6 = [Page 1; Ellipsis; Page 5; Page 6; Page 7; Page 8].
Proof. reflexivity. Qed.

Example arrayFromSet_keeps_first : arrayFromSet [3; 7; 3; 9; 7] = [3; 7; 9].
Proof. reflexivity. Qed.

Example toggleSelect_twice :
  toggleSelect_update 3 (toggleSelect_update 3 [7]) = [7].
Proof. reflexivity. Qed.

Example deselect_page :
  handleSelectAll_update false [3; 7] [1; 3; 5; 7] = [1; 5].
Proof. reflexivity. Qed.

Example mount_loads_accounts :
  pending mount = [{| command := get_emails; cont := K_loadEmails |}]
  /\ loading (state mount) = true.
Proof. split; reflexivity. Qed.

Example toast_times_out :
  option_map About.toastMessage
    (About.timerFires 1 (About.showToast (jsstr "X") 3000 About.initial))
  = Some None.
Proof. reflexivity. Qed.

(** ** Strings *)

Lemma startsWith_spec s pat :
  startsWith s pat = true <-> exists post, s = pat ++ post.
Proof.
  revert s; induction pat as [|p pat IH]; intros s; simpl.
  - split; [intros _; now exists s | reflexivity].
  - destruct s as [|c s].
    + split; [discriminate | intros [post H]; discriminate].
    + rewrite andb_true_iff, N.eqb_eq, IH. split.
      * intros [-> [post ->]]. now exists post.
      * intros [post H]. injection H as -> ->. split; [reflexivity | now exists post].
Qed.

Lemma includes_spec s pat : includes s pat = true <-> occurs pat s.
Proof.
  induction s as [|c s IH]; simpl; rewrite orb_true_iff, startsWith_spec.
  - split.
    + intros [[post H] | H]; [|discriminate]. now exists [], post.
    + intros [pre [post H]]. left. destruct pre; [|discriminate].
      now exists post.
  - rewrite IH. split.
    + intros [[post H] | [pre [post H]]].
      * now exists [], post.
      * exists (c :: pre), post. simpl. now rewrite H.
    + intros [[|c' pre] [post H]].
      * left. now exists post.
      * right. injection H as _ ->. now exists pre, post.
Qed.

Lemma trim_nil : trim [] = [].
Proof. reflexivity. Qed.

Lemma occurs_nil_inv pat : occurs pat [] -> pat = [].
Proof.
  intros [pre [post H]]. symmetry in H.
  apply app_eq_nil in H as [_ H]. now apply app_eq_nil in H as [H _].
Qed.

(** ** Folder classifier *)

Section Classifier.

Variable toLowerCase : jsstring -> jsstring.
Hypothesis toLowerCase_nil : toLowerCase [] = [].

Lemma junkLabel_includes n :
  includes n (jsstr "junk") || includes n (jsstr "spam") || includes n junkTerm = true
  <-> junkLabel n.
Proof.
  unfold junkLabel. rewrite !orb_true_iff, !includes_spec. tauto.
Qed.

Lemma junkLabel_nil : ~ junkLabel [].
Proof.
  intros [H | [H | H]]; apply occurs_nil_inv in H; discriminate.
Qed.

Lemma normalizeFolder_JUNK_iff raw :
  normalizeFolder toLowerCase raw = JUNK
  <-> exists s, raw = Some s /\ junkLabel (toLowerCase (trim s)).
Proof.
  destruct raw as [[|c s]|]; simpl.
  - split; [discriminate|].
    intros [s [[= <-] H]]. rewrite trim_nil, toLowerCase_nil in H.
    now apply junkLabel_nil in H.
  - set (n := toLowerCase (trim (c :: s))).
    pose proof (junkLabel_includes n) as Hn.
    destruct (includes n (jsstr "junk") || includes n (jsstr "spam")
              || includes n junkTerm).
    + split; [intros _ | reflexivity].
      exists (c :: s). split; [reflexivity | now apply Hn].
    + split; [discriminate|].
      intros [s' [[= <-] H]]. apply Hn in H. discriminate.
  - split; [discriminate | intros [s [H _]]; discriminate].
Qed.

(** C7. The folder classifier is a total, deterministic function from a
    raw folder label that may be absent to the two tags: the result is JUNK
    exactly when the label is present and, trimmed and lower-cased, contains
    "junk", "spam" or the localized junk term; every other input, among them
    the absent and the empty label, gives INBOX; equal inputs give equal
    tags. *)
Theorem normalizeFolder_total_classifier (raw : option jsstring) :
  (normalizeFolder toLowerCase raw = JUNK
   \/ normalizeFolder toLowerCase raw = INBOX)
  /\ (normalizeFolder toLowerCase raw = JUNK
      <-> exists s, raw = Some s /\ junkLabel (toLowerCase (trim s)))
  /\ (normalizeFolder toLowerCase raw = INBOX
      <-> ~ exists s, raw = Some s /\ junkLabel (toLowerCase (trim s)))
  /\ normalizeFolder toLowerCase None = INBOX
  /\ normalizeFolder toLowerCase (Some []) = INBOX
  /\ (forall raw', raw' = raw ->
        normalizeFolder toLowerCase raw' = normalizeFolder toLowerCase raw).
Proof.
  pose proof (normalizeFolder_JUNK_iff raw) as HJ.
  repeat split; try reflexivity.
  - destruct (normalizeFolder toLowerCase raw); auto.
  - apply HJ.
  - apply HJ.
  - intros Hi Hex. apply HJ in Hex. congruence.
  - intros Hn. destruct (normalizeFolder toLowerCase raw) eqn:E; [reflexivity|].
    exfalso. apply Hn. now apply HJ.
  - now intros raw' ->.
Qed.

End Classifier.

(** ** Pagination strip *)

Lemma countUp_seq (a n : nat) :
  map (fun index => Page (Z.of_nat index + 1)) (seq a n)
  = countUp (Z.of_nat a + 1) n.
Proof.
  revert a; induction n as [|n IH]; intros a; simpl; [reflexivity|].
  rewrite IH. do 2 f_equal. lia.
Qed.

Lemma countUp_length from n : List.length (countUp from n) = n.
Proof. revert from; induction n; intros; simpl; auto. Qed.

Lemma countUp_no_ellipsis from n : ~ In Ellipsis (countUp from n).
Proof.
  revert from; induction n as [|n IH]; intros from; simpl; [tauto|].
  intros [H | H]; [discriminate | now apply IH in H].
Qed.

Lemma buildPageItems_is_window total current :
  pageWindow total current (buildPageItems total current).
Proof.
  unfold buildPageItems.
  destruct (Z.leb_spec total 7).
  - unfold pagesUpTo. rewrite countUp_seq. now apply window_all.
  - destruct (Z.leb_spec current 3); [now apply window_head|].
    destruct (Z.geb_spec current (total - 2)).
    + apply window_tail; lia.
    + apply window_middle; lia.
Qed.

Lemma pageWindow_functional total current items items' :
  pageWindow total current items -> pageWindow total current items' ->
  items = items'.
Proof.
  intros H H'; inversion H; inversion H'; subst; try reflexivity; lia.
Qed.

(** C3. For [totalPages >= 1] and [currentPage] in [1, totalPages], the
    page strip is exactly the window of the four branches: all pages and no
    ellipsis up to 7 pages, else the head, tail or middle shape; nothing else
    is a window.  The three worked cases for 10 pages. *)
Theorem buildPageItems_exact (totalPages currentPage : Z) :
  1 <= totalPages -> 1 <= currentPage <= totalPages ->
  (forall items, pageWindow totalPages currentPage items
                 <-> items = buildPageItems totalPages currentPage)
  /\ (totalPages <= 7 ->
      buildPageItems totalPages currentPage = countUp 1 (Z.to_nat totalPages)
      /\ Z.of_nat (List.length (buildPageItems totalPages currentPage)) = totalPages
      /\ ~ In Ellipsis (buildPageItems totalPages currentPage))
  /\ (7 < totalPages -> currentPage <= 3 ->
      buildPageItems totalPages currentPage
      = [Page 1; Page 2; Page 3; Page 4; Ellipsis; Page totalPages])
  /\ (7 < totalPages -> 3 < currentPage -> totalPages - 2 <= currentPage ->
      buildPageItems totalPages currentPage
      = [Page 1; Ellipsis; Page (totalPages - 3); Page (totalPages - 2);
         Page (totalPages - 1); Page totalPages])
  /\ (7 < totalPages -> 3 < currentPage -> currentPage < totalPages - 2 ->
      buildPageItems totalPages currentPage
      = [Page 1; Ellipsis; Page (currentPage - 1); Page currentPage;
         Page (currentPage + 1); Ellipsis; Page totalPages])
  /\ buildPageItems 10 1 = [Page 1; Page 2; Page 3; Page 4; Ellipsis; Page 10]
  /\ buildPageItems 10 9 = [Page 1; Ellipsis; Page 7; Page 8; Page 9; Page 10]
  /\ buildPageItems 10 5
     = [Page 1; Ellipsis; Page 4; Page 5; Page 6; Ellipsis; Page 10].
Proof.
  intros Htotal Hcurrent.
  pose proof (buildPageItems_is_window totalPages currentPage) as Hw.
  assert (Hex : forall items, pageWindow totalPages currentPage items ->
                              items = buildPageItems totalPages currentPage)
    by (intros items Hi; exact (pageWindow_functional _ _ _ _ Hi Hw)).
  split; [|split; [|split; [|split; [|split]]]].
  - intros items; split; [apply Hex | now intros ->].
  - intros Hle.
    assert (E : buildPageItems totalPages currentPage
                = countUp 1 (Z.to_nat totalPages))
      by (symmetry; apply Hex; now apply window_all).
    rewrite E, countUp_length. repeat split.
    + lia.
    + apply countUp_no_ellipsis.
  - intros; symmetry; apply Hex; now apply window_head.
  - intros; symmetry; apply Hex; now apply window_tail.
  - intros; symmetry; apply Hex; now apply window_middle.
  - repeat split; reflexivity.
Qed.

(** ** Handlers and component state *)

Section Keeps.

Context {A B : Type} (P : State -> Prop).

Lemma keeps_ret (a : A) : keeps P (ret a).
Proof. intros w H; exact H. Qed.

Lemma keeps_throw e : keeps P (@throw A e).
Proof. intros w H; exact H. Qed.

Lemma keeps_get : keeps P get.
Proof. intros w H; exact H. Qed.

Lemma keeps_emit e : keeps P (emit e).
Proof. intros w H; exact H. Qed.

Lemma keeps_await c k : keeps P (await c k).
Proof. intros w H; exact H. Qed.

Lemma keeps_awaited r : keeps P (awaited r).
Proof. destruct r; intros w H; exact H. Qed.

Lemma keeps_set u :
  (forall s, P s -> P (applyUpdate u s)) -> keeps P (set u).
Proof. intros Hu w H; simpl. now apply Hu. Qed.

Lemma keeps_bind (m : M A) (k : A -> M B) :
  keeps P m -> (forall a, keeps P (k a)) -> keeps P (bind m k).
Proof.
  intros Hm Hk w H. unfold bind. specialize (Hm w H).
  destruct (m w) as [[a|e] w']; simpl in *; [now apply Hk | exact Hm].
Qed.

Lemma keeps_try_catch (body : M A) handler :
  keeps P body -> (forall e, keeps P (handler e)) ->
  keeps P (try_catch body handler).
Proof.
  intros Hb Hh w H. unfold try_catch. specialize (Hb w H).
  destruct (body w) as [[a|e] w']; simpl in *; [exact Hb | now apply Hh].
Qed.

Lemma keeps_try_finally (body : M A) final :
  keeps P body -> keeps P final -> keeps P (try_finally body final).
Proof.
  intros Hb Hf w H. unfold try_finally. specialize (Hb w H).
  destruct (body w) as [r w']; simpl in *. specialize (Hf w' Hb).
  destruct (final w') as [[u|e] w'']; exact Hf.
Qed.

End Keeps.

(** Reading one field back after an update. *)

Lemma selectedIds_applyUpdate u s :
  selectedIds (applyUpdate u s)
  = match u with setSelectedIds v => v | _ => selectedIds s end.
Proof. destruct s, u; reflexivity. Qed.

Lemma mailViewerEmail_applyUpdate u s :
  mailViewerEmail (applyUpdate u s)
  = match u with setMailViewerEmail v => v | _ => mailViewerEmail s end.
Proof. destruct s, u; reflexivity. Qed.

Lemma mailViewerFolder_applyUpdate u s :
  mailViewerFolder (applyUpdate u s)
  = match u with setMailViewerFolder v => v | _ => mailViewerFolder s end.
Proof. destruct s, u; reflexivity. Qed.

Lemma mailViewerRecords_applyUpdate u s :
  mailViewerRecords (applyUpdate u s)
  = match u with setMailViewerRecords v => v | _ => mailViewerRecords s end.
Proof. destruct s, u; reflexivity. Qed.

Lemma mailViewerLoading_applyUpdate u s :
  mailViewerLoading (applyUpdate u s)
  = match u with setMailViewerLoading v => v | _ => mailViewerLoading s end.
Proof. destruct s, u; reflexivity. Qed.

Lemma mailViewerOpen_applyUpdate u s :
  mailViewerOpen (applyUpdate u s)
  = match u with setMailViewerOpen v => v | _ => mailViewerOpen s end.
Proof. destruct s, u; reflexivity. Qed.

Lemma searchQuery_applyUpdate u s :
  searchQuery (applyUpdate u s)
  = match u with setSearchQuery v => v | _ => searchQuery s end.
Proof. destruct s, u; reflexivity. Qed.

Lemma pageSize_applyUpdate u s :
  pageSize (applyUpdate u s)
  = match u with setPageSize v => v | _ => pageSize s end.
Proof. destruct s, u; reflexivity. Qed.

Lemma separator_applyUpdate u s :
  separator (applyUpdate u s)
  = match u with setSeparator v => v | _ => separator s end.
Proof. destruct s, u; reflexivity. Qed.

(** ** Locality *)

Lemma extend_fresh w : extend w (fresh (state w)) = w.
Proof. destruct w; unfold extend, fresh; simpl. now rewrite !app_nil_r. Qed.

Lemma extend_assoc w d x : extend (extend w d) x = extend w (extend d x).
Proof. unfold extend; simpl. now rewrite !app_assoc. Qed.

Lemma state_extend w d : state (extend w d) = state d.
Proof. reflexivity. Qed.

Section Local.

Context {A B : Type}.

Lemma local_ret (a : A) : local (ret a).
Proof. intros w. unfold ret; simpl. now rewrite extend_fresh. Qed.

Lemma local_throw e : local (@throw A e).
Proof. intros w. unfold throw; simpl. now rewrite extend_fresh. Qed.

Lemma local_get : local get.
Proof. intros w. unfold get; simpl. now rewrite extend_fresh. Qed.

Lemma local_emit e : local (emit e).
Proof.
  intros w. unfold emit, extend; simpl. now rewrite app_nil_r.
Qed.

Lemma local_set u : local (set u).
Proof.
  intros w. unfold set, extend; simpl. now rewrite app_nil_r.
Qed.

Lemma local_await c k : local (await c k).
Proof. intros w. reflexivity. Qed.

Lemma local_bind (m : M A) (k : A -> M B) :
  local m -> (forall a, local (k a)) -> local (bind m k).
Proof.
  intros Hm Hk w. unfold bind.
  rewrite (Hm w). destruct (m (fresh (state w))) as [[a|e] d] eqn:E; simpl.
  - rewrite (Hk a (extend w d)), (Hk a d), state_extend; simpl.
    now rewrite extend_assoc.
  - reflexivity.
Qed.

Lemma local_try_catch (body : M A) handler :
  local body -> (forall e, local (handler e)) -> local (try_catch body handler).
Proof.
  intros Hb Hh w. unfold try_catch.
  rewrite (Hb w). destruct (body (fresh (state w))) as [[a|e] d] eqn:E; simpl.
  - reflexivity.
  - rewrite (Hh e (extend w d)), (Hh e d), state_extend; simpl.
    now rewrite extend_assoc.
Qed.

Lemma local_try_finally (body : M A) final :
  local body -> local final -> local (try_finally body final).
Proof.
  intros Hb Hf w. unfold try_finally.
  rewrite (Hb w). destruct (body (fresh (state w))) as [r d] eqn:E; simpl.
  rewrite (Hf (extend w d)), (Hf d), state_extend.
  destruct (final (fresh (state d))) as [[u|e] x]; simpl;
    now rewrite extend_assoc.
Qed.

End Local.

Lemma local_awaited r : local (awaited r).
Proof. destruct r; [apply local_ret | apply local_throw]. Qed.

(** What a local handler leaves behind. *)
Lemma local_trace {A} (m : M A) w :
  local m -> exists added, trace (snd (m w)) = trace w ++ added.
Proof. intros H. rewrite (H w); simpl. now eexists. Qed.

Lemma local_sameButTrace {A} (m : M A) w1 w2 :
  local m -> sameButTrace w1 w2 ->
  fst (m w1) = fst (m w2) /\ sameButTrace (snd (m w1)) (snd (m w2)).
Proof.
  intros H [Hs Hp]. rewrite (H w1), (H w2), Hs; simpl.
  unfold sameButTrace; simpl. now rewrite Hp.
Qed.

Ltac local_step :=
  first
    [ apply local_ret | apply local_throw | apply local_get | apply local_emit
    | apply local_set | apply local_await | apply local_awaited
    | apply local_bind; [|intros ?]
    | apply local_try_catch; [|intros ?]
    | apply local_try_finally
    | match goal with
      | |- local (if ?b then _ else _) => destruct b
      | |- local (match ?x with _ => _ end) => destruct x
      end ].

Ltac keeps_step :=
  first
    [ apply keeps_ret | apply keeps_throw | apply keeps_get | apply keeps_emit
    | apply keeps_await | apply keeps_awaited
    | apply keeps_bind; [|intros ?]
    | apply keeps_try_catch; [|intros ?]
    | apply keeps_try_finally
    | match goal with
      | |- keeps _ (if ?b then _ else _) => destruct b
      | |- keeps _ (match ?x with _ => _ end) => destruct x
      end ].

Section Session.

Variable toLowerCase : jsstring -> jsstring.

Lemma loadEmails_local : local loadEmails.
Proof. unfold loadEmails; repeat local_step. Qed.

Lemma loadMailViewerRecords_local emailId wanted :
  local (loadMailViewerRecords emailId wanted).
Proof. unfold loadMailViewerRecords; repeat local_step. Qed.

Lemma handleBatchDelete_next_local rest : local (handleBatchDelete_next rest).
Proof.
  unfold handleBatchDelete_next; repeat local_step; apply loadEmails_local.
Qed.

Lemma resume_local k r : local (resume toLowerCase k r).
Proof.
  destruct k; simpl;
    unfold loadEmails_resumed, handleBatchImport_resumed,
      loadMailViewerRecords_resumed, handleOpenMailbox_resumed,
      handleDelete_resumed, handleBatchDelete_resumed;
    repeat local_step;
    first [ apply loadEmails_local | apply loadMailViewerRecords_local
          | apply handleBatchDelete_next_local ].
Qed.

Lemma renderEffects_local before : local (renderEffects toLowerCase before).
Proof. unfold renderEffects; repeat local_step. Qed.

Lemma takeTask_inv i w t w0 :
  takeTask i w = Some (t, w0) ->
  nth_error (pending w) i = Some t
  /\ state w0 = state w /\ trace w0 = trace w
  /\ pending w0 = firstn i (pending w) ++ skipn (S i) (pending w).
Proof.
  unfold takeTask. destruct (nth_error (pending w) i); [|discriminate].
  intros [= <- <-]. auto.
Qed.

Lemma dispatch_local e w m w0 :
  dispatch toLowerCase e w = Some (m, w0) -> local m.
Proof.
  destruct e; simpl;
    try (intros [= <- <-];
         unfold handleOpenMailbox, handleCloseMailbox, handleViewMailDetail,
           handleDelete, handleBatchDelete, handleSelectAll, toggleSelect,
           handleBatchImport;
         repeat local_step; apply handleBatchDelete_next_local).
  - destruct (existsb _ _); [|discriminate]. intros [= <- <-]. apply local_set.
  - destruct (_ || _); [|discriminate]. intros [= <- <-]. apply local_set.
  - destruct (takeTask i w) as [[t w']|]; [|discriminate].
    destruct (wellTyped _ _); [|discriminate].
    intros [= <- <-]. apply resume_local.
Qed.

Lemma dispatch_world e w m w0 :
  dispatch toLowerCase e w = Some (m, w0) ->
  state w0 = state w /\ trace w0 = trace w.
Proof.
  destruct e; simpl; try (intros [= <- <-]; auto).
  - destruct (existsb _ _); [|discriminate]. intros [= <- <-]. auto.
  - destruct (_ || _); [|discriminate]. intros [= <- <-]. auto.
  - destruct (takeTask i w) as [[t w']|] eqn:E; [|discriminate].
    destruct (wellTyped _ _); [|discriminate].
    intros [= <- <-]. apply takeTask_inv in E. tauto.
Qed.

Lemma runHandler_local m : local m -> local (runHandler m).
Proof. intros H. unfold runHandler. repeat local_step; assumption. Qed.

(** Every event only adds to the trace. *)
Lemma step_trace e w w' :
  step toLowerCase e w = Some w' -> exists added, trace w' = trace w ++ added.
Proof.
  unfold step. destruct (dispatch toLowerCase e w) as [[m w0]|] eqn:E;
    [|discriminate].
  intros [= <-].
  destruct (dispatch_world _ _ _ _ E) as [_ Ht]. rewrite <- Ht.
  apply local_trace. apply local_bind.
  - apply runHandler_local. eapply dispatch_local; eassumption.
  - intros _. apply renderEffects_local.
Qed.

Lemma run_trace es w w' :
  run toLowerCase es w = Some w' -> exists added, trace w' = trace w ++ added.
Proof.
  revert w; induction es as [|e es IH]; intros w; simpl.
  - intros [= <-]. exists []. now rewrite app_nil_r.
  - destruct (step toLowerCase e w) as [w1|] eqn:E; [|discriminate].
    intros H. apply IH in H as [b Hb]. apply step_trace in E as [a Ha].
    exists (a ++ b). now rewrite Hb, Ha, app_assoc.
Qed.

(** What an event does to the state and to the pending tasks does not
    depend on the trace. *)
Lemma dispatch_sameButTrace e w1 w2 :
  sameButTrace w1 w2 ->
  match dispatch toLowerCase e w1, dispatch toLowerCase e w2 with
  | Some (m1, a), Some (m2, b) => m1 = m2 /\ sameButTrace a b
  | None, None => True
  | _, _ => False
  end.
Proof.
  intros [Hs Hp]. destruct e; simpl; rewrite <- ?Hs;
    try (split; [reflexivity | now split]).
  - destruct (existsb _ _); [split; [reflexivity | now split] | exact I].
  - destruct (_ || _); [split; [reflexivity | now split] | exact I].
  - unfold takeTask. rewrite <- Hp.
    destruct (nth_error (pending w1) i) as [t|]; [|exact I].
    destruct (wellTyped _ _); [|exact I].
    split; [reflexivity | now split].
Qed.

Lemma step_sameButTrace e w1 w2 :
  sameButTrace w1 w2 ->
  match step toLowerCase e w1, step toLowerCase e w2 with
  | Some a, Some b => sameButTrace a b
  | None, None => True
  | _, _ => False
  end.
Proof.
  intros H. pose proof (dispatch_sameButTrace e _ _ H) as Hd.
  unfold step.
  destruct (dispatch toLowerCase e w1) as [[m1 a]|] eqn:E1;
    destruct (dispatch toLowerCase e w2) as [[m2 b]|]; try tauto.
  destruct Hd as [<- Hab]. destruct H as [Hs _]. rewrite <- Hs.
  apply local_sameButTrace; [|exact Hab].
  apply local_bind.
  - apply runHandler_local. eapply dispatch_local; eassumption.
  - intros _. apply renderEffects_local.
Qed.

Lemma run_sameButTrace es w1 w2 :
  sameButTrace w1 w2 ->
  match run toLowerCase es w1, run toLowerCase es w2 with
  | Some a, Some b => sameButTrace a b
  | None, None => True
  | _, _ => False
  end.
Proof.
  revert w1 w2; induction es as [|e es IH]; intros w1 w2 H; simpl; [exact H|].
  pose proof (step_sameButTrace e _ _ H) as Hs.
  destruct (step toLowerCase e w1), (step toLowerCase e w2); try tauto.
  now apply IH.
Qed.

(** *** Properties of the state that events keep *)

Lemma renderEffects_keeps (P : State -> Prop) before :
  (forall v s, P s -> P (applyUpdate (setCurrentPage v) s)) ->
  keeps P (renderEffects toLowerCase before).
Proof.
  intros HP. unfold renderEffects.
  repeat keeps_step; apply keeps_set; apply HP.
Qed.

Lemma step_keeps (P : State -> Prop) e w w' :
  (forall v s, P s -> P (applyUpdate (setCurrentPage v) s)) ->
  (forall m w0, dispatch toLowerCase e w = Some (m, w0) -> keeps P m) ->
  P (state w) -> step toLowerCase e w = Some w' -> P (state w').
Proof.
  intros HP Hm H. unfold step.
  destruct (dispatch toLowerCase e w) as [[m w0]|] eqn:E; [|discriminate].
  intros [= <-].
  destruct (dispatch_world _ _ _ _ E) as [Hs _]. rewrite <- Hs in H.
  revert H. apply keeps_bind.
  - unfold runHandler. apply keeps_try_catch; [exact (Hm m w0 eq_refl)|].
    intros e'. apply keeps_emit.
  - intros _. now apply renderEffects_keeps.
Qed.

End Session.

(** ** Selection *)

Lemma includesId_In ids id : includesId ids id = true <-> In id ids.
Proof.
  unfold includesId. rewrite existsb_exists. split.
  - intros [x [Hx E]]. apply Z.eqb_eq in E. now subst.
  - intros H. exists id. split; [exact H | apply Z.eqb_refl].
Qed.

Lemma arrayFromSet_fold_NoDup xs acc :
  NoDup acc ->
  NoDup (fold_left (fun acc x => if includesId acc x then acc else acc ++ [x])
                   xs acc).
Proof.
  revert acc; induction xs as [|x xs IH]; intros acc H; simpl; [exact H|].
  apply IH. destruct (includesId acc x) eqn:E; [exact H|].
  apply NoDup_app; [exact H | repeat constructor; simpl; tauto |].
  intros y Hy [<- | []]. apply includesId_In in Hy. congruence.
Qed.

Lemma arrayFromSet_NoDup xs : NoDup (arrayFromSet xs).
Proof. apply arrayFromSet_fold_NoDup. constructor. Qed.

Lemma handleSelectAll_update_NoDup checked ids prev :
  NoDup prev -> NoDup (handleSelectAll_update checked ids prev).
Proof.
  intros H. unfold handleSelectAll_update. destruct ids; [exact H|].
  destruct checked; [apply arrayFromSet_NoDup | now apply NoDup_filter].
Qed.

Lemma toggleSelect_update_NoDup id selected :
  NoDup selected -> NoDup (toggleSelect_update id selected).
Proof.
  intros H. unfold toggleSelect_update.
  destruct (includesId selected id) eqn:E; [now apply NoDup_filter|].
  apply NoDup_app; [exact H | repeat constructor; simpl; tauto |].
  intros y Hy [<- | []]. apply includesId_In in Hy. congruence.
Qed.

Section SelectionEvents.

Variable toLowerCase : jsstring -> jsstring.

Ltac keeps_selection :=
  repeat keeps_step;
  try (apply keeps_set; intros ? ?; rewrite selectedIds_applyUpdate; simpl;
       first [assumption | constructor]).

Lemma resume_keeps_NoDup k r :
  keeps (fun s => NoDup (selectedIds s)) (resume toLowerCase k r).
Proof.
  destruct k; simpl;
    unfold loadEmails_resumed, handleBatchImport_resumed,
      loadMailViewerRecords_resumed, handleOpenMailbox_resumed,
      handleDelete_resumed, handleBatchDelete_resumed, handleBatchDelete_next,
      loadEmails, loadMailViewerRecords;
    keeps_selection.
Qed.

Lemma dispatch_keeps_NoDup e w m w0 :
  dispatch toLowerCase e w = Some (m, w0) ->
  keeps (fun s => NoDup (selectedIds s)) m.
Proof.
  destruct e; simpl;
    try (intros [= <- <-];
         unfold handleOpenMailbox, handleCloseMailbox, handleViewMailDetail,
           handleDelete, handleBatchDelete, handleBatchDelete_next,
           handleBatchImport, loadEmails;
         keeps_selection; fail).
  - intros [= <- <-]. unfold handleSelectAll.
    destruct (pageEmailIds toLowerCase (state w)) eqn:E; [apply keeps_ret|].
    intros x H; simpl. rewrite selectedIds_applyUpdate.
    exact (handleSelectAll_update_NoDup checked (z :: l) _ H).
  - intros [= <- <-]. intros x H; simpl. rewrite selectedIds_applyUpdate.
    exact (toggleSelect_update_NoDup id _ H).
  - destruct (existsb _ _); [|discriminate]. intros [= <- <-]. keeps_selection.
  - destruct (_ || _); [|discriminate]. intros [= <- <-]. keeps_selection.
  - destruct (takeTask i w) as [[t w']|]; [|discriminate].
    destruct (wellTyped _ _); [|discriminate].
    intros [= <- <-]. apply resume_keeps_NoDup.
Qed.

Lemma step_NoDup e w w' :
  NoDup (selectedIds (state w)) -> step toLowerCase e w = Some w' ->
  NoDup (selectedIds (state w')).
Proof.
  apply (step_keeps toLowerCase (fun s => NoDup (selectedIds s))).
  - intros v s H. now rewrite selectedIds_applyUpdate.
  - intros m w0. apply dispatch_keeps_NoDup.
Qed.

Lemma run_NoDup es w w' :
  NoDup (selectedIds (state w)) -> run toLowerCase es w = Some w' ->
  NoDup (selectedIds (state w')).
Proof.
  revert w; induction es as [|e es IH]; intros w H; simpl.
  - now intros [= <-].
  - destruct (step toLowerCase e w) as [w1|] eqn:E; [|discriminate].
    apply IH. eapply step_NoDup; eassumption.
Qed.

(** C10. The selection never holds an id twice: toggling an id, selecting
    all ids of the page, deselecting them and the clear after a batch delete
    each give a duplicate-free list from a duplicate-free list; so does every
    event of the component, and so the selection is duplicate-free in every
    world reached from the first render, where it is empty. *)
Theorem selectedIds_never_duplicated :
  (forall id prev, NoDup prev -> NoDup (toggleSelect_update id prev))
  /\ (forall ids prev, NoDup prev -> NoDup (handleSelectAll_update true ids prev))
  /\ (forall ids prev, NoDup prev -> NoDup (handleSelectAll_update false ids prev))
  /\ (forall r w, selectedIds (state (snd (handleBatchDelete_resumed [] r w))) = [])
  /\ (forall e w w',
        NoDup (selectedIds (state w)) -> step toLowerCase e w = Some w' ->
        NoDup (selectedIds (state w')))
  /\ selectedIds (state mount) = []
  /\ (forall es w, run toLowerCase es mount = Some w ->
                   NoDup (selectedIds (state w))).
Proof.
  split; [|split; [|split; [|split; [|split; [|split]]]]].
  - intros; now apply toggleSelect_update_NoDup.
  - intros; now apply handleSelectAll_update_NoDup.
  - intros; now apply handleSelectAll_update_NoDup.
  - intros [v|e] w; simpl; now rewrite !selectedIds_applyUpdate.
  - apply step_NoDup.
  - reflexivity.
  - intros es w. apply run_NoDup. constructor.
Qed.

(** The selection is left as it is by page navigation, by a change of the
    search query or of the page size, by the other events outside the
    selection controls, and by [handleDelete] with everything it starts. *)
Lemma step_leaves_selection e w w' :
  leavesSelection e w -> step toLowerCase e w = Some w' ->
  selectedIds (state w') = selectedIds (state w).
Proof.
  intros Hl. remember (selectedIds (state w)) as sel eqn:Hsel.
  symmetry in Hsel. revert Hsel.
  apply (step_keeps toLowerCase (fun s => selectedIds s = sel)).
  - intros v s H. now rewrite selectedIds_applyUpdate.
  - intros m w0. destruct e; simpl in *; try contradiction;
      try (intros [= <- <-];
           unfold handleOpenMailbox, handleCloseMailbox, handleViewMailDetail,
             handleDelete, handleBatchDelete, handleBatchDelete_next,
             handleBatchImport, loadEmails;
           keeps_selection; fail).
    + destruct (existsb _ _); [|discriminate]. intros [= <- <-]. keeps_selection.
    + destruct (_ || _); [|discriminate]. intros [= <- <-]. keeps_selection.
    + unfold takeTask. destruct (nth_error (pending w) i) as [t|]; [|discriminate].
      destruct (wellTyped _ _); [|discriminate]. intros [= <- <-].
      destruct (cont t); try contradiction; simpl;
        unfold loadEmails_resumed, handleBatchImport_resumed,
          loadMailViewerRecords_resumed, handleOpenMailbox_resumed,
          handleDelete_resumed, loadEmails, loadMailViewerRecords;
        keeps_selection.
Qed.

End SelectionEvents.

(** ** Mailbox session *)

Section Mailbox.

Variable toLowerCase : jsstring -> jsstring.

Lemma step_eq e w m w0 :
  dispatch toLowerCase e w = Some (m, w0) ->
  step toLowerCase e w
  = Some (snd (renderEffects toLowerCase (state w) (snd (runHandler m w0)))).
Proof.
  intros H. unfold step. rewrite H. f_equal.
  unfold bind, runHandler, try_catch, emit.
  destruct (m w0) as [[[]|e'] x]; reflexivity.
Qed.

Lemma dispatch_settle i r w t :
  nth_error (pending w) i = Some t -> wellTyped (command t) r = true ->
  dispatch toLowerCase (Settle i r) w
  = Some (resume toLowerCase (cont t) r,
          {| state := state w; pending := without i (pending w);
             trace := trace w |}).
Proof.
  intros Ht Hr. simpl. unfold takeTask. now rewrite Ht, Hr.
Qed.

(** The page effects leave the pending tasks alone and add only writes of
    the current page to the trace. *)
Lemma renderEffects_post before w :
  exists tail,
    trace (snd (renderEffects toLowerCase before w)) = trace w ++ tail
    /\ Forall isPageSet tail
    /\ pending (snd (renderEffects toLowerCase before w)) = pending w.
Proof.
  unfold renderEffects, bind, get, set, ret; simpl.
  destruct (_ && _); simpl;
    destruct (totalPages toLowerCase (state w) <? currentPage (state w)); simpl;
    eexists; (split; [|split; [|reflexivity]]);
    try (rewrite <- app_assoc; simpl; reflexivity);
    try (symmetry; apply app_nil_r);
    repeat constructor; eexists; reflexivity.
Qed.


Lemma isPageSet_not_rejection tail :
  Forall isPageSet tail -> Forall (fun e => ~ isUnhandledRejection e) tail.
Proof.
  apply Forall_impl. intros e [v ->]. simpl. tauto.
Qed.

(** What the viewer shows is not touched by the page effects. *)
Lemma renderEffects_viewer before w :
  let w' := snd (renderEffects toLowerCase before w) in
  mailViewerEmail (state w') = mailViewerEmail (state w)
  /\ mailViewerFolder (state w') = mailViewerFolder (state w)
  /\ mailViewerRecords (state w') = mailViewerRecords (state w)
  /\ mailViewerLoading (state w') = mailViewerLoading (state w)
  /\ mailViewerOpen (state w') = mailViewerOpen (state w).
Proof.
  remember (state w) as s0 eqn:E. symmetry in E.
  pose (P := fun s =>
    mailViewerEmail s = mailViewerEmail s0
    /\ mailViewerFolder s = mailViewerFolder s0
    /\ mailViewerRecords s = mailViewerRecords s0
    /\ mailViewerLoading s = mailViewerLoading s0
    /\ mailViewerOpen s = mailViewerOpen s0).
  assert (H : keeps P (renderEffects toLowerCase before)).
  { apply renderEffects_keeps. intros v s. unfold P.
    now rewrite mailViewerEmail_applyUpdate, mailViewerFolder_applyUpdate,
      mailViewerRecords_applyUpdate, mailViewerLoading_applyUpdate,
      mailViewerOpen_applyUpdate. }
  apply (H w). unfold P. now rewrite E.
Qed.

(** Settling the load of the viewer: the records of the response, filtered
    by the folder the load was started with, or none on failure, are
    written; loading ends; the rejection is logged and goes no further. *)
Lemma settle_load i w emailId wanted r :
  nth_error (pending w) i = Some (loadTask emailId wanted) ->
  wellTyped (get_mail_records emailId) r = true ->
  exists w' tail,
    step toLowerCase (Settle i r) w = Some w'
    /\ mailViewerLoading (state w') = false
    /\ mailViewerRecords (state w')
       = match r with
         | Resolved v =>
             filterMailRecordsByFolder toLowerCase (asMailRecords v) wanted
         | Rejected _ => []
         end
    /\ mailViewerEmail (state w') = mailViewerEmail (state w)
    /\ mailViewerFolder (state w') = mailViewerFolder (state w)
    /\ pending w' = without i (pending w)
    /\ trace w'
       = trace w
         ++ match r with
            | Resolved v =>
                [ESet (setMailViewerRecords
                         (filterMailRecordsByFolder toLowerCase
                            (asMailRecords v) wanted))]
            | Rejected error =>
                [EConsoleError error; ESet (setMailViewerRecords [])]
            end
         ++ [ESet (setMailViewerLoading false)] ++ tail
    /\ Forall isPageSet tail.
Proof.
  intros Ht Hr.
  rewrite (step_eq _ _ _ _ (dispatch_settle i r w _ Ht Hr)).
  match goal with |- context [renderEffects _ ?b ?x] =>
    destruct (renderEffects_post b x) as [tail [Htr [Htail Hp]]];
    destruct (renderEffects_viewer b x) as [He [Hf [Hrec [Hl _]]]]
  end.
  eexists; exists tail. split; [reflexivity|].
  rewrite Hl, Hrec, He, Hf, Hp, Htr.
  destruct r as [v|error]; simpl;
    rewrite ?mailViewerLoading_applyUpdate, ?mailViewerRecords_applyUpdate,
      ?mailViewerEmail_applyUpdate, ?mailViewerFolder_applyUpdate;
    rewrite <- ?app_assoc; simpl; repeat split; assumption.
Qed.

(** C4. When the load of the viewer settles, resolved or rejected, loading
    is false afterwards; when it is rejected the record list is empty; and
    the trace gains no unhandled rejection. *)
Theorem load_failure_is_contained w i emailId wanted r :
  nth_error (pending w) i = Some (loadTask emailId wanted) ->
  wellTyped (get_mail_records emailId) r = true ->
  exists w' added,
    step toLowerCase (Settle i r) w = Some w'
    /\ mailViewerLoading (state w') = false
    /\ (forall error, r = Rejected error -> mailViewerRecords (state w') = [])
    /\ trace w' = trace w ++ added
    /\ Forall (fun e => ~ isUnhandledRejection e) added.
Proof.
  intros Ht Hr.
  destruct (settle_load i w emailId wanted r Ht Hr)
    as [w' [tail [Hs [Hl [Hrec [_ [_ [_ [Htr Htail]]]]]]]]].
  exists w'. eexists. split; [exact Hs|]. split; [exact Hl|].
  split; [|split; [exact Htr|]].
  - intros error ->. exact Hrec.
  - apply Forall_app; split; [|apply Forall_app; split].
    + destruct r; repeat constructor; simpl; tauto.
    + repeat constructor; simpl; tauto.
    + now apply isPageSet_not_rejection.
Qed.

(** Settling the sync of [handleOpenMailbox], either way. *)
Lemma settle_sync i w account wanted r :
  nth_error (pending w) i = Some (syncTask account wanted) ->
  wellTyped (check_outlook_email (account_id account) wanted) r = true ->
  step toLowerCase (Settle i r) w
  = Some (extend
            {| state := applyUpdate (setMailViewerLoading true) (state w);
               pending := without i (pending w)
                          ++ [loadTask (account_id account) wanted];
               trace := trace w ++ syncLog r ++ loadEffects account |}
            (snd (renderEffects toLowerCase (state w)
                    (fresh (applyUpdate (setMailViewerLoading true) (state w)))))).
Proof.
  intros Ht Hr.
  rewrite (step_eq _ _ _ _ (dispatch_settle i r w _ Ht Hr)).
  f_equal. rewrite renderEffects_local.
  destruct r as [v|error]; simpl; unfold extend; simpl;
    rewrite <- ?app_assoc; reflexivity.
Qed.

Lemma renderEffects_fresh before s :
  pending (snd (renderEffects toLowerCase before (fresh s))) = []
  /\ Forall isPageSet (trace (snd (renderEffects toLowerCase before (fresh s)))).
Proof.
  destruct (renderEffects_post before (fresh s)) as [tail [Htr [Htail Hp]]].
  split; [exact Hp|]. now rewrite Htr.
Qed.

(** C5. A sync that fails does not stop the open: settling the sync with a
    rejection leaves the same component state and the same pending tasks as
    settling it with success, the load of the cached records is issued in
    both cases, the only difference is the logged error, and from there on
    the two sessions go through the same states; settling the load ends
    loading in both. *)
Theorem sync_failure_is_not_fatal w i account wanted error v :
  nth_error (pending w) i = Some (syncTask account wanted) ->
  exists w1 w2 tail,
    step toLowerCase (Settle i (Rejected error)) w = Some w1
    /\ step toLowerCase (Settle i (Resolved v)) w = Some w2
    /\ state w1 = state w2
    /\ pending w1 = pending w2
    /\ pending w1 = without i (pending w) ++ [loadTask (account_id account) wanted]
    /\ trace w2 = trace w ++ loadEffects account ++ tail
    /\ trace w1 = trace w ++ [EConsoleError error] ++ loadEffects account ++ tail
    /\ Forall isPageSet tail
    /\ (forall es,
          match run toLowerCase es w1, run toLowerCase es w2 with
          | Some a, Some b => state a = state b /\ pending a = pending b
          | None, None => True
          | _, _ => False
          end)
    /\ (forall j r,
          nth_error (pending w1) j = Some (loadTask (account_id account) wanted) ->
          wellTyped (get_mail_records (account_id account)) r = true ->
          exists a b,
            step toLowerCase (Settle j r) w1 = Some a
            /\ step toLowerCase (Settle j r) w2 = Some b
            /\ state a = state b
            /\ mailViewerLoading (state a) = false).
Proof.
  intros Ht.
  pose proof (settle_sync i w account wanted (Rejected error) Ht eq_refl) as H1.
  pose proof (settle_sync i w account wanted (Resolved v) Ht eq_refl) as H2.
  match type of H1 with _ = Some ?x => set (w1 := x) in * end.
  match type of H2 with _ = Some ?x => set (w2 := x) in * end.
  destruct (renderEffects_fresh (state w)
              (applyUpdate (setMailViewerLoading true) (state w))) as [Hp Htail].
  assert (Hsame : sameButTrace w1 w2) by (split; reflexivity).
  exists w1, w2. eexists.
  split; [exact H1|]. split; [exact H2|].
  split; [reflexivity|]. split; [reflexivity|].
  split; [subst w1; simpl; now rewrite Hp, app_nil_r|].
  split; [subst w2; simpl; rewrite <- !app_assoc; reflexivity|].
  split; [subst w1; simpl; rewrite <- !app_assoc; reflexivity|].
  split; [exact Htail|]. split.
  - intros es. apply run_sameButTrace. exact Hsame.
  - intros j r Hj Hr.
    destruct (settle_load j w1 _ _ r Hj Hr) as [a [_ [Ha [Hl _]]]].
    pose proof (step_sameButTrace toLowerCase (Settle j r) _ _ Hsame) as Hb.
    rewrite Ha in Hb.
    destruct (step toLowerCase (Settle j r) w2) as [b|]; [|contradiction].
    exists a, b. destruct Hb as [Hb _]. auto.
Qed.

Lemma run_cons e es w :
  run toLowerCase (e :: es) w
  = match step toLowerCase e w with
    | None => None
    | Some w' => run toLowerCase es w'
    end.
Proof. reflexivity. Qed.


(** C6. Opening a mailbox: the state in which the open handler suspends,
    before anything pending has settled, has the records cleared, loading
    set, and the account and folder recorded; in the trace the writes come
    first and the sync call after them; and the load call is issued only
    when that sync settles, after the sync call, whatever happens in
    between. *)
Theorem open_clears_then_syncs_then_loads w account wanted :
  exists w1 tail,
    step toLowerCase (Click_openMailbox account wanted) w = Some w1
    /\ mailViewerRecords (state w1) = []
    /\ mailViewerLoading (state w1) = true
    /\ mailViewerEmail (state w1) = Some account
    /\ mailViewerFolder (state w1) = wanted
    /\ pending w1 = pending w ++ [syncTask account wanted]
    /\ trace w1 = trace w ++ openEffects account wanted ++ tail
    /\ Forall isPageSet tail
    /\ (forall es w2 j r,
          run toLowerCase es w1 = Some w2 ->
          nth_error (pending w2) j = Some (syncTask account wanted) ->
          wellTyped (check_outlook_email (account_id account) wanted) r = true ->
          exists w3 between tail',
            step toLowerCase (Settle j r) w2 = Some w3
            /\ trace w3
               = trace w ++ openEffects account wanted ++ between
                 ++ syncLog r ++ loadEffects account ++ tail'
            /\ Forall (fun e => ~ isInvoke e) (syncLog r)
            /\ Forall isPageSet tail').
Proof.
  assert (Hd : dispatch toLowerCase (Click_openMailbox account wanted) w
               = Some (handleOpenMailbox account wanted, w)) by reflexivity.
  pose proof (step_eq _ _ _ _ Hd) as Hs.
  match type of Hs with context [renderEffects _ ?b ?x] =>
    destruct (renderEffects_post b x) as [tail [Htr [Htail Hp]]];
    destruct (renderEffects_viewer b x) as [He [Hf [Hrec [Hl _]]]]
  end.
  remember (snd (runHandler (handleOpenMailbox account wanted) w)) as x eqn:Ex.
  assert (Hx : trace x = trace w ++ openEffects account wanted
               /\ pending x = pending w ++ [syncTask account wanted]
               /\ mailViewerRecords (state x) = []
               /\ mailViewerLoading (state x) = true
               /\ mailViewerEmail (state x) = Some account
               /\ mailViewerFolder (state x) = wanted).
  { subst x. simpl.
    rewrite !mailViewerRecords_applyUpdate, !mailViewerLoading_applyUpdate,
      !mailViewerEmail_applyUpdate, !mailViewerFolder_applyUpdate.
    rewrite <- !app_assoc. repeat split; reflexivity. }
  destruct Hx as [Hxt [Hxp [Hxr [Hxl [Hxe Hxf]]]]].
  remember (snd (renderEffects toLowerCase (state w) x)) as w1 eqn:Ew1.
  exists w1, tail. split; [exact Hs|].
  rewrite Hrec, Hl, He, Hf, Hp, Htr, Hxt, <- app_assoc.
  repeat (split; [assumption || reflexivity|]).
  intros es w2 j r Hrun Hj Hr.
  apply run_trace in Hrun as [mid Hmid].
  rewrite (settle_sync j w2 account wanted r Hj Hr).
  match goal with |- context [renderEffects _ ?b (fresh ?y)] =>
    destruct (renderEffects_fresh b y) as [_ Htail']
  end.
  eexists; exists (tail ++ mid); eexists.
  split; [reflexivity|]. split; [|split; [|exact Htail']].
  - simpl. rewrite Hmid, Htr, Hxt. rewrite <- !app_assoc. reflexivity.
  - destruct r; repeat constructor; simpl; tauto.
Qed.

(** *** Two opens in flight *)





End Mailbox.

(** ** Concrete runs *)



(** C4 at the world where the load of account 3 is pending and is
    rejected. *)
Lemma load_failure_witness :
  exists w' added,
    step toLowerCaseAscii (Settle 0 (Rejected (jsstr "database is locked")))
         (worldAfter loadPending) = Some w'
    /\ mailViewerLoading (state w') = false
    /\ (forall error, Rejected (jsstr "database is locked") = Rejected error ->
                      mailViewerRecords (state w') = [])
    /\ trace w' = trace (worldAfter loadPending) ++ added
    /\ Forall (fun e => ~ isUnhandledRejection e) added.
Proof.
  apply (load_failure_is_contained toLowerCaseAscii (worldAfter loadPending) 0
           3 INBOX (Rejected (jsstr "database is locked"))).
  - vm_compute. reflexivity.
  - reflexivity.
Defined.

(** C5 at the world where the sync of account 3 is pending. *)
Lemma sync_failure_witness :
  exists w1 w2 tail,
    step toLowerCaseAscii (Settle 0 (Rejected (jsstr "network")))
         (worldAfter syncPending) = Some w1
    /\ step toLowerCaseAscii (Settle 0 (Resolved RNone))
            (worldAfter syncPending) = Some w2
    /\ state w1 = state w2
    /\ pending w1 = pending w2
    /\ pending w1 = without 0 (pending (worldAfter syncPending))
                    ++ [loadTask (account_id account3) INBOX]
    /\ trace w2 = trace (worldAfter syncPending) ++ loadEffects account3 ++ tail
    /\ trace w1 = trace (worldAfter syncPending)
                  ++ [EConsoleError (jsstr "network")]
                  ++ loadEffects account3 ++ tail
    /\ Forall isPageSet tail
    /\ (forall es,
          match run toLowerCaseAscii es w1, run toLowerCaseAscii es w2 with
          | Some a, Some b => state a = state b /\ pending a = pending b
          | None, None => True
          | _, _ => False
          end)
    /\ (forall j r,
          nth_error (pending w1) j = Some (loadTask (account_id account3) INBOX) ->
          wellTyped (get_mail_records (account_id account3)) r = true ->
          exists a b,
            step toLowerCaseAscii (Settle j r) w1 = Some a
            /\ step toLowerCaseAscii (Settle j r) w2 = Some b
            /\ state a = state b
            /\ mailViewerLoading (state a) = false).
Proof.
  apply (sync_failure_is_not_fatal toLowerCaseAscii (worldAfter syncPending) 0
           account3 INBOX (jsstr "network") RNone).
  vm_compute. reflexivity.
Defined.

(** C6 at the open of account 3 after the account list has arrived, its
    sync being rejected. *)
Lemma open_order_witness :
  exists w3 between tail',
    step toLowerCaseAscii (Settle 0 (Rejected (jsstr "network")))
         (worldAfter syncPending) = Some w3
    /\ trace w3
       = trace (worldAfter [Settle 0 (Resolved (REmails [account3; account7]))])
         ++ openEffects account3 INBOX ++ between
         ++ syncLog (Rejected (jsstr "network")) ++ loadEffects account3 ++ tail'
    /\ Forall (fun e => ~ isInvoke e) (syncLog (Rejected (jsstr "network")))
    /\ Forall isPageSet tail'.
Proof.
  destruct (open_clears_then_syncs_then_loads toLowerCaseAscii
              (worldAfter [Settle 0 (Resolved (REmails [account3; account7]))])
              account3 INBOX)
    as [w1 [tail [Hs [_ [_ [_ [_ [_ [_ [_ H]]]]]]]]]].
  assert (E : Some w1 = Some (worldAfter syncPending))
    by (rewrite <- Hs; vm_compute; reflexivity).
  injection E as ->.
  apply (H [] (worldAfter syncPending) 0%nat (Rejected (jsstr "network")));
    reflexivity.
Defined.

(** C7 with ASCII lower-casing. *)
Lemma classifier_witness :
  toLowerCaseAscii [] = []
  /\ normalizeFolder toLowerCaseAscii (Some (jsstr "  Junk Email ")) = JUNK
  /\ normalizeFolder toLowerCaseAscii (Some (jsstr "Inbox")) = INBOX.
Proof.
  split; [reflexivity|]. split.
  - apply (proj1 (proj2 (normalizeFolder_total_classifier toLowerCaseAscii
                           eq_refl (Some (jsstr "  Junk Email "))))).
    exists (jsstr "  Junk Email "). split; [reflexivity|].
    left. exists [], (jsstr " email"). reflexivity.
  - reflexivity.
Defined.

(** C3 at 10 pages, page 5. *)
Lemma page_window_witness :
  1 <= 10 /\ 1 <= 5 <= 10
  /\ buildPageItems 10 5
     = [Page 1; Ellipsis; Page 4; Page 5; Page 6; Ellipsis; Page 10]
  /\ pageWindow 10 5 (buildPageItems 10 5).
Proof.
  assert (Ht : 1 <= 10) by lia. assert (Hc : 1 <= 5 <= 10) by lia.
  pose proof (buildPageItems_exact 10 5 Ht Hc) as H.
  split; [exact Ht|]. split; [exact Hc|]. split.
  - apply (proj1 (proj2 (proj2 (proj2 (proj2 H))))); lia.
  - apply (proj1 H). reflexivity.
Defined.

(** C10 at concrete selections and at the end of [deleteRun]. *)
Lemma selection_witness :
  NoDup (toggleSelect_update 7 [3])
  /\ NoDup (handleSelectAll_update true [3; 7; 9] [7; 3])
  /\ NoDup (selectedIds (state (worldAfter deleteRun))).
Proof.
  pose proof (selectedIds_never_duplicated toLowerCaseAscii)
    as [Htoggle [Hall [_ [_ [_ [_ Hrun]]]]]].
  assert (H3 : NoDup [3]) by (repeat constructor; simpl; tauto).
  assert (H73 : NoDup [7; 3])
    by (repeat constructor; simpl; intuition discriminate).
  split; [exact (Htoggle 7 [3] H3)|].
  split; [exact (Hall [3; 7; 9] [7; 3] H73)|].
  apply (Hrun deleteRun). vm_compute. reflexivity.
Defined.

(** ** Deleting and the selection *)

(** C2, at the failing input.  With accounts 3 and 7 selected, deleting
    account 3 with its own delete button removes it from the account list
    and leaves its id in the selection, which is still [3; 7] when every
    call has settled.  The batch delete button, in contrast, empties the
    selection. *)
Theorem handleDelete_leaves_deleted_id_selected :
  (exists w,
     run toLowerCaseAscii deleteRun mount = Some w
     /\ emails (state w) = [account7]
     /\ selectedIds (state w) = [3; 7]
     /\ includesId (selectedIds (state w)) 3 = true
     /\ pending w = [])
  /\ (exists w,
        run toLowerCaseAscii batchDeleteRun mount = Some w
        /\ emails (state w) = [account7]
        /\ selectedIds (state w) = []
        /\ pending w = []).
Proof.
  split; eexists; (split; [vm_compute; reflexivity|]); repeat split.
Qed.

(** ** Import *)

Section ImportCall.

Variable toLowerCase : jsstring -> jsstring.

Lemma renderEffects_separator before w :
  separator (state (snd (renderEffects toLowerCase before w)))
  = separator (state w).
Proof.
  remember (separator (state w)) as sep eqn:E. symmetry in E. revert E.
  apply (renderEffects_keeps toLowerCase (fun s => separator s = sep)).
  intros v s H. now rewrite separator_applyUpdate.
Qed.

(** C9, what the code does.  Whatever value the separator field holds, an
    import issues the call [import_emails] with the raw content as its only
    argument: the pending task and the component state after the import
    event are the same with the separator left alone and with the separator
    changed first, up to the separator field itself. *)
Theorem import_call_does_not_carry_separator w value content :
  exists w1 a b,
    step toLowerCase (Change_separator value) w = Some w1
    /\ separator (state w1) = value
    /\ pending w1 = pending w
    /\ step toLowerCase (Import content) w = Some a
    /\ step toLowerCase (Import content) w1 = Some b
    /\ pending a = pending w ++ [importTask content]
    /\ pending b = pending w ++ [importTask content]
    /\ separator (state b) = value.
Proof.
  assert (H1 : dispatch toLowerCase (Change_separator value) w
               = Some (set (setSeparator value), w)) by reflexivity.
  apply step_eq in H1.
  match type of H1 with _ = Some ?x => set (w1 := x) in * end.
  assert (Ha : dispatch toLowerCase (Import content) w
               = Some (handleBatchImport content, w)) by reflexivity.
  assert (Hb : dispatch toLowerCase (Import content) w1
               = Some (handleBatchImport content, w1)) by reflexivity.
  apply step_eq in Ha, Hb.
  assert (Hp1 : pending w1 = pending w).
  { subst w1.
    match goal with |- context [renderEffects _ ?b ?x] =>
      destruct (renderEffects_post toLowerCase b x) as [? [_ [_ ->]]]
    end. reflexivity. }
  exists w1. eexists. eexists.
  split; [exact H1|]. split.
  { subst w1. rewrite renderEffects_separator. simpl.
    now rewrite separator_applyUpdate. }
  split; [exact Hp1|].
  split; [exact Ha|]. split; [exact Hb|].
  split; [|split].
  - match goal with |- context [renderEffects _ ?b ?x] =>
      destruct (renderEffects_post toLowerCase b x) as [? [_ [_ ->]]]
    end. reflexivity.
  - match goal with |- context [renderEffects _ ?b ?x] =>
      destruct (renderEffects_post toLowerCase b x) as [? [_ [_ ->]]]
    end. simpl. now rewrite Hp1.
  - rewrite renderEffects_separator. simpl.
    rewrite !separator_applyUpdate. subst w1.
    rewrite renderEffects_separator. simpl.
    now rewrite separator_applyUpdate.
Qed.

End ImportCall.

(** The separator field set to a comma, a comma-separated line imported:
    the call that is issued carries the line and nothing else. *)
Example import_with_comma_separator :
  exists w,
    run toLowerCaseAscii
        [Settle 0 (Resolved (REmails []));
         Change_separator (jsstr ",");
         Import (jsstr "a@b.com,pw,cid,rt")] mount = Some w
    /\ separator (state w) = jsstr ","
    /\ pending w = [{| command := import_emails (jsstr "a@b.com,pw,cid,rt");
                       cont := K_handleBatchImport |}].
Proof. eexists. split; [vm_compute; reflexivity|]. split; reflexivity. Qed.

(** ** The toast of [About] *)

Module AboutFacts.

Import About.

Lemma showToast_tracked message duration s :
  tracked s -> tracked (showToast message duration s).
Proof.
  intros [Hn Href]. unfold showToast, tracked.
  destruct (toastTimerRef s) as [h|] eqn:Er; simpl.
  - destruct Href as [Hh [d Ht]]. rewrite Ht.
    replace (h =? 0) with false by (symmetry; apply Z.eqb_neq; lia). simpl.
    rewrite Z.eqb_refl. simpl.
    destruct (0 <? duration); simpl; [|auto].
    split; [lia|]. split; [lia|]. now eexists.
  - rewrite Href. destruct (0 <? duration); simpl; [|auto].
    split; [lia|]. split; [lia|]. now eexists.
Qed.

Lemma dismissToast_tracked s : tracked s -> tracked (dismissToast s).
Proof.
  intros [Hn Href]. unfold dismissToast, tracked.
  destruct (toastTimerRef s) as [h|] eqn:Er; simpl.
  - destruct Href as [Hh [d Ht]]. rewrite Ht.
    replace (h =? 0) with false by (symmetry; apply Z.eqb_neq; lia). simpl.
    rewrite Z.eqb_refl. simpl. auto.
  - auto.
Qed.

Lemma timerFires_tracked h s s' :
  tracked s -> timerFires h s = Some s' -> tracked s'.
Proof.
  intros [Hn Href]. unfold timerFires.
  destruct (toastTimerRef s) as [h0|] eqn:Er.
  - destruct Href as [Hh [d Ht]]. rewrite Ht. simpl.
    destruct (h0 =? h) eqn:E; simpl; [|discriminate].
    intros [= <-]. split; simpl; auto.
  - rewrite Href. simpl. discriminate.
Qed.

Lemma reachable_tracked s : reachable s -> tracked s.
Proof.
  induction 1.
  - split; simpl; [lia | reflexivity].
  - now apply showToast_tracked.
  - now apply dismissToast_tracked.
  - exact IHreachable.
  - eapply timerFires_tracked; eassumption.
Qed.

(** After a call of [showToast]: the slot and the timeouts. *)
Lemma showToast_post message duration s :
  tracked s ->
  let s' := showToast message duration s in
  toastMessage s' = Some message
  /\ toastId s' = toastId s + 1
  /\ timers s' = (if 0 <? duration
                  then [{| handle := nextHandle s; delay := duration |}]
                  else [])
  /\ toastTimerRef s' = (if 0 <? duration then Some (nextHandle s) else None).
Proof.
  intros [Hn Href]. unfold showToast.
  destruct (toastTimerRef s) as [h|] eqn:Er; simpl.
  - destruct Href as [Hh [d Ht]]. rewrite Ht.
    replace (h =? 0) with false by (symmetry; apply Z.eqb_neq; lia). simpl.
    rewrite Z.eqb_refl. simpl.
    destruct (0 <? duration); simpl; auto.
  - rewrite Href. destruct (0 <? duration); simpl; auto.
Qed.

(** C8. The toast has one slot.  From any state the component can be in,
    [showToast message duration] puts [message] in the slot, so no other
    message can be visible; none of the timeouts that were pending is
    pending afterwards; a positive duration leaves exactly one timeout, with
    that delay, and when that timeout fires it clears the slot, so that
    nothing is visible and nothing is pending any more, while no other
    timeout can fire; a duration of 0 leaves none, so no timeout can clear
    the message, which stays until [dismissToast].  Showing "X" for 2000 ms
    and then "Y" with duration 0 leaves "Y" visible and no timeout. *)
Theorem showToast_replaces_message_and_timer message duration s :
  reachable s ->
  let s' := showToast message duration s in
  toastMessage s' = Some message
  /\ (forall m, visibleToast s' = Some m -> m = message)
  /\ (message <> [] -> visibleToast s' = Some message)
  /\ (forall t, In t (timers s) -> ~ In t (timers s'))
  /\ (0 < duration ->
      timers s' = [{| handle := nextHandle s; delay := duration |}]
      /\ toastTimerRef s' = Some (nextHandle s)
      /\ (exists s'',
            timerFires (nextHandle s) s' = Some s''
            /\ toastMessage s'' = None
            /\ visibleToast s'' = None
            /\ updateInfo s'' = None
            /\ timers s'' = []
            /\ toastTimerRef s'' = None)
      /\ (forall h, h <> nextHandle s -> timerFires h s' = None))
  /\ (duration <= 0 ->
      timers s' = [] /\ toastTimerRef s' = None
      /\ (forall h, timerFires h s' = None)
      /\ toastMessage (dismissToast s') = None)
  /\ (let s2 := showToast (jsstr "Y") 0 (showToast (jsstr "X") 2000 s) in
      toastMessage s2 = Some (jsstr "Y")
      /\ visibleToast s2 = Some (jsstr "Y")
      /\ timers s2 = []
      /\ toastTimerRef s2 = None
      /\ (forall h, timerFires h s2 = None)).
Proof.
  intros Hr s'. pose proof (reachable_tracked s Hr) as Ht.
  destruct (showToast_post message duration s Ht) as [Hm [_ [Hts Href]]].
  fold s' in Hm, Hts, Href.
  split; [exact Hm|]. split; [|split; [|split; [|split; [|split]]]].
  - unfold visibleToast. rewrite Hm. destruct message; [discriminate|].
    now intros m [= <-].
  - unfold visibleToast. rewrite Hm. destruct message; [congruence|reflexivity].
  - intros t Hin. rewrite Hts. destruct Ht as [Hn Hh].
    destruct (toastTimerRef s) as [h|].
    + destruct Hh as [Hlt [d Htm]]. rewrite Htm in Hin.
      destruct Hin as [<- | []].
      destruct (0 <? duration); simpl; [|tauto].
      intros [E | []]. injection E as E _. lia.
    + rewrite Hh in Hin. destruct Hin.
  - intros Hd.
    assert (E : timers s' = [{| handle := nextHandle s; delay := duration |}]).
    { rewrite Hts.
      now replace (0 <? duration) with true by (symmetry; apply Z.ltb_lt; lia). }
    split; [exact E|]. split.
    { rewrite Href.
      now replace (0 <? duration) with true by (symmetry; apply Z.ltb_lt; lia). }
    split.
    + unfold timerFires. rewrite E. simpl. rewrite Z.eqb_refl. simpl.
      eexists. split; [reflexivity|]. repeat split.
    + intros h Hh. unfold timerFires. rewrite E. simpl.
      now replace (nextHandle s =? h) with false
        by (symmetry; apply Z.eqb_neq; congruence).
  - intros Hd. rewrite Href.
    assert (E : timers s' = []).
    { rewrite Hts.
      now replace (0 <? duration) with false by (symmetry; apply Z.ltb_ge; lia). }
    rewrite E.
    replace (0 <? duration) with false by (symmetry; apply Z.ltb_ge; lia).
    repeat split.
    + intros h. unfold timerFires. now rewrite E.
    + unfold dismissToast. destruct (truthy (toastTimerRef s')); reflexivity.
  - intros s2.
    assert (Ht1 : tracked (showToast (jsstr "X") 2000 s))
      by now apply showToast_tracked.
    destruct (showToast_post (jsstr "Y") 0 _ Ht1) as [Hm2 [_ [Hts2 Href2]]].
    fold s2 in Hm2, Hts2, Href2. simpl in Hts2, Href2.
    split; [exact Hm2|]. split; [unfold visibleToast; now rewrite Hm2|].
    split; [exact Hts2|]. split; [exact Href2|].
    intros h. unfold timerFires. now rewrite Hts2.
Qed.

(** C8 from the initial state. *)
Lemma showToast_witness :
  let s' := showToast (jsstr "X") 2000 initial in
  toastMessage s' = Some (jsstr "X")
  /\ timers s' = [{| handle := 1; delay := 2000 |}]
  /\ timers (showToast (jsstr "Y") 0 s') = []
  /\ visibleToast (showToast (jsstr "Y") 0 s') = Some (jsstr "Y")
  /\ (exists s'', timerFires 1 s' = Some s'' /\ visibleToast s'' = None)
  /\ timerFires 2 s' = None.
Proof.
  pose proof (showToast_replaces_message_and_timer (jsstr "X") 2000 initial
                reach_initial) as [Hm [_ [_ [_ [Hpos [_ Hxy]]]]]].
  assert (H2000 : 0 < 2000) by lia.
  destruct (Hpos H2000) as [Htm [_ [[s'' [Hf [_ [Hv'' _]]]] Hother]]].
  split; [exact Hm|]. split; [exact Htm|].
  destruct Hxy as [_ [Hv [Ht _]]].
  split; [exact Ht|]. split; [exact Hv|]. split.
  - exists s''. split; [exact Hf | exact Hv''].
  - apply Hother. discriminate.
Defined.

End AboutFacts.

(** * Further properties of the code *)

(** ** Selection as a set *)

Lemma arrayFromSet_fold_In xs acc x :
  In x (fold_left (fun acc x => if includesId acc x then acc else acc ++ [x])
                  xs acc)
  <-> In x acc \/ In x xs.
Proof.
  revert acc; induction xs as [|y xs IH]; intros acc; simpl; [tauto|].
  rewrite IH. destruct (includesId acc y) eqn:E.
  - apply includesId_In in E. intuition (subst; auto).
  - rewrite in_app_iff. simpl. tauto.
Qed.

Lemma arrayFromSet_fold_prefix xs acc :
  exists added,
    fold_left (fun acc x => if includesId acc x then acc else acc ++ [x]) xs acc
    = acc ++ added.
Proof.
  revert acc; induction xs as [|y xs IH]; intros acc; simpl.
  - exists []. now rewrite app_nil_r.
  - destruct (includesId acc y); [apply IH|].
    destruct (IH (acc ++ [y])) as [added H]. exists (y :: added).
    now rewrite H, <- app_assoc.
Qed.

Lemma arrayFromSet_NoDup_id xs : NoDup xs -> arrayFromSet xs = xs.
Proof.
  unfold arrayFromSet. intros H.
  enough (G : forall acc, NoDup (acc ++ xs) ->
            fold_left (fun acc x => if includesId acc x then acc else acc ++ [x])
                      xs acc = acc ++ xs) by (apply (G [] H)).
  clear H. induction xs as [|y xs IH]; intros acc H; simpl.
  - now rewrite app_nil_r.
  - destruct (includesId acc y) eqn:E.
    + apply includesId_In in E. apply NoDup_remove_2 in H.
      exfalso. apply H. apply in_or_app. now left.
    + rewrite IH; rewrite <- app_assoc; simpl; [reflexivity | exact H].
Qed.

Lemma handleSelectAll_update_true_In ids prev x :
  In x (handleSelectAll_update true ids prev) <-> In x prev \/ In x ids.
Proof.
  unfold handleSelectAll_update.
  destruct ids as [|i ids]; [simpl; tauto|].
  unfold arrayFromSet. rewrite arrayFromSet_fold_In, in_app_iff. simpl. tauto.
Qed.

Lemma handleSelectAll_update_false_In ids prev x :
  In x (handleSelectAll_update false ids prev) <-> In x prev /\ ~ In x ids.
Proof.
  unfold handleSelectAll_update.
  destruct ids as [|i ids]; [simpl; tauto|].
  rewrite filter_In, negb_true_iff.
  split.
  - intros [Hp Hn]. split; [exact Hp|]. intros Hin.
    apply includesId_In in Hin. congruence.
  - intros [Hp Hn]. split; [exact Hp|].
    destruct (includesId (i :: ids) x) eqn:E; [|reflexivity].
    apply includesId_In in E. contradiction.
Qed.

Lemma toggleSelect_update_In id selected x :
  In x (toggleSelect_update id selected)
  <-> (x = id /\ ~ In id selected) \/ (x <> id /\ In x selected).
Proof.
  unfold toggleSelect_update.
  destruct (includesId selected id) eqn:E.
  - apply includesId_In in E. rewrite filter_In, negb_true_iff, Z.eqb_neq.
    tauto.
  - assert (Hn : ~ In id selected)
      by (intros Hin; apply includesId_In in Hin; congruence).
    rewrite in_app_iff. simpl.
    destruct (Z.eq_dec x id) as [->|Hne]; [tauto|].
    intuition congruence.
Qed.

(** X1. The three selection updates act on the selection as on a set: select
    all adds the ids given, deselect all removes exactly them, a toggle flips
    the one id and leaves every other id as it was.  Select all keeps the
    ids already selected at their places, in front of the ones it adds. *)
Theorem selection_updates_as_sets :
  (forall ids prev x,
     In x (handleSelectAll_update true ids prev) <-> In x prev \/ In x ids)
  /\ (forall ids prev x,
        In x (handleSelectAll_update false ids prev)
        <-> In x prev /\ ~ In x ids)
  /\ (forall id selected x,
        In x (toggleSelect_update id selected)
        <-> (x = id /\ ~ In id selected) \/ (x <> id /\ In x selected))
  /\ (forall ids prev,
        NoDup prev ->
        exists added, handleSelectAll_update true ids prev = prev ++ added).
Proof.
  split; [|split; [|split]].
  - apply handleSelectAll_update_true_In.
  - apply handleSelectAll_update_false_In.
  - apply toggleSelect_update_In.
  - intros ids prev Hnd. unfold handleSelectAll_update.
    destruct ids as [|i ids]; [exists []; now rewrite app_nil_r|].
    unfold arrayFromSet. rewrite fold_left_app.
    fold (arrayFromSet prev). rewrite (arrayFromSet_NoDup_id prev Hnd).
    apply arrayFromSet_fold_prefix.
Qed.

(** ** Folders *)

Section Folders.

Variable toLowerCase : jsstring -> jsstring.

Lemma MailFolder_eqb_eq a b : MailFolder_eqb a b = true <-> a = b.
Proof. destruct a, b; simpl; split; congruence. Qed.

(** X2. The two folder views split the records of an account: every record
    is in the INBOX view or in the JUNK view and never in both, their sizes
    add up, and a record is in a view exactly when [normalizeFolder] of its
    folder is the tag of that view. *)
Theorem folder_views_partition (records : list MailRecord) :
  (forall r, In r records <->
             In r (filterMailRecordsByFolder toLowerCase records INBOX)
             \/ In r (filterMailRecordsByFolder toLowerCase records JUNK))
  /\ (forall r, ~ (In r (filterMailRecordsByFolder toLowerCase records INBOX)
                   /\ In r (filterMailRecordsByFolder toLowerCase records JUNK)))
  /\ (List.length (filterMailRecordsByFolder toLowerCase records INBOX)
      + List.length (filterMailRecordsByFolder toLowerCase records JUNK)
      = List.length records)%nat
  /\ (forall wanted r,
        In r (filterMailRecordsByFolder toLowerCase records wanted)
        <-> In r records /\ normalizeFolder toLowerCase (folder r) = wanted).
Proof.
  unfold filterMailRecordsByFolder.
  split; [|split; [|split]].
  - intros r. rewrite !filter_In, !MailFolder_eqb_eq.
    destruct (normalizeFolder toLowerCase (folder r)); intuition congruence.
  - intros r. rewrite !filter_In, !MailFolder_eqb_eq. intros [[_ H1] [_ H2]].
    congruence.
  - induction records as [|r rs IH]; simpl; [reflexivity|].
    destruct (normalizeFolder toLowerCase (folder r)); simpl; lia.
  - intros wanted r. now rewrite filter_In, MailFolder_eqb_eq.
Qed.

End Folders.

(** ** The page strip *)

Lemma pageNumbers_countUp from n :
  pageNumbers (countUp from n) = map (fun k => from + Z.of_nat k) (seq 0 n).
Proof.
  revert from; induction n as [|n IH]; intros from; [reflexivity|].
  simpl. rewrite IH. f_equal; [lia|].
  rewrite <- seq_shift, map_map. apply map_ext. intros k. lia.
Qed.

Lemma increasing_countUp from n : increasing (pageNumbers (countUp from n)).
Proof.
  revert from; induction n as [|n IH]; intros from; [exact I|].
  simpl. specialize (IH (from + 1)). destruct n as [|n]; [exact I|].
  simpl in *. split; [lia | exact IH].
Qed.

Lemma In_pageNumbers_countUp from n x :
  In x (pageNumbers (countUp from n)) <-> from <= x < from + Z.of_nat n.
Proof.
  rewrite pageNumbers_countUp, in_map_iff. split.
  - intros [k [<- Hk]]. apply in_seq in Hk. lia.
  - intros H. exists (Z.to_nat (x - from)). split; [lia|].
    apply in_seq. lia.
Qed.

(** X3. For a current page within the page count, the strip has at most 7
    entries, its page numbers are strictly increasing and lie between 1 and
    the page count, and the first page, the last page and the current page
    are always among them. *)
Theorem buildPageItems_shape (total current : Z) :
  1 <= total -> 1 <= current <= total ->
  (List.length (buildPageItems total current) <= 7)%nat
  /\ increasing (pageNumbers (buildPageItems total current))
  /\ (forall n, In n (pageNumbers (buildPageItems total current)) ->
                1 <= n <= total)
  /\ In 1 (pageNumbers (buildPageItems total current))
  /\ In total (pageNumbers (buildPageItems total current))
  /\ In current (pageNumbers (buildPageItems total current)).
Proof.
  intros Ht Hc. unfold buildPageItems.
  destruct (Z.leb_spec total 7).
  - unfold pagesUpTo. rewrite countUp_seq. simpl (Z.of_nat 0 + 1).
    rewrite countUp_length. split; [lia|].
    split; [apply increasing_countUp|].
    repeat split; try (apply In_pageNumbers_countUp; lia);
      apply In_pageNumbers_countUp in H0; lia.
  - destruct (Z.leb_spec current 3).
    + simpl. repeat split; try lia; intuition lia.
    + destruct (Z.geb_spec current (total - 2)).
      * simpl. repeat split; try lia; intuition lia.
      * simpl. repeat split; try lia; intuition lia.
Qed.

(** X3 at 12 pages, page 6. *)
Lemma buildPageItems_shape_witness :
  1 <= 12 /\ 1 <= 6 <= 12
  /\ In 6 (pageNumbers (buildPageItems 12 6))
  /\ (List.length (buildPageItems 12 6) <= 7)%nat.
Proof.
  assert (Ht : 1 <= 12) by lia. assert (Hc : 1 <= 6 <= 12) by lia.
  destruct (buildPageItems_shape 12 6 Ht Hc) as [Hl [_ [_ [_ [_ Hcur]]]]].
  auto.
Defined.

(** ** Pages *)

Lemma jsstring_eqb_refl s : jsstring_eqb s s = true.
Proof. induction s; simpl; [reflexivity|]. now rewrite N.eqb_refl. Qed.

Lemma jsstring_eqb_eq s t : jsstring_eqb s t = true <-> s = t.
Proof.
  revert t; induction s as [|c s IH]; intros [|d t]; simpl;
    try (split; [discriminate | discriminate]); [tauto|].
  rewrite andb_true_iff, N.eqb_eq, IH. split.
  - now intros [-> ->].
  - now intros [= -> ->].
Qed.

Lemma currentPage_applyUpdate u s :
  currentPage (applyUpdate u s)
  = match u with setCurrentPage v => v | _ => currentPage s end.
Proof. destruct s, u; reflexivity. Qed.

Lemma isPage_at_least_1 item total current :
  existsb (isPage item) (buildPageItems total current) = true -> 1 <= item.
Proof.
  rewrite existsb_exists. intros [p [Hin Hp]].
  destruct p as [n|]; [|discriminate]. simpl in Hp. apply Z.eqb_eq in Hp. subst n.
  unfold buildPageItems in Hin.
  destruct (Z.leb_spec total 7).
  - unfold pagesUpTo in Hin. apply in_map_iff in Hin as [k [[= <-] _]]. lia.
  - destruct (Z.leb_spec current 3).
    + simpl in Hin. intuition (try discriminate; try (injection H1 as <-; lia);
        try (injection H2 as <-; lia)).
    + destruct (Z.geb_spec current (total - 2)); simpl in Hin;
        intuition (try discriminate; try (injection H2 as <-; lia);
                   try (injection H3 as <-; lia)).
Qed.

Section Pages.

Variable toLowerCase : jsstring -> jsstring.

Lemma totalPages_at_least_1 s : 1 <= totalPages toLowerCase s.
Proof. unfold totalPages. lia. Qed.

Lemma totalPages_setCurrentPage v s :
  totalPages toLowerCase (applyUpdate (setCurrentPage v) s)
  = totalPages toLowerCase s.
Proof. destruct s; reflexivity. Qed.

Lemma pageEmailIds_setSelectedIds v s :
  pageEmailIds toLowerCase (applyUpdate (setSelectedIds v) s)
  = pageEmailIds toLowerCase s.
Proof. destruct s; reflexivity. Qed.

(** The page effects do nothing when the query and the page size are the
    ones of the previous render and the page is within the page count. *)
Lemma renderEffects_idle before w :
  searchQuery before = searchQuery (state w) ->
  pageSize before = pageSize (state w) ->
  currentPage (state w) <= totalPages toLowerCase (state w) ->
  renderEffects toLowerCase before w = (Normal tt, w).
Proof.
  intros Hq Hp Hc. unfold renderEffects, bind, get, ret.
  rewrite Hq, Hp, jsstring_eqb_refl, Z.eqb_refl. simpl.
  now replace (totalPages toLowerCase (state w) <? currentPage (state w))
    with false by (symmetry; apply Z.ltb_ge; lia).
Qed.

(** What the page effects leave: the page size as it was, the page clamped
    to the page count when it exceeded it, else reset to 1 when the query or
    the page size changed, else as it was. *)
Lemma renderEffects_page before w :
  let s' := state (snd (renderEffects toLowerCase before w)) in
  pageSize s' = pageSize (state w)
  /\ searchQuery s' = searchQuery (state w)
  /\ totalPages toLowerCase s' = totalPages toLowerCase (state w)
  /\ currentPage s'
     = (if totalPages toLowerCase (state w) <? currentPage (state w)
        then totalPages toLowerCase (state w)
        else if jsstring_eqb (searchQuery before) (searchQuery (state w))
                && (pageSize before =? pageSize (state w))
             then currentPage (state w)
             else 1).
Proof.
  unfold renderEffects, bind, get, set, ret; simpl.
  destruct (_ && _); simpl;
    destruct (totalPages toLowerCase (state w) <? currentPage (state w)); simpl;
    rewrite ?totalPages_setCurrentPage, ?pageSize_applyUpdate,
      ?searchQuery_applyUpdate, ?currentPage_applyUpdate; auto.
Qed.

Lemma renderEffects_pageInvariant before w :
  In (pageSize (state w)) [10; 20; 50] -> 1 <= currentPage (state w) ->
  pageInvariant toLowerCase (state (snd (renderEffects toLowerCase before w))).
Proof.
  intros Hs Hc.
  destruct (renderEffects_page before w) as [Hp [_ [Ht Hcp]]].
  unfold pageInvariant. rewrite Hp, Ht, Hcp.
  pose proof (totalPages_at_least_1 (state w)).
  split; [exact Hs|].
  destruct (Z.ltb_spec (totalPages toLowerCase (state w)) (currentPage (state w)));
    [lia|].
  destruct (_ && _); lia.
Qed.

Ltac keeps_pages :=
  repeat keeps_step;
  try (apply keeps_set; intros ? [? ?];
       rewrite pageSize_applyUpdate, currentPage_applyUpdate; simpl;
       split; assumption).

Lemma resume_keeps_pages k r :
  keeps (fun s => In (pageSize s) [10; 20; 50] /\ 1 <= currentPage s)
        (resume toLowerCase k r).
Proof.
  destruct k; simpl;
    unfold loadEmails_resumed, handleBatchImport_resumed,
      loadMailViewerRecords_resumed, handleOpenMailbox_resumed,
      handleDelete_resumed, handleBatchDelete_resumed, handleBatchDelete_next,
      loadEmails, loadMailViewerRecords;
    keeps_pages.
Qed.

Lemma dispatch_keeps_pages e w m w0 :
  pageInvariant toLowerCase (state w) ->
  dispatch toLowerCase e w = Some (m, w0) ->
  keeps (fun s => In (pageSize s) [10; 20; 50] /\ 1 <= currentPage s) m.
Proof.
  intros [Hsize Hpage].
  pose proof (totalPages_at_least_1 (state w)) as Htp.
  destruct e; simpl;
    try (intros [= <- <-];
         unfold handleOpenMailbox, handleCloseMailbox, handleViewMailDetail,
           handleDelete, handleBatchDelete, handleBatchDelete_next,
           handleSelectAll, toggleSelect, handleBatchImport, loadEmails;
         keeps_pages; fail).
  - destruct (existsb _ _) eqn:E; [|discriminate]. intros [= <- <-].
    apply isPage_at_least_1 in E.
    apply keeps_set. intros s [H1 H2].
    rewrite pageSize_applyUpdate, currentPage_applyUpdate. auto.
  - intros [= <- <-]. apply keeps_set. intros s [H1 H2].
    rewrite pageSize_applyUpdate, currentPage_applyUpdate. split; [auto | lia].
  - intros [= <- <-]. apply keeps_set. intros s [H1 H2].
    rewrite pageSize_applyUpdate, currentPage_applyUpdate. split; [auto | lia].
  - destruct (_ || _) eqn:E; [|discriminate]. intros [= <- <-].
    apply keeps_set. intros s [H1 H2].
    rewrite pageSize_applyUpdate, currentPage_applyUpdate. split; [|auto].
    simpl in E. rewrite !orb_true_iff, !Z.eqb_eq in E.
    destruct E as [E|[E|[E|E]]]; try discriminate; subst; simpl; auto.
  - destruct (takeTask i w) as [[t w']|]; [|discriminate].
    destruct (wellTyped _ _); [|discriminate].
    intros [= <- <-]. apply resume_keeps_pages.
Qed.

Lemma step_pageInvariant e w w' :
  pageInvariant toLowerCase (state w) -> step toLowerCase e w = Some w' ->
  pageInvariant toLowerCase (state w').
Proof.
  intros Hinv Hs.
  destruct (dispatch toLowerCase e w) as [[m w0]|] eqn:E;
    [|unfold step in Hs; rewrite E in Hs; discriminate].
  rewrite (step_eq toLowerCase _ _ _ _ E) in Hs. injection Hs as <-.
  destruct (dispatch_world toLowerCase _ _ _ _ E) as [Hst _].
  assert (Hk : (fun s => In (pageSize s) [10; 20; 50] /\ 1 <= currentPage s)
                 (state (snd (runHandler m w0)))).
  { unfold runHandler. apply keeps_try_catch.
    - eapply dispatch_keeps_pages; eassumption.
    - intros e'. apply keeps_emit.
    - rewrite Hst. destruct Hinv as [H1 [H2 _]]. auto. }
  destruct Hk as [H1 H2]. now apply renderEffects_pageInvariant.
Qed.

(** X4. In every world that a run from the first render reaches, the page
    size is one of 10, 20 and 50 and the current page lies between 1 and the
    page count of the filtered list. *)
Theorem current_page_always_in_range es w :
  run toLowerCase es mount = Some w ->
  pageInvariant toLowerCase (state w).
Proof.
  assert (H0 : pageInvariant toLowerCase (state mount)).
  { split; [simpl; auto|]. split; [simpl; lia|].
    apply totalPages_at_least_1. }
  revert H0. generalize mount. induction es as [|e es IH]; intros w0 H0; simpl.
  - now intros [= <-].
  - destruct (step toLowerCase e w0) as [w1|] eqn:E; [|discriminate].
    apply IH. eapply step_pageInvariant; eassumption.
Qed.

(** X5. A change of the search query to a different one puts the page at 1
    when the page shown before is within the new page count; when it is
    beyond it, the page ends at the new last page instead. *)
Theorem search_change_resets_or_clamps_page w query :
  jsstring_eqb (searchQuery (state w)) query = false ->
  exists w',
    step toLowerCase (Change_searchQuery query) w = Some w'
    /\ searchQuery (state w') = query
    /\ selectedIds (state w') = selectedIds (state w)
    /\ currentPage (state w')
       = (if totalPages toLowerCase (state w') <? currentPage (state w)
          then totalPages toLowerCase (state w')
          else 1).
Proof.
  intros Hq.
  assert (Hd : dispatch toLowerCase (Change_searchQuery query) w
               = Some (set (setSearchQuery query), w)) by reflexivity.
  rewrite (step_eq toLowerCase _ _ _ _ Hd).
  eexists. split; [reflexivity|].
  match goal with |- context [renderEffects _ ?b ?x] =>
    destruct (renderEffects_page b x) as [_ [Hsq [Ht Hcp]]];
    pose proof (renderEffects_keeps toLowerCase
                  (fun s => selectedIds s = selectedIds (state w)) b) as Hsel
  end.
  rewrite Hsq, Ht, Hcp. simpl.
  rewrite !searchQuery_applyUpdate, !currentPage_applyUpdate, Hq. simpl.
  split; [reflexivity|]. split; [|reflexivity].
  apply Hsel.
  - intros v s H. now rewrite selectedIds_applyUpdate.
  - simpl. now rewrite selectedIds_applyUpdate.
Qed.

End Pages.

(** ** Pages of the filtered list *)

Lemma firstn_add {A} (a b : nat) (l : list A) :
  firstn (a + b) l = firstn a l ++ firstn b (skipn a l).
Proof.
  revert l; induction a as [|a IH]; intros l; [reflexivity|].
  destruct l as [|x l]; simpl.
  - now rewrite firstn_nil.
  - now rewrite IH.
Qed.

Lemma concat_chunks {A} (n m : nat) (l : list A) :
  List.concat (map (fun k => firstn n (skipn (k * n) l)) (seq 0 m))
  = firstn (m * n) l.
Proof.
  induction m as [|m IH]; [reflexivity|].
  rewrite seq_S, map_app, concat_app, IH. simpl.
  rewrite app_nil_r, <- firstn_add. f_equal. lia.
Qed.

Section PagesOfList.

Variable toLowerCase : jsstring -> jsstring.

Lemma pageAt_eq s p :
  pageAt toLowerCase s p
  = firstn (Z.to_nat (pageSize s))
           (skipn (Z.to_nat ((p - 1) * pageSize s)) (filteredEmails toLowerCase s)).
Proof. destruct s; reflexivity. Qed.

Lemma pages_cover s :
  0 < pageSize s ->
  (List.length (filteredEmails toLowerCase s)
   <= Z.to_nat (totalPages toLowerCase s) * Z.to_nat (pageSize s))%nat.
Proof.
  intros Hp. unfold totalPages.
  set (len := Z.of_nat (List.length (filteredEmails toLowerCase s))).
  set (ps := pageSize s) in *.
  assert (Hq : len <= ps * ((len + ps - 1) / ps)).
  { pose proof (Z.div_mod (len + ps - 1) ps ltac:(lia)) as Hd.
    pose proof (Z.mod_pos_bound (len + ps - 1) ps Hp) as Hm. lia. }
  assert (Hz : len <= Z.max 1 ((len + ps - 1) / ps) * ps) by nia.
  rewrite <- Z2Nat.inj_mul by lia.
  apply Nat2Z.inj_le. rewrite Z2Nat.id by nia. exact Hz.
Qed.

(** X6. With a positive page size, the pages 1 to [totalPages], one after
    the other, are exactly the filtered account list: every filtered account
    is on one page, in list order; no page holds more than [pageSize]
    accounts, and a page beyond the page count is empty. *)
Theorem pages_partition_filtered_list s :
  0 < pageSize s ->
  List.concat (map (pageAt toLowerCase s)
              (map Z.of_nat (seq 1 (Z.to_nat (totalPages toLowerCase s)))))
  = filteredEmails toLowerCase s
  /\ (forall p, Z.of_nat (List.length (pageAt toLowerCase s p)) <= pageSize s)
  /\ (forall p, totalPages toLowerCase s < p -> pageAt toLowerCase s p = []).
Proof.
  intros Hp. pose proof (pages_cover s Hp) as Hc.
  split; [|split].
  - rewrite <- seq_shift, !map_map.
    rewrite (map_ext _ (fun k => firstn (Z.to_nat (pageSize s))
                                   (skipn (k * Z.to_nat (pageSize s))
                                          (filteredEmails toLowerCase s)))).
    + rewrite concat_chunks. now apply firstn_all2.
    + intros k. rewrite pageAt_eq. do 2 f_equal.
      replace (Z.of_nat (S k) - 1) with (Z.of_nat k) by lia.
      rewrite Z2Nat.inj_mul by lia. now rewrite Nat2Z.id.
  - intros p. rewrite pageAt_eq.
    pose proof (firstn_le_length (Z.to_nat (pageSize s))
                  (skipn (Z.to_nat ((p - 1) * pageSize s))
                         (filteredEmails toLowerCase s))).
    lia.
  - intros p Hlt. rewrite pageAt_eq.
    rewrite skipn_all2; [now rewrite firstn_nil|].
    pose proof (totalPages_at_least_1 toLowerCase s).
    etransitivity; [exact Hc|].
    rewrite <- Z2Nat.inj_mul by lia. apply Z2Nat.inj_le; nia.
Qed.

(** X7. On a page that shows accounts and is within the page count, ticking
    the header box selects every id of the page and leaves the ids of other
    pages as they were, and the header box then reads as ticked; unticking
    it removes exactly the ids of the page, and the box reads as unticked. *)
Theorem select_all_acts_on_the_page w checked :
  currentPage (state w) <= totalPages toLowerCase (state w) ->
  pageEmailIds toLowerCase (state w) <> [] ->
  exists w',
    step toLowerCase (Change_selectAll checked) w = Some w'
    /\ pageEmailIds toLowerCase (state w') = pageEmailIds toLowerCase (state w)
    /\ allPageSelected toLowerCase (state w') = checked
    /\ (forall id,
          In id (selectedIds (state w'))
          <-> if checked
              then In id (selectedIds (state w))
                   \/ In id (pageEmailIds toLowerCase (state w))
              else In id (selectedIds (state w))
                   /\ ~ In id (pageEmailIds toLowerCase (state w))).
Proof.
  intros Hc Hne.
  assert (Hd : dispatch toLowerCase (Change_selectAll checked) w
               = Some (handleSelectAll checked
                         (pageEmailIds toLowerCase (state w)), w))
    by reflexivity.
  rewrite (step_eq toLowerCase _ _ _ _ Hd).
  pose proof handleSelectAll_update_true_In as Hall.
  pose proof handleSelectAll_update_false_In as Hnone.
  remember (pageEmailIds toLowerCase (state w)) as ids eqn:Eids.
  destruct ids as [|i ids]; [congruence|].
  unfold handleSelectAll, runHandler, try_catch, bind, get, set. simpl snd.
  rewrite renderEffects_idle.
  - eexists. split; [reflexivity|]. simpl snd. simpl state.
    rewrite pageEmailIds_setSelectedIds, selectedIds_applyUpdate, <- Eids.
    split; [reflexivity|]. split.
    + unfold allPageSelected.
      rewrite pageEmailIds_setSelectedIds, selectedIds_applyUpdate, <- Eids.
      simpl List.length. simpl negb. rewrite andb_true_l.
      destruct checked.
      * apply forallb_forall. intros x Hx. apply includesId_In.
        apply (proj2 (Hall (i :: ids) (selectedIds (state w)) x)). now right.
      * simpl forallb. apply andb_false_iff. left.
        destruct (includesId _ i) eqn:E; [|reflexivity].
        apply includesId_In in E.
        apply (proj1 (Hnone (i :: ids) (selectedIds (state w)) i)) in E.
        simpl in E. tauto.
    + intros id. destruct checked;
        [exact (Hall (i :: ids) (selectedIds (state w)) id)
        | exact (Hnone (i :: ids) (selectedIds (state w)) id)].
  - simpl. now rewrite searchQuery_applyUpdate.
  - simpl. now rewrite pageSize_applyUpdate.
  - simpl. rewrite currentPage_applyUpdate.
    replace (totalPages toLowerCase (applyUpdate (setSelectedIds _) (state w)))
      with (totalPages toLowerCase (state w)) by (destruct (state w); reflexivity).
    exact Hc.
Qed.

End PagesOfList.

(** ** Account list, import and delete *)

Lemma emails_applyUpdate u s :
  emails (applyUpdate u s)
  = match u with setEmails v => v | _ => emails s end.
Proof. destruct s, u; reflexivity. Qed.

Lemma loading_applyUpdate u s :
  loading (applyUpdate u s)
  = match u with setLoading v => v | _ => loading s end.
Proof. destruct s, u; reflexivity. Qed.

Lemma importResult_applyUpdate u s :
  importResult (applyUpdate u s)
  = match u with setImportResult v => v | _ => importResult s end.
Proof. destruct s, u; reflexivity. Qed.

Lemma selectedMail_applyUpdate u s :
  selectedMail (applyUpdate u s)
  = match u with setSelectedMail v => v | _ => selectedMail s end.
Proof. destruct s, u; reflexivity. Qed.

Lemma isDetailOpen_applyUpdate u s :
  isDetailOpen (applyUpdate u s)
  = match u with setIsDetailOpen v => v | _ => isDetailOpen s end.
Proof. destruct s, u; reflexivity. Qed.

Lemma invoked_app a b : invoked (a ++ b) = invoked a ++ invoked b.
Proof.
  induction a as [|e a IH]; [reflexivity|].
  destruct e; simpl; now rewrite IH.
Qed.

Lemma invoked_pageSets tail : Forall isPageSet tail -> invoked tail = [].
Proof.
  induction 1 as [|e tail [v ->] _ IH]; [reflexivity | exact IH].
Qed.

Lemma wellTyped_delete id r : wellTyped (delete_email id) r = true.
Proof. destruct r as [[]|]; reflexivity. Qed.

Lemma nth_error_last {A} (p : list A) t :
  nth_error (p ++ [t]) (List.length p) = Some t.
Proof. rewrite nth_error_app2, Nat.sub_diag by lia. reflexivity. Qed.

Lemma without_last (p : list Task) t :
  without (List.length p) (p ++ [t]) = p.
Proof.
  unfold without.
  rewrite firstn_app, Nat.sub_diag, firstn_all, app_nil_r. simpl firstn.
  rewrite skipn_all2 by (rewrite length_app; simpl; lia).
  now rewrite app_nil_r.
Qed.

Section Handlers.

Variable toLowerCase : jsstring -> jsstring.

(** An event is its handler followed by the page effects, which leave the
    pending tasks and the calls issued as they are, and keep every property
    of the state that a write of the current page keeps. *)
Lemma step_via_handler e w m w0 :
  dispatch toLowerCase e w = Some (m, w0) ->
  exists w',
    step toLowerCase e w = Some w'
    /\ pending w' = pending (snd (runHandler m w0))
    /\ invoked (trace w') = invoked (trace (snd (runHandler m w0)))
    /\ (forall P : State -> Prop,
          (forall v s, P s -> P (applyUpdate (setCurrentPage v) s)) ->
          P (state (snd (runHandler m w0))) -> P (state w')).
Proof.
  intros Hd. rewrite (step_eq toLowerCase _ _ _ _ Hd).
  eexists. split; [reflexivity|].
  match goal with |- context [renderEffects _ ?b ?x] =>
    destruct (renderEffects_post toLowerCase b x) as [tail [Htr [Htail Hp]]]
  end.
  split; [exact Hp|]. split.
  - rewrite Htr, invoked_app, (invoked_pageSets _ Htail). apply app_nil_r.
  - intros P HP H. revert H. apply renderEffects_keeps. exact HP.
Qed.

Ltac page_independent :=
  intros ? ?;
  rewrite ?emails_applyUpdate, ?loading_applyUpdate, ?selectedIds_applyUpdate,
    ?importResult_applyUpdate, ?mailViewerOpen_applyUpdate,
    ?mailViewerEmail_applyUpdate, ?mailViewerRecords_applyUpdate,
    ?selectedMail_applyUpdate, ?isDetailOpen_applyUpdate;
  tauto.

Ltac read_fields :=
  simpl;
  rewrite ?emails_applyUpdate, ?loading_applyUpdate, ?selectedIds_applyUpdate,
    ?importResult_applyUpdate, ?mailViewerOpen_applyUpdate,
    ?mailViewerEmail_applyUpdate, ?mailViewerRecords_applyUpdate,
    ?selectedMail_applyUpdate, ?isDetailOpen_applyUpdate;
  simpl.

(** X8. When the reload of the account list settles, loading ends on both
    paths; a resolved reload replaces the list; a rejected one leaves the
    list that was shown and is caught in the handler: the error is logged
    and the trace gains no unhandled rejection.  Neither path touches the
    selection or issues a further call. *)
Theorem loadEmails_settles w i r :
  nth_error (pending w) i = Some emailsTask ->
  wellTyped get_emails r = true ->
  exists w' tail,
    step toLowerCase (Settle i r) w = Some w'
    /\ loading (state w') = false
    /\ emails (state w')
       = match r with
         | Resolved v => asEmails v
         | Rejected _ => emails (state w)
         end
    /\ selectedIds (state w') = selectedIds (state w)
    /\ pending w' = without i (pending w)
    /\ invoked (trace w') = invoked (trace w)
    /\ trace w'
       = trace w
         ++ match r with
            | Resolved v => [ESet (setEmails (asEmails v))]
            | Rejected error => [EConsoleError error]
            end
         ++ [ESet (setLoading false)] ++ tail
    /\ Forall isPageSet tail
    /\ Forall (fun e => ~ isUnhandledRejection e)
              (skipn (List.length (trace w)) (trace w')).
Proof.
  intros Ht Hr.
  assert (Htrace : exists tail,
    (forall w', step toLowerCase (Settle i r) w = Some w' ->
       trace w'
       = trace w
         ++ match r with
            | Resolved v => [ESet (setEmails (asEmails v))]
            | Rejected error => [EConsoleError error]
            end
         ++ [ESet (setLoading false)] ++ tail)
    /\ Forall isPageSet tail).
  { rewrite (step_eq toLowerCase _ _ _ _
               (dispatch_settle toLowerCase i r w _ Ht Hr)).
    match goal with |- context [renderEffects _ ?b ?x] =>
      destruct (renderEffects_post toLowerCase b x) as [tail [Htr [Htail _]]]
    end.
    exists tail. split; [|exact Htail].
    intros w' E. injection E as E. subst w'.
    change (loadEmails_resumed r)
      with (resume toLowerCase (cont emailsTask) r).
    rewrite Htr.
    destruct r as [v|error]; simpl; rewrite <- ?app_assoc; reflexivity. }
  destruct Htrace as [tail [Htrace Htail]].
  destruct (step_via_handler _ _ _ _ (dispatch_settle toLowerCase i r w _ Ht Hr))
    as [w' [Hs [Hp [Hi HP]]]].
  exists w', tail. split; [exact Hs|].
  cut ((loading (state w') = false
        /\ emails (state w')
           = match r with
             | Resolved v => asEmails v
             | Rejected _ => emails (state w)
             end
        /\ selectedIds (state w') = selectedIds (state w)
        /\ pending w' = without i (pending w)
        /\ invoked (trace w') = invoked (trace w))).
  { intros [G1 [G2 [G3 [G4 G5]]]].
    split; [exact G1|]. split; [exact G2|]. split; [exact G3|].
    split; [exact G4|]. split; [exact G5|].
    split; [exact (Htrace w' Hs)|]. split; [exact Htail|].
    rewrite (Htrace w' Hs), skipn_app, skipn_all, Nat.sub_diag. simpl.
    apply Forall_app; split.
    - destruct r; repeat constructor; simpl; tauto.
    - constructor; [simpl; tauto | now apply isPageSet_not_rejection]. }
  specialize (HP (fun s =>
    loading s = false
    /\ emails s = match r with
                  | Resolved v => asEmails v
                  | Rejected _ => emails (state w)
                  end
    /\ selectedIds s = selectedIds (state w))).
  rewrite Hp, Hi.
  destruct r as [v|error];
    (destruct HP as [H1 [H2 H3]];
     [page_independent | read_fields; repeat split; reflexivity
     | repeat split; try assumption; simpl; rewrite ?invoked_app; simpl;
       now rewrite ?app_nil_r]).
Qed.

Lemma handleBatchImport_resumed_resolved v x :
  handleBatchImport_resumed (Resolved v) x
  = (Normal tt,
     {| state :=
          applyUpdate (setLoading false)
            (applyUpdate (setLoading true)
               (applyUpdate
                  (setImportResult (Some (importMessage (asImport v))))
                  (state x)));
        pending := pending x ++ [emailsTask];
        trace := trace x
                 ++ [ESet (setImportResult (Some (importMessage (asImport v))));
                     ESet (setLoading true); EInvoke get_emails;
                     ESet (setLoading false)] |}).
Proof.
  unfold handleBatchImport_resumed, try_finally, try_catch, bind, awaited, ret,
    importMessage, loadEmails.
  destruct (failed_count (asImport v) =? 0); simpl;
    rewrite <- !app_assoc; reflexivity.
Qed.

(** X9. When the import call settles, loading ends.  A response shows the
    count of imported accounts when nothing failed and the counts with the
    failed lines otherwise, and starts a reload of the account list, which is
    still pending while loading is already false.  A rejection shows the
    error and starts no reload. *)
Theorem handleBatchImport_settles w i content r :
  nth_error (pending w) i = Some (importTask content) ->
  wellTyped (import_emails content) r = true ->
  exists w',
    step toLowerCase (Settle i r) w = Some w'
    /\ loading (state w') = false
    /\ emails (state w') = emails (state w)
    /\ importResult (state w')
       = Some match r with
              | Resolved v => importMessage (asImport v)
              | Rejected error => ImportError error
              end
    /\ pending w'
       = without i (pending w)
         ++ match r with
            | Resolved _ => [emailsTask]
            | Rejected _ => []
            end
    /\ invoked (trace w')
       = invoked (trace w)
         ++ match r with
            | Resolved _ => [get_emails]
            | Rejected _ => []
            end.
Proof.
  intros Ht Hr.
  destruct (step_via_handler _ _ _ _ (dispatch_settle toLowerCase i r w _ Ht Hr))
    as [w' [Hs [Hp [Hi HP]]]].
  exists w'. split; [exact Hs|].
  specialize (HP (fun s =>
    loading s = false
    /\ emails s = emails (state w)
    /\ importResult s
       = Some match r with
              | Resolved v => importMessage (asImport v)
              | Rejected error => ImportError error
              end)).
  rewrite Hp, Hi.
  destruct r as [v|error].
  - simpl resume in *. unfold runHandler, try_catch in *.
    rewrite handleBatchImport_resumed_resolved in *.
    destruct HP as [H1 [H2 H3]];
      [page_independent | read_fields; repeat split; reflexivity |].
    repeat split; try assumption; simpl; rewrite ?invoked_app; simpl;
      reflexivity.
  - destruct HP as [H1 [H2 H3]]; [page_independent | read_fields; repeat split; reflexivity |].
    repeat split; try assumption; simpl; rewrite ?invoked_app; simpl;
      now rewrite ?app_nil_r.
Qed.

(** X10. When the call of the row delete button settles: a resolved delete
    starts a reload of the account list; a rejected one raises an alert,
    starts no reload and leaves the list and the loading flag as they were. *)
Theorem handleDelete_settles w i id r :
  nth_error (pending w) i = Some (deleteTask id) ->
  exists w',
    step toLowerCase (Settle i r) w = Some w'
    /\ emails (state w') = emails (state w)
    /\ loading (state w')
       = match r with
         | Resolved _ => true
         | Rejected _ => loading (state w)
         end
    /\ pending w'
       = without i (pending w)
         ++ match r with
            | Resolved _ => [emailsTask]
            | Rejected _ => []
            end
    /\ invoked (trace w')
       = invoked (trace w)
         ++ match r with
            | Resolved _ => [get_emails]
            | Rejected _ => []
            end
    /\ (forall error, r = Rejected error -> In EAlert (trace w')).
Proof.
  intros Ht.
  pose proof (dispatch_settle toLowerCase i r w _ Ht (wellTyped_delete id r)) as Hd.
  destruct (step_via_handler _ _ _ _ Hd) as [w' [Hs [Hp [Hi HP]]]].
  exists w'. split; [exact Hs|].
  specialize (HP (fun s =>
    emails s = emails (state w)
    /\ loading s = match r with
                   | Resolved _ => true
                   | Rejected _ => loading (state w)
                   end)).
  rewrite Hp, Hi.
  destruct r as [v|error].
  - destruct HP as [H1 H2];
      [page_independent | read_fields; repeat split; reflexivity |].
    split; [exact H1|]. split; [exact H2|]. split; [reflexivity|].
    split; [simpl; rewrite ?invoked_app; simpl; rewrite ?app_nil_r; reflexivity|].
    intros error [=].
  - destruct HP as [H1 H2];
      [page_independent | read_fields; repeat split; reflexivity |].
    split; [exact H1|]. split; [exact H2|].
    split; [simpl; now rewrite app_nil_r|].
    split; [simpl; rewrite invoked_app; simpl; now rewrite !app_nil_r|].
    intros error' _.
    rewrite (step_eq toLowerCase _ _ _ _ Hd) in Hs. injection Hs as <-.
    match goal with |- context [renderEffects _ ?b ?x] =>
      destruct (renderEffects_post toLowerCase b x) as [tail [Htr _]]
    end.
    rewrite Htr. simpl. rewrite !in_app_iff. simpl. tauto.
Qed.

End Handlers.

(** ** The batch delete loop, declined confirmations, closing the viewer *)

Section Loops.

Variable toLowerCase : jsstring -> jsstring.

Ltac page_independent :=
  intros ? ?;
  rewrite ?emails_applyUpdate, ?loading_applyUpdate, ?selectedIds_applyUpdate,
    ?mailViewerOpen_applyUpdate, ?mailViewerEmail_applyUpdate,
    ?mailViewerRecords_applyUpdate, ?selectedMail_applyUpdate,
    ?isDetailOpen_applyUpdate;
  tauto.

Ltac read_fields :=
  simpl;
  rewrite ?emails_applyUpdate, ?loading_applyUpdate, ?selectedIds_applyUpdate,
    ?mailViewerOpen_applyUpdate, ?mailViewerEmail_applyUpdate,
    ?mailViewerRecords_applyUpdate, ?selectedMail_applyUpdate,
    ?isDetailOpen_applyUpdate;
  simpl.

Lemma batch_loop p rest :
  forall i x rs,
    pending x = p ++ [batchDeleteTask i rest] ->
    List.length rs = S (List.length rest) ->
    exists x',
      run toLowerCase (map (Settle (List.length p)) rs) x = Some x'
      /\ pending x' = p ++ [emailsTask]
      /\ selectedIds (state x') = []
      /\ loading (state x') = true
      /\ emails (state x') = emails (state x)
      /\ invoked (trace x')
         = invoked (trace x) ++ map delete_email rest ++ [get_emails].
Proof.
  induction rest as [|j rest IH]; intros i x rs Hpend Hlen;
    destruct rs as [|r rs]; try discriminate; simpl in Hlen;
    injection Hlen as Hlen.
  - destruct rs; [|discriminate].
    assert (Ht : nth_error (pending x) (List.length p)
                 = Some (batchDeleteTask i []))
      by (rewrite Hpend; apply nth_error_last).
    pose proof (dispatch_settle toLowerCase _ r x _ Ht (wellTyped_delete i r))
      as Hd.
    destruct (step_via_handler toLowerCase _ _ _ _ Hd) as [x' [Hs [Hp [Hi HP]]]].
    exists x'. rewrite map_cons, run_cons, Hs. split; [reflexivity|].
    specialize (HP (fun s =>
      selectedIds s = [] /\ loading s = true /\ emails s = emails (state x))).
    rewrite Hp, Hi, Hpend, without_last.
    destruct r as [v|error];
      (destruct HP as [H1 [H2 H3]];
       [page_independent | read_fields; repeat split; reflexivity |];
       repeat split; try assumption; simpl; rewrite ?invoked_app; simpl;
       rewrite ?app_nil_r; reflexivity).
  - assert (Ht : nth_error (pending x) (List.length p)
                 = Some (batchDeleteTask i (j :: rest)))
      by (rewrite Hpend; apply nth_error_last).
    pose proof (dispatch_settle toLowerCase _ r x _ Ht (wellTyped_delete i r))
      as Hd.
    destruct (step_via_handler toLowerCase _ _ _ _ Hd) as [x1 [Hs [Hp [Hi HP]]]].
    specialize (HP (fun s => emails s = emails (state x))).
    assert (Hp1 : pending x1 = p ++ [batchDeleteTask j rest]).
    { rewrite Hp, Hpend, without_last. destruct r; reflexivity. }
    assert (Hi1 : invoked (trace x1) = invoked (trace x) ++ [delete_email j]).
    { rewrite Hi. destruct r; simpl; rewrite ?invoked_app; simpl;
        rewrite ?app_nil_r; reflexivity. }
    assert (He1 : emails (state x1) = emails (state x)).
    { apply HP; [page_independent|]. destruct r; reflexivity. }
    destruct (IH j x1 rs Hp1 Hlen) as [x' [Hrun [Hp' [Hsel [Hl [He Hinv]]]]]].
    exists x'. rewrite map_cons, run_cons, Hs.
    split; [exact Hrun|]. split; [exact Hp'|]. split; [exact Hsel|].
    split; [exact Hl|]. split; [congruence|].
    rewrite Hinv, Hi1, <- app_assoc. reflexivity.
Qed.

(** The loop after [k] of its calls have settled: the calls for the first
    [k] ids still to delete have been issued, one call is pending, the one
    for the next id, and the selection has not been cleared yet. *)
Lemma batch_prefix p rest :
  forall k i x rs,
    pending x = p ++ [batchDeleteTask i rest] ->
    (k <= List.length rest)%nat ->
    (k <= List.length rs)%nat ->
    exists xk,
      run toLowerCase (map (Settle (List.length p)) (firstn k rs)) x = Some xk
      /\ pending xk
         = p ++ [batchDeleteTask (nth k (i :: rest) 0) (skipn k rest)]
      /\ invoked (trace xk)
         = invoked (trace x) ++ map delete_email (firstn k rest)
      /\ selectedIds (state xk) = selectedIds (state x).
Proof.
  induction rest as [|j rest IH]; intros k i x rs Hpend Hk Hrs.
  - assert (k = 0%nat) as -> by (simpl in Hk; lia).
    exists x. simpl. rewrite app_nil_r. auto.
  - destruct k as [|k].
    + exists x. simpl. rewrite app_nil_r. auto.
    + destruct rs as [|r rs]; [simpl in Hrs; lia|].
      simpl in Hk, Hrs.
      assert (Ht : nth_error (pending x) (List.length p)
                   = Some (batchDeleteTask i (j :: rest)))
        by (rewrite Hpend; apply nth_error_last).
      pose proof (dispatch_settle toLowerCase _ r x _ Ht (wellTyped_delete i r))
        as Hd.
      destruct (step_via_handler toLowerCase _ _ _ _ Hd)
        as [x1 [Hs [Hp [Hi HP]]]].
      specialize (HP (fun s => selectedIds s = selectedIds (state x))).
      assert (Hp1 : pending x1 = p ++ [batchDeleteTask j rest]).
      { rewrite Hp, Hpend, without_last. destruct r; reflexivity. }
      assert (Hi1 : invoked (trace x1) = invoked (trace x) ++ [delete_email j]).
      { rewrite Hi. destruct r; simpl; rewrite ?invoked_app; simpl;
          rewrite ?app_nil_r; reflexivity. }
      assert (Hsel1 : selectedIds (state x1) = selectedIds (state x)).
      { apply HP; [page_independent|]. destruct r; reflexivity. }
      destruct (IH k j x1 rs Hp1 ltac:(lia) ltac:(lia))
        as [xk [Hrun [Hpk [Hik Hselk]]]].
      exists xk.
      change (firstn (S k) (r :: rs)) with (r :: firstn k rs).
      rewrite map_cons, run_cons, Hs.
      split; [exact Hrun|]. split; [exact Hpk|]. split.
      * rewrite Hik, Hi1, <- app_assoc. reflexivity.
      * congruence.
Qed.

(** X11. A confirmed batch delete, with each delete call settled in turn,
    resolved or rejected.  The calls are issued one at a time: after the
    click and the first [k] settlements, exactly the [delete_email] calls
    for the first [k + 1] selected ids have been issued, in the order of the
    selection, the only call the handler has pending is the one for id
    number [k + 1], and the selection is still in place.  A rejected call
    does not stop the calls after it.  After the last settlement every
    selected id has had its call, the selection is empty and one reload of
    the account list is pending. *)
Theorem handleBatchDelete_deletes_every_selected_id w id ids rs :
  selectedIds (state w) = id :: ids ->
  List.length rs = S (List.length ids) ->
  (forall k, (k <= List.length ids)%nat ->
     exists wk,
       run toLowerCase
           (Click_batchDelete true
            :: map (Settle (List.length (pending w))) (firstn k rs)) w
       = Some wk
       /\ invoked (trace wk)
          = invoked (trace w) ++ map delete_email (firstn (S k) (id :: ids))
       /\ pending wk
          = pending w
            ++ [batchDeleteTask (nth k (id :: ids) 0)
                                (skipn (S k) (id :: ids))]
       /\ selectedIds (state wk) = id :: ids)
  /\ exists w',
       run toLowerCase
           (Click_batchDelete true
            :: map (Settle (List.length (pending w))) rs) w
       = Some w'
       /\ invoked (trace w')
          = invoked (trace w) ++ map delete_email (id :: ids) ++ [get_emails]
       /\ selectedIds (state w') = []
       /\ pending w' = pending w ++ [emailsTask]
       /\ emails (state w') = emails (state w).
Proof.
  intros Hsel Hlen.
  assert (Hd : dispatch toLowerCase (Click_batchDelete true) w
               = Some (handleBatchDelete true, w)) by reflexivity.
  destruct (step_via_handler toLowerCase _ _ _ _ Hd) as [x [Hs [Hp [Hi HP]]]].
  pose proof (HP (fun s => selectedIds s = id :: ids)) as HPsel.
  specialize (HP (fun s => emails s = emails (state w))).
  assert (Hh : snd (runHandler (handleBatchDelete true) w)
               = {| state := state w;
                    pending := pending w ++ [batchDeleteTask id ids];
                    trace := (trace w ++ [EConfirm true])
                             ++ [EInvoke (delete_email id)] |}).
  { unfold runHandler, try_catch, handleBatchDelete, bind, get.
    rewrite Hsel. reflexivity. }
  rewrite Hh in Hp, Hi, HP, HPsel. simpl in Hp, Hi, HP, HPsel.
  assert (Hi0 : invoked (trace x) = invoked (trace w) ++ [delete_email id]).
  { rewrite Hi, !invoked_app. simpl. now rewrite app_nil_r. }
  split.
  - intros k Hk.
    destruct (batch_prefix (pending w) ids k id x rs Hp Hk ltac:(lia))
      as [wk [Hrun [Hpk [Hik Hselk]]]].
    exists wk. rewrite run_cons, Hs.
    split; [exact Hrun|]. split; [|split].
    + rewrite Hik, Hi0, <- app_assoc. reflexivity.
    + exact Hpk.
    + rewrite Hselk. apply HPsel; [page_independent | exact Hsel].
  - destruct (batch_loop (pending w) ids id x rs Hp Hlen)
      as [w' [Hrun [Hp' [Hsel' [_ [He Hinv]]]]]].
    exists w'. rewrite run_cons, Hs.
    split; [exact Hrun|]. split.
    + rewrite Hinv, Hi0, <- !app_assoc. reflexivity.
    + split; [exact Hsel'|]. split; [exact Hp'|].
      rewrite He. apply HP; [page_independent | reflexivity].
Qed.

(** X12. A delete that the user declines in the confirmation dialog issues
    no call and leaves the account list and the selection as they are, for
    the row button and for the batch button alike; with nothing selected the
    batch button does not even ask. *)
Theorem declined_delete_changes_nothing w :
  (forall id,
     exists w',
       step toLowerCase (Click_delete id false) w = Some w'
       /\ pending w' = pending w
       /\ invoked (trace w') = invoked (trace w)
       /\ emails (state w') = emails (state w)
       /\ selectedIds (state w') = selectedIds (state w))
  /\ (exists w',
        step toLowerCase (Click_batchDelete false) w = Some w'
        /\ pending w' = pending w
        /\ invoked (trace w') = invoked (trace w)
        /\ emails (state w') = emails (state w)
        /\ selectedIds (state w') = selectedIds (state w))
  /\ (selectedIds (state w) = [] ->
      forall answer,
      exists w' tail,
        step toLowerCase (Click_batchDelete answer) w = Some w'
        /\ pending w' = pending w
        /\ trace w' = trace w ++ tail
        /\ Forall isPageSet tail).
Proof.
  split; [|split].
  - intros id.
    assert (Hd : dispatch toLowerCase (Click_delete id false) w
                 = Some (handleDelete id false, w)) by reflexivity.
    destruct (step_via_handler toLowerCase _ _ _ _ Hd) as [w' [Hs [Hp [Hi HP]]]].
    exists w'. split; [exact Hs|]. rewrite Hp, Hi.
    specialize (HP (fun s => emails s = emails (state w)
                             /\ selectedIds s = selectedIds (state w))).
    destruct HP as [H1 H2]; [page_independent | split; reflexivity |].
    simpl. rewrite invoked_app. simpl. rewrite app_nil_r. auto.
  - assert (Hd : dispatch toLowerCase (Click_batchDelete false) w
                 = Some (handleBatchDelete false, w)) by reflexivity.
    destruct (step_via_handler toLowerCase _ _ _ _ Hd) as [w' [Hs [Hp [Hi HP]]]].
    exists w'. split; [exact Hs|]. rewrite Hp, Hi.
    specialize (HP (fun s => emails s = emails (state w)
                             /\ selectedIds s = selectedIds (state w))).
    assert (Hh : exists log,
               snd (runHandler (handleBatchDelete false) w)
               = {| state := state w; pending := pending w;
                    trace := trace w ++ log |}
               /\ invoked log = []).
    { unfold runHandler, try_catch, handleBatchDelete, bind, get.
      destruct (selectedIds (state w)).
      - exists []. rewrite app_nil_r. destruct w; auto.
      - exists [EConfirm false]. auto. }
    destruct Hh as [log [Hh Hlog]]. rewrite Hh in *.
    destruct HP as [H1 H2]; [page_independent | split; reflexivity |].
    simpl. rewrite invoked_app, Hlog, app_nil_r. auto.
  - intros Hsel answer.
    assert (Hd : dispatch toLowerCase (Click_batchDelete answer) w
                 = Some (handleBatchDelete answer, w)) by reflexivity.
    rewrite (step_eq toLowerCase _ _ _ _ Hd).
    assert (Hh : snd (runHandler (handleBatchDelete answer) w) = w).
    { unfold runHandler, try_catch, handleBatchDelete, bind, get.
      rewrite Hsel. reflexivity. }
    rewrite Hh.
    destruct (renderEffects_post toLowerCase (state w) w) as [tail [Htr [Ht Hp]]].
    eexists. exists tail. split; [reflexivity|]. auto.
Qed.

Lemma resume_keeps_closed k r :
  keeps (fun s => mailViewerOpen s = false /\ mailViewerEmail s = None
                  /\ selectedMail s = None /\ isDetailOpen s = false)
        (resume toLowerCase k r).
Proof.
  destruct k; simpl;
    unfold loadEmails_resumed, handleBatchImport_resumed,
      loadMailViewerRecords_resumed, handleOpenMailbox_resumed,
      handleDelete_resumed, handleBatchDelete_resumed, handleBatchDelete_next,
      loadEmails, loadMailViewerRecords;
    repeat keeps_step;
    apply keeps_set; page_independent.
Qed.

Lemma settles_keep_closed es w w' :
  Forall isSettle es ->
  (mailViewerOpen (state w) = false /\ mailViewerEmail (state w) = None
   /\ selectedMail (state w) = None /\ isDetailOpen (state w) = false) ->
  run toLowerCase es w = Some w' ->
  mailViewerOpen (state w') = false /\ mailViewerEmail (state w') = None
  /\ selectedMail (state w') = None /\ isDetailOpen (state w') = false.
Proof.
  intros Hes. revert w. induction Hes as [|e es He Hes IH]; intros w H;
    rewrite ?run_cons.
  - now intros [= <-].
  - destruct (step toLowerCase e w) as [w1|] eqn:E; [|discriminate].
    apply IH. destruct e; try contradiction. revert H E.
    apply (step_keeps toLowerCase
             (fun s => mailViewerOpen s = false /\ mailViewerEmail s = None
                       /\ selectedMail s = None /\ isDetailOpen s = false)).
    + page_independent.
    + intros m w0. simpl.
      destruct (takeTask i w) as [[t w2]|]; [|discriminate].
      destruct (wellTyped _ _); [|discriminate].
      intros [= <- <-]. apply resume_keeps_closed.
Qed.

(** X13. Closing the viewer clears its records, its account and the mail
    detail at once and cancels nothing that is pending; whatever completes
    afterwards, a sync or a load still in flight included, the viewer stays
    closed with no account and no mail detail. *)
Theorem closed_viewer_stays_closed w :
  exists w1,
    step toLowerCase Click_closeMailbox w = Some w1
    /\ pending w1 = pending w
    /\ invoked (trace w1) = invoked (trace w)
    /\ mailViewerRecords (state w1) = []
    /\ (forall es w',
          Forall isSettle es ->
          run toLowerCase es w1 = Some w' ->
          mailViewerOpen (state w') = false
          /\ mailViewerEmail (state w') = None
          /\ selectedMail (state w') = None
          /\ isDetailOpen (state w') = false).
Proof.
  assert (Hd : dispatch toLowerCase Click_closeMailbox w
               = Some (handleCloseMailbox, w)) by reflexivity.
  destruct (step_via_handler toLowerCase _ _ _ _ Hd) as [w1 [Hs [Hp [Hi HP]]]].
  exists w1. split; [exact Hs|]. rewrite Hp, Hi.
  specialize (HP (fun s =>
    mailViewerRecords s = []
    /\ mailViewerOpen s = false /\ mailViewerEmail s = None
    /\ selectedMail s = None /\ isDetailOpen s = false)).
  destruct HP as [H1 H2];
    [page_independent | read_fields; repeat split; reflexivity |].
  split; [reflexivity|].
  split; [simpl; rewrite !invoked_app; simpl; now rewrite !app_nil_r|].
  split; [exact H1|].
  intros es w' Hes Hrun. eapply settles_keep_closed; eassumption.
Qed.

End Loops.

(** ** Version comparison *)

Lemma compareLoop_antisym curr lat n i :
  compareLoop lat curr n i = - compareLoop curr lat n i.
Proof.
  revert i; induction n as [|n IH]; intros i; [reflexivity|]. simpl.
  destruct (Z.gtb_spec (nth i lat 0) (nth i curr 0));
    destruct (Z.ltb_spec (nth i lat 0) (nth i curr 0));
    destruct (Z.gtb_spec (nth i curr 0) (nth i lat 0));
    destruct (Z.ltb_spec (nth i curr 0) (nth i lat 0));
    try lia; apply IH.
Qed.

Lemma compareLoop_newer curr lat n i :
  compareLoop curr lat n i = 1
  <-> exists k, (i <= k < i + n)%nat
                /\ nth k curr 0 < nth k lat 0
                /\ forall j, (i <= j < k)%nat -> nth j curr 0 = nth j lat 0.
Proof.
  revert i; induction n as [|n IH]; intros i; simpl.
  - split; [discriminate | intros [k [Hk _]]; lia].
  - destruct (Z.gtb_spec (nth i lat 0) (nth i curr 0)).
    + split; [intros _ | reflexivity].
      exists i. split; [lia|]. split; [lia|]. intros j Hj. lia.
    + destruct (Z.ltb_spec (nth i lat 0) (nth i curr 0)).
      * split; [discriminate|]. intros [k [Hk [Hlt Hbefore]]].
        destruct (Nat.eq_dec k i) as [->|Hne]; [lia|].
        specialize (Hbefore i ltac:(lia)). lia.
      * rewrite IH. split.
        -- intros [k [Hk [Hlt Hbefore]]]. exists k.
           split; [lia|]. split; [exact Hlt|].
           intros j Hj. destruct (Nat.eq_dec j i) as [->|Hne]; [lia|].
           apply Hbefore. lia.
        -- intros [k [Hk [Hlt Hbefore]]].
           destruct (Nat.eq_dec k i) as [->|Hne]; [lia|].
           exists k. split; [lia|]. split; [exact Hlt|].
           intros j Hj. apply Hbefore. lia.
Qed.

Lemma compareLoop_values curr lat n i :
  compareLoop curr lat n i = 1 \/ compareLoop curr lat n i = 0
  \/ compareLoop curr lat n i = -1.
Proof.
  revert i; induction n as [|n IH]; intros i; simpl; [auto|].
  destruct (_ >? _); [auto|]. destruct (_ <? _); [auto|]. apply IH.
Qed.

Lemma compareLoop_equal curr lat n i :
  compareLoop curr lat n i = 0
  <-> forall k, (i <= k < i + n)%nat -> nth k curr 0 = nth k lat 0.
Proof.
  revert i; induction n as [|n IH]; intros i; simpl.
  - split; [intros _ k Hk; lia | reflexivity].
  - destruct (Z.gtb_spec (nth i lat 0) (nth i curr 0)) as [Hgt|Hle].
    + split; [discriminate|]. intros Heq. specialize (Heq i ltac:(lia)). lia.
    + destruct (Z.ltb_spec (nth i lat 0) (nth i curr 0)) as [Hlt|Hge].
      * split; [discriminate|]. intros Heq. specialize (Heq i ltac:(lia)). lia.
      * rewrite IH. split.
        -- intros Heq k Hk. destruct (Nat.eq_dec k i) as [->|Hne]; [lia|].
           apply Heq. lia.
        -- intros Heq k Hk. apply Heq. lia.
Qed.

Lemma nth_beyond (l : list Z) k : (List.length l <= k)%nat -> nth k l 0 = 0.
Proof. intros H. now apply nth_overflow. Qed.

Section VersionOrder.

Variable number : Z -> Z.

Lemma compareVersions_newer current latest :
  compareVersions number current latest = 1
  <-> exists i, newerAt (normalize number current) (normalize number latest) i.
Proof.
  unfold compareVersions, newerAt. rewrite compareLoop_newer. split.
  - intros [k [_ [Hlt Hb]]]. exists k. split; [exact Hlt|].
    intros j Hj. apply Hb. lia.
  - intros [k [Hlt Hb]]. exists k. split; [|split; [exact Hlt|]].
    + split; [lia|]. simpl.
      destruct (Nat.lt_ge_cases k
                  (Nat.max (List.length (normalize number current))
                           (List.length (normalize number latest))));
        [assumption|].
      rewrite (nth_beyond (normalize number current)),
        (nth_beyond (normalize number latest)) in Hlt; lia.
    + intros j Hj. apply Hb. lia.
Qed.

Lemma compareVersions_equal current latest :
  compareVersions number current latest = 0
  <-> forall i, nth i (normalize number current) 0
                = nth i (normalize number latest) 0.
Proof.
  unfold compareVersions. rewrite compareLoop_equal. split.
  - intros Heq i.
    destruct (Nat.lt_ge_cases i
                (Nat.max (List.length (normalize number current))
                         (List.length (normalize number latest)))).
    + apply Heq. lia.
    + rewrite !nth_beyond; lia.
  - intros Heq k _. apply Heq.
Qed.

Lemma compareVersions_antisym a b :
  compareVersions number b a = - compareVersions number a b.
Proof.
  unfold compareVersions. rewrite Nat.max_comm. apply compareLoop_antisym.
Qed.

Lemma compareVersions_values a b :
  compareVersions number a b = 1 \/ compareVersions number a b = 0
  \/ compareVersions number a b = -1.
Proof. apply compareLoop_values. Qed.

(** X14. [compareVersions] answers 1, 0 or -1; it answers 1 exactly when
    [latest] is larger at the first component where the two versions differ,
    a missing component counting as 0; -1 in the mirrored case; and 0
    exactly when all components agree, so that a version and the same
    version with further zero components compare equal. *)
Theorem compareVersions_first_difference current latest :
  (compareVersions number current latest = 1
   \/ compareVersions number current latest = 0
   \/ compareVersions number current latest = -1)
  /\ (compareVersions number current latest = 1
      <-> exists i, newerAt (normalize number current)
                            (normalize number latest) i)
  /\ (compareVersions number current latest = -1
      <-> exists i, newerAt (normalize number latest)
                            (normalize number current) i)
  /\ (compareVersions number current latest = 0
      <-> forall i, nth i (normalize number current) 0
                    = nth i (normalize number latest) 0).
Proof.
  split; [apply compareVersions_values|].
  split; [apply compareVersions_newer|].
  split; [|apply compareVersions_equal].
  rewrite <- compareVersions_newer, (compareVersions_antisym current latest).
  lia.
Qed.

(** X15. The comparison is an order on versions: a version is not newer
    than itself, swapping the arguments negates the answer, and "newer
    than" is transitive. *)
Theorem compareVersions_is_an_order :
  (forall a, compareVersions number a a = 0)
  /\ (forall a b, compareVersions number b a = - compareVersions number a b)
  /\ (forall a b c,
        compareVersions number a b = 1 -> compareVersions number b c = 1 ->
        compareVersions number a c = 1)
  /\ (forall a b c,
        compareVersions number a b = 0 -> compareVersions number b c = 0 ->
        compareVersions number a c = 0).
Proof.
  split; [|split; [|split]].
  - intros a. apply compareVersions_equal. reflexivity.
  - apply compareVersions_antisym.
  - intros a b c Hab Hbc.
    apply compareVersions_newer in Hab as [i [Hi Hbi]].
    apply compareVersions_newer in Hbc as [j [Hj Hbj]].
    apply compareVersions_newer.
    destruct (Nat.lt_trichotomy i j) as [Hlt|[->|Hgt]].
    + exists i. split; [rewrite <- (Hbj i Hlt); exact Hi|].
      intros k Hk. rewrite (Hbi k Hk). apply Hbj. lia.
    + exists j. split; [lia|].
      intros k Hk. rewrite (Hbi k Hk). now apply Hbj.
    + exists j. split; [rewrite (Hbi j Hgt); exact Hj|].
      intros k Hk. rewrite (Hbi k ltac:(lia)). now apply Hbj.
  - intros a b c Hab Hbc. apply compareVersions_equal. intros i.
    rewrite (proj1 (compareVersions_equal a b) Hab i).
    apply (proj1 (compareVersions_equal b c) Hbc i).
Qed.

End VersionOrder.

(** The components of some version strings. *)

Example normalize_plain :
  normalize (fun z => z) (jsstr "v1.12.3") = [1; 12; 3].
Proof. reflexivity. Qed.

Example normalize_suffix :
  normalize (fun z => z) (jsstr "0.3.4-beta.x") = [0; 3; 4; 0].
Proof. reflexivity. Qed.

Example compareVersions_padding :
  compareVersions (fun z => z) (jsstr "v1.2") (jsstr "1.2.0") = 0.
Proof. reflexivity. Qed.

Example compareVersions_numeric :
  compareVersions (fun z => z) (jsstr "0.9.0") (jsstr "v0.10.0") = 1.
Proof. reflexivity. Qed.

(** ** Checking for updates *)

Module UpdateCheckFacts.

Import UpdateCheck.

Lemma showToast_updateInfo message duration t :
  About.updateInfo (About.showToast message duration t) = About.updateInfo t.
Proof.
  unfold About.showToast.
  destruct (About.truthy _); destruct (0 <? duration); reflexivity.
Qed.

Lemma setUpdateInfo_tracked v t :
  About.tracked t -> About.tracked (About.setUpdateInfo v t).
Proof. intros H. exact H. Qed.

(** What a toast shown from a tracked state leaves. *)
Lemma shown message duration t :
  About.tracked t ->
  let t' := About.showToast message duration t in
  About.toastMessage t' = Some message
  /\ About.updateInfo t' = About.updateInfo t
  /\ About.timers t'
     = (if 0 <? duration
        then [{| About.handle := About.nextHandle t; About.delay := duration |}]
        else [])
  /\ About.toastTimerRef t'
     = (if 0 <? duration then Some (About.nextHandle t) else None).
Proof.
  intros Ht.
  destruct (AboutFacts.showToast_post message duration t Ht)
    as [Hm [_ [Hts Href]]].
  repeat split; try assumption. apply showToast_updateInfo.
Qed.

Section WithNumber.

Variable number : Z -> Z.

Ltac run_check :=
  unfold handleCheckUpdate_rest, checkForUpdate, finally_, catch_, then_,
    awaitVersion, awaitFetch, awaitJson, unit_, raise, onToast, setChecking;
  simpl.

(** X16. [handleCheckUpdate], from a state the toast can be in: whatever
    the answers to its awaits, the handler does not reject, ends with
    [checking] false and leaves exactly one toast.  When the check finds a
    newer release, the toast names its tag, carries its download link and
    has no timeout, so it stays until dismissed.  In every other case, a
    failure included, the toast is one of the three other texts with one
    timeout of 3000 ms, and the download link, if an earlier check left one,
    is kept. *)
Theorem handleCheckUpdate_outcome versionRead a s :
  About.reachable (toast s) ->
  let r := handleCheckUpdate_rest number versionRead a s in
  fst r = Normal tt
  /\ checking (snd r) = false
  /\ version (snd r) = version s
  /\ About.reachable (toast (snd r))
  /\ match foundRelease number versionRead a with
     | Some release =>
         About.toastMessage (toast (snd r))
         = Some (newVersionText (tag_name release))
         /\ About.updateInfo (toast (snd r)) = Some (updateInfoOf release)
         /\ About.timers (toast (snd r)) = []
         /\ About.toastTimerRef (toast (snd r)) = None
     | None =>
         (exists text,
            In text [noReleaseText; upToDateText; failedText]
            /\ About.toastMessage (toast (snd r)) = Some text)
         /\ About.updateInfo (toast (snd r)) = About.updateInfo (toast s)
         /\ About.timers (toast (snd r))
            = [{| About.handle := About.nextHandle (toast s);
                  About.delay := 3000 |}]
     end.
Proof.
  intros Hr. pose proof (AboutFacts.reachable_tracked _ Hr) as Ht.
  unfold foundRelease, versionCompared, newerRelease.
  destruct a as [va fa]. simpl.
  assert (Hother : forall text,
    In text [noReleaseText; upToDateText; failedText] ->
    About.reachable (About.showToast text 3000 (toast s))
    /\ (exists text0,
          In text0 [noReleaseText; upToDateText; failedText]
          /\ About.toastMessage (About.showToast text 3000 (toast s))
             = Some text0)
    /\ About.updateInfo (About.showToast text 3000 (toast s))
       = About.updateInfo (toast s)
    /\ About.timers (About.showToast text 3000 (toast s))
       = [{| About.handle := About.nextHandle (toast s);
             About.delay := 3000 |}]).
  { intros text Hin.
    destruct (shown text 3000 (toast s) Ht) as [Hm [Hu [Hts _]]].
    split; [now apply About.reach_show|].
    split; [exists text; auto|]. auto. }
  assert (Hfound : forall release,
    About.reachable
      (About.showToast (newVersionText (tag_name release)) 0
         (About.setUpdateInfo (Some (updateInfoOf release)) (toast s)))
    /\ About.toastMessage
         (About.showToast (newVersionText (tag_name release)) 0
            (About.setUpdateInfo (Some (updateInfoOf release)) (toast s)))
       = Some (newVersionText (tag_name release))
    /\ About.updateInfo
         (About.showToast (newVersionText (tag_name release)) 0
            (About.setUpdateInfo (Some (updateInfoOf release)) (toast s)))
       = Some (updateInfoOf release)
    /\ About.timers
         (About.showToast (newVersionText (tag_name release)) 0
            (About.setUpdateInfo (Some (updateInfoOf release)) (toast s)))
       = []
    /\ About.toastTimerRef
         (About.showToast (newVersionText (tag_name release)) 0
            (About.setUpdateInfo (Some (updateInfoOf release)) (toast s)))
       = None).
  { intros release.
    pose proof (setUpdateInfo_tracked (Some (updateInfoOf release)) _ Ht) as Ht'.
    destruct (shown (newVersionText (tag_name release)) 0 _ Ht')
      as [Hm [Hu [Hts Href]]].
    split; [now apply About.reach_show, About.reach_update|]. auto. }
  assert (H1 : In noReleaseText [noReleaseText; upToDateText; failedText])
    by (simpl; auto).
  assert (H2 : In upToDateText [noReleaseText; upToDateText; failedText])
    by (simpl; auto).
  assert (H3 : In failedText [noReleaseText; upToDateText; failedText])
    by (simpl; auto).
  pose proof (Hother _ H1) as G1. pose proof (Hother _ H2) as G2.
  pose proof (Hother _ H3) as G3. clear Hother H1 H2 H3.
  run_check.
  destruct (jsstring_eqb versionRead loadingText);
    [destruct va as [v|e]|];
    destruct fa as [status [release|e2]|e3]; simpl;
    try (destruct (ok status) eqn:Eok; simpl;
         [|destruct (status =? 404); simpl]);
    try (match goal with
         | |- context [compareVersions number ?a ?b >? 0] =>
             destruct (compareVersions number a b >? 0); simpl
         end);
    repeat (split; [reflexivity|]);
    first [exact G1 | exact G2 | exact G3 | exact (Hfound release)].
Qed.

(** X17. [checkForUpdate] never rejects and touches no state: it answers
    with the tag and the link of the release when [getVersion], the request
    and the decoding of the response all succeed, the response is ok and the
    release is newer than the running version, and with null in every other
    case.  It finds a release exactly when [handleCheckUpdate], started
    before the version has loaded, finds the same one. *)
Theorem checkForUpdate_answer a s :
  checkForUpdate number a s
  = (Normal (option_map updateInfoOf (foundRelease number loadingText a)), s)
  /\ (forall t release,
        foundRelease number loadingText a = Some release ->
        About.updateInfo
          (toast (snd (handleCheckUpdate_rest number loadingText a t)))
        = Some (updateInfoOf release))
  /\ (foundRelease number loadingText a <> None
      <-> exists v status release,
            getVersionAnswer a = VersionResolved v
            /\ fetchAnswer a = FetchResponse status (JsonRelease release)
            /\ 200 <= status <= 299
            /\ compareVersions number v (tag_name release) = 1).
Proof.
  unfold foundRelease, versionCompared, newerRelease.
  rewrite jsstring_eqb_refl.
  destruct a as [va fa]. simpl.
  split; [|split].
  - run_check.
    destruct va as [v|e]; destruct fa as [status [release|e2]|e3]; simpl;
      try reflexivity;
      destruct (ok status); simpl; try reflexivity.
    destruct (compareVersions number v (tag_name release) >? 0); reflexivity.
  - intros t release. run_check. rewrite ?jsstring_eqb_refl.
    destruct va as [v|e]; [|discriminate].
    destruct fa as [status [rel|e2]|e3]; try discriminate. simpl.
    destruct (ok status); [|discriminate]. simpl.
    destruct (compareVersions number v (tag_name rel) >? 0); [|discriminate].
    intros [= <-]. simpl. now rewrite showToast_updateInfo.
  - split.
    + intros H. destruct va as [v|e]; [|congruence].
      destruct fa as [status [release|e2]|e3]; try congruence.
      destruct (ok status) eqn:Eok; [|simpl in H; congruence]. simpl in H.
      destruct (Z.gtb_spec (compareVersions number v (tag_name release)) 0)
        as [Hgt|Hle]; [|congruence].
      exists v, status, release. unfold ok in Eok.
      apply andb_true_iff in Eok as [E1 E2].
      apply Z.leb_le in E1, E2.
      repeat split; try assumption.
      destruct (compareVersions_values number v (tag_name release))
        as [H1|[H0|H1]]; lia.
    + intros [v [status [release [-> [-> [Hs Hc]]]]]].
      unfold ok.
      replace (200 <=? status) with true by (symmetry; apply Z.leb_le; lia).
      replace (status <=? 299) with true by (symmetry; apply Z.leb_le; lia).
      rewrite Hc. simpl. discriminate.
Qed.

End WithNumber.

End UpdateCheckFacts.

(** ** Mail preview *)

Example stripHtml_markup :
  stripHtml (Some (jsstr "<p>Hello,&nbsp;<b>world</b> &amp; all</p>"))
  = jsstr "Hello, world & all".
Proof. reflexivity. Qed.

Example stripHtml_unclosed :
  stripHtml (Some (jsstr "a < b and more")) = jsstr "a < b and more".
Proof. reflexivity. Qed.

Example stripHtml_decodes_to_markup :
  stripHtml (Some (jsstr "&lt;b&gt;")) = jsstr "<b>".
Proof. reflexivity. Qed.

Example mailPreview_blank : mailPreview (Some (jsstr " <br> ")) = jsstr "-".
Proof. reflexivity. Qed.

Lemma collapseSpaces_tidy inRun s :
  tidy (collapseSpaces inRun s)
  /\ (inRun = true -> headNotSpace (collapseSpaces inRun s)).
Proof.
  revert inRun; induction s as [|c s IH]; intros inRun; simpl; [auto|].
  destruct (isWhiteSpace c) eqn:E.
  - destruct inRun.
    + apply IH.
    + split; [|discriminate]. simpl.
      destruct (IH true) as [Ht Hh]. split; [|exact Ht].
      intros _. split; [reflexivity|].
      specialize (Hh eq_refl). destruct (collapseSpaces true s); auto.
  - split.
    + simpl. split; [congruence | apply IH].
    + intros _. exact E.
Qed.

Lemma tidy_suffix a b : tidy (a ++ b) -> tidy b.
Proof. induction a as [|c a IH]; simpl; [auto | intros [_ H]; auto]. Qed.

Lemma tidy_prefix a b : tidy (a ++ b) -> tidy a.
Proof.
  induction a as [|c a IH]; simpl; [auto|].
  intros [Hc H]. split; [|auto].
  intros Hw. destruct (Hc Hw) as [-> Hn]. split; [reflexivity|].
  destruct a; simpl in *; auto.
Qed.

Lemma trimStart_split s :
  exists pre, s = pre ++ trimStart s /\ headNotSpace (trimStart s).
Proof.
  induction s as [|c s [pre [IH Hh]]]; simpl.
  - exists []. auto.
  - destruct (isWhiteSpace c) eqn:E.
    + exists (c :: pre). simpl. split; [now rewrite <- IH | exact Hh].
    + exists []. simpl. auto.
Qed.

Lemma trimEnd_split s :
  exists suffix,
    s = trimEnd s ++ suffix /\ headNotSpace (rev (trimEnd s)).
Proof.
  unfold trimEnd. destruct (trimStart_split (rev s)) as [pre [H Hh]].
  exists (rev pre). rewrite rev_involutive. split; [|exact Hh].
  rewrite <- rev_app_distr, <- H. symmetry. apply rev_involutive.
Qed.

Lemma tidy_singleSpaced s : tidy s -> singleSpaced s.
Proof.
  intros Ht. split.
  - induction s as [|x s IH]; simpl; [tauto|].
    destruct Ht as [Hx Ht]. intros c [<-|Hin] Hw; [apply Hx, Hw | now apply IH].
  - intros pre. revert s Ht. induction pre as [|p pre IH]; intros s Ht c d post ->.
    + simpl in Ht. destruct Ht as [Hc _]. intros Hw. apply Hc, Hw.
    + simpl in Ht. destruct Ht as [_ Ht]. now apply (IH _ Ht c d post).
Qed.

Lemma trim_shape s :
  tidy s -> tidy (trim s) /\ noOuterSpace (trim s).
Proof.
  intros Ht. unfold trim.
  destruct (trimStart_split s) as [pre [Hs Hh]].
  destruct (trimEnd_split (trimStart s)) as [suffix [He Hl]].
  assert (Ht1 : tidy (trimStart s)) by (rewrite Hs in Ht; now apply tidy_suffix in Ht).
  assert (Ht2 : tidy (trimEnd (trimStart s)))
    by (rewrite He in Ht1; now apply tidy_prefix in Ht1).
  split; [exact Ht2|]. split.
  - intros c rest E. rewrite E in He. rewrite He in Hh. exact Hh.
  - intros pre' c E. rewrite E, rev_app_distr in Hl. exact Hl.
Qed.

(** X18. The text that [stripHtml] returns is empty for a missing or empty
    input and otherwise has its white space normalised: the only white space
    left is the single space, never two in a row, and none at either end. *)
Theorem stripHtml_normalises_white_space (html : option jsstring) :
  stripHtml None = []
  /\ stripHtml (Some []) = []
  /\ singleSpaced (stripHtml html)
  /\ noOuterSpace (stripHtml html).
Proof.
  split; [reflexivity|]. split; [reflexivity|].
  assert (H : tidy (stripHtml html) /\ noOuterSpace (stripHtml html)).
  { destruct html as [[|c s]|].
    - split; [exact I|]. split; [discriminate|].
      intros pre c E. destruct pre; discriminate.
    - apply trim_shape. apply collapseSpaces_tidy.
    - split; [exact I|]. split; [discriminate|].
      intros pre c E. destruct pre; discriminate. }
  destruct H as [Ht Ho]. split; [now apply tidy_singleSpaced | exact Ho].
Qed.

(** X19. The preview of a mail is never empty and never longer than 120
    code units: it is the start of the stripped content, or a dash when
    nothing is left of the content. *)
Theorem mailPreview_bounds (content : option jsstring) :
  mailPreview content <> []
  /\ (List.length (mailPreview content) <= 120)%nat
  /\ (stripHtml content = [] -> mailPreview content = jsstr "-")
  /\ (stripHtml content <> [] ->
      mailPreview content = firstn 120 (stripHtml content)).
Proof.
  unfold mailPreview.
  pose proof (firstn_le_length 120 (stripHtml content)) as Hl.
  destruct (stripHtml content) as [|c rest] eqn:E.
  - simpl. repeat split; try discriminate; try reflexivity; try lia.
    congruence.
  - change (firstn 120 (c :: rest)) with (c :: firstn 119 rest) in *.
    repeat split; try discriminate; try reflexivity.
    exact Hl.
Qed.

(** *** Tags and plain text *)

Lemma existsb_eqb_In x s : existsb (N.eqb x) s = true <-> In x s.
Proof.
  rewrite existsb_exists. split.
  - intros [y [Hy E]]. apply N.eqb_eq in E. now subst.
  - intros H. exists x. split; [exact H | apply N.eqb_refl].
Qed.

Lemma stripTags_In inTag s c :
  In c (stripTags inTag s) -> c = 32%N \/ In c s.
Proof.
  revert inTag; induction s as [|x s IH]; intros inTag; simpl; [tauto|].
  destruct inTag.
  - destruct (x =? 62)%N; intros H; apply IH in H; tauto.
  - destruct ((x =? 60)%N && existsb (N.eqb 62) s); simpl;
      intros [<-|H]; auto; apply IH in H; tauto.
Qed.

Lemma stripTags_noTagB inTag s : noTagB (stripTags inTag s) = true.
Proof.
  revert inTag; induction s as [|x s IH]; intros inTag; simpl; [reflexivity|].
  destruct inTag.
  - destruct (x =? 62)%N; apply IH.
  - destruct (x =? 60)%N eqn:E60; simpl.
    + destruct (existsb (N.eqb 62) s) eqn:E62; simpl.
      * apply IH.
      * rewrite E60, IH. simpl. rewrite andb_true_r.
        destruct (existsb (N.eqb 62) (stripTags false s)) eqn:E; [|reflexivity].
        apply existsb_eqb_In in E. apply stripTags_In in E as [E|E];
          [discriminate|].
        apply existsb_eqb_In in E. congruence.
    + now rewrite E60, IH.
Qed.

Lemma stripTags_plain s : ~ In 60%N s -> stripTags false s = s.
Proof.
  induction s as [|x s IH]; simpl; [reflexivity|]. intros H.
  destruct (N.eqb_spec x 60) as [->|Hne]; [tauto|]. simpl.
  rewrite IH; tauto.
Qed.

Lemma replaceAll_without_first pat' rep s :
  ~ In 38%N s -> replaceAll (38%N :: pat') rep s = s.
Proof.
  unfold replaceAll. induction s as [|x s IH]; [reflexivity|].
  intros H. cbn [replaceAllFrom startsWith].
  destruct (N.eqb_spec 38 x) as [<-|Hne]; [simpl in H; tauto|].
  simpl. rewrite IH; [reflexivity|]. simpl in H. tauto.
Qed.

Lemma decodeEntities_plain s : ~ In 38%N s -> decodeEntities s = s.
Proof.
  intros H. unfold decodeEntities.
  change (jsstr "&nbsp;") with (38%N :: jsstr "nbsp;").
  change (jsstr "&amp;") with (38%N :: jsstr "amp;").
  change (jsstr "&lt;") with (38%N :: jsstr "lt;").
  change (jsstr "&gt;") with (38%N :: jsstr "gt;").
  change (jsstr "&quot;") with (38%N :: jsstr "quot;").
  rewrite (replaceAll_without_first (jsstr "nbsp;") _ s H).
  rewrite (replaceAll_without_first (jsstr "amp;") _ s H).
  rewrite (replaceAll_without_first (jsstr "lt;") _ s H).
  rewrite (replaceAll_without_first (jsstr "gt;") _ s H).
  exact (replaceAll_without_first (jsstr "quot;") _ s H).
Qed.

Lemma collapseSpaces_In inRun s c :
  In c (collapseSpaces inRun s) -> c = 32%N \/ In c s.
Proof.
  revert inRun; induction s as [|x s IH]; intros inRun; simpl; [tauto|].
  destruct (isWhiteSpace x).
  - destruct inRun; simpl.
    + intros H. apply IH in H. tauto.
    + intros [<-|H]; auto. apply IH in H. tauto.
  - simpl. intros [<-|H]; auto. apply IH in H. tauto.
Qed.

Lemma collapseSpaces_noTagB inRun s :
  noTagB s = true -> noTagB (collapseSpaces inRun s) = true.
Proof.
  revert inRun; induction s as [|x s IH]; intros inRun; simpl; [reflexivity|].
  rewrite andb_true_iff. intros [Hx Hs].
  destruct (isWhiteSpace x) eqn:Ew.
  - destruct inRun; [now apply IH|]. simpl. now apply IH.
  - simpl. rewrite (IH false Hs), andb_true_r.
    destruct (x =? 60)%N; [|reflexivity]. simpl in *.
    destruct (existsb (N.eqb 62) (collapseSpaces false s)) eqn:E; [|reflexivity].
    apply existsb_eqb_In in E. apply collapseSpaces_In in E as [E|E];
      [discriminate|].
    apply existsb_eqb_In in E. rewrite E in Hx. discriminate.
Qed.

Lemma noTagB_suffix a b : noTagB (a ++ b) = true -> noTagB b = true.
Proof.
  induction a as [|x a IH]; simpl; [auto|].
  rewrite andb_true_iff. intros [_ H]. auto.
Qed.

Lemma noTagB_prefix a b : noTagB (a ++ b) = true -> noTagB a = true.
Proof.
  induction a as [|x a IH]; simpl; [auto|].
  rewrite !andb_true_iff. intros [Hx H]. split; [|auto].
  destruct (x =? 60)%N; [|reflexivity]. simpl in *.
  destruct (existsb (N.eqb 62) a) eqn:E; [|reflexivity].
  rewrite existsb_app, E in Hx. discriminate.
Qed.

Lemma noTagB_withoutTags s : noTagB s = true -> withoutTags s.
Proof.
  intros H pre. revert s H. induction pre as [|p pre IH]; intros s H mid post ->.
  - simpl in H. rewrite existsb_app in H. simpl in H.
    rewrite orb_true_r in H. discriminate.
  - simpl in H. apply andb_true_iff in H as [_ H].
    exact (IH _ H mid post eq_refl).
Qed.

Lemma trim_noTagB s : noTagB s = true -> noTagB (trim s) = true.
Proof.
  intros H. unfold trim.
  destruct (trimStart_split s) as [pre [Hs _]].
  destruct (trimEnd_split (trimStart s)) as [suffix [He _]].
  rewrite Hs in H. apply noTagB_suffix in H.
  rewrite He in H. now apply noTagB_prefix in H.
Qed.

(** X20. For content without [&], the stripped text holds no tag: no [<]
    of it has a [>] after it.  (With entities the text can hold one again:
    [&lt;b&gt;] is decoded to [<b>] after the tags have been removed.) *)
Theorem stripHtml_removes_tags (html : jsstring) :
  ~ In 38%N html -> withoutTags (stripHtml (Some html)).
Proof.
  intros Hamp. apply noTagB_withoutTags.
  destruct html as [|c s]; [reflexivity|].
  unfold stripHtml. apply trim_noTagB, collapseSpaces_noTagB.
  rewrite decodeEntities_plain.
  - apply stripTags_noTagB.
  - intros H. apply stripTags_In in H as [H|H]; [discriminate | contradiction].
Qed.

Lemma singleSpaced_tidy s : singleSpaced s -> tidy s.
Proof.
  induction s as [|c s IH]; [exact (fun _ => I)|].
  intros [Hin Hadj]. simpl. split.
  - intros Hw. split; [apply Hin; simpl; auto|].
    destruct s as [|d s]; [exact I|].
    exact (Hadj [] c d s eq_refl Hw).
  - apply IH. split.
    + intros x Hx. apply Hin. now right.
    + intros pre x d post ->. exact (Hadj (c :: pre) x d post eq_refl).
Qed.

Lemma collapseSpaces_tidy_id inRun s :
  tidy s -> (inRun = true -> headNotSpace s) -> collapseSpaces inRun s = s.
Proof.
  revert inRun; induction s as [|c s IH]; intros inRun Ht Hh; [reflexivity|].
  simpl in *. destruct Ht as [Hc Ht].
  destruct (isWhiteSpace c) eqn:E.
  - destruct inRun; [specialize (Hh eq_refl); congruence|].
    destruct (Hc eq_refl) as [-> Hn]. f_equal.
    apply IH; [exact Ht|]. intros _. destruct s; exact Hn.
  - f_equal. apply IH; [exact Ht | discriminate].
Qed.

Lemma trim_id s : noOuterSpace s -> trim s = s.
Proof.
  intros [Hfirst Hlast]. unfold trim, trimEnd.
  assert (Hs : trimStart s = s).
  { destruct s as [|c s]; [reflexivity|]. simpl.
    now rewrite (Hfirst c s eq_refl). }
  rewrite Hs.
  assert (Hr : trimStart (rev s) = rev s).
  { destruct (rev s) as [|c r] eqn:E; [reflexivity|]. simpl.
    assert (Es : s = rev r ++ [c])
      by (rewrite <- (rev_involutive s), E; reflexivity).
    now rewrite (Hlast _ _ Es). }
  rewrite Hr. apply rev_involutive.
Qed.

(** X21. Text that holds no [<] and no [&] and whose white space is
    already normalised comes back from [stripHtml] unchanged; so stripping
    a stripped text that holds neither of the two changes nothing more. *)
Theorem stripHtml_keeps_plain_text (s : jsstring) :
  ~ In 60%N s -> ~ In 38%N s -> singleSpaced s -> noOuterSpace s ->
  stripHtml (Some s) = s
  /\ (forall html,
        stripHtml html = s -> stripHtml (Some (stripHtml html)) = stripHtml html).
Proof.
  intros Hlt Hamp Hsp Hout.
  assert (E : stripHtml (Some s) = s).
  { destruct s as [|c r]; [reflexivity|].
    unfold stripHtml.
    rewrite stripTags_plain, decodeEntities_plain by assumption.
    rewrite collapseSpaces_tidy_id;
      [now apply trim_id | now apply singleSpaced_tidy | discriminate]. }
  split; [exact E|]. now intros html ->.
Qed.

(** ** Dismissing toasts *)

Module ToastFacts.

Lemma about_message_while_timer s :
  About.reachable s ->
  About.toastTimerRef s <> None -> About.toastMessage s <> None.
Proof.
  induction 1 as [|message duration s Hr IH|s Hr IH|v s Hr IH|h s s' Hr IH Hf];
    simpl; try congruence.
  - intros _. unfold About.showToast.
    destruct (About.truthy _); destruct (0 <? duration); discriminate.
  - unfold About.dismissToast.
    pose proof (AboutFacts.reachable_tracked s Hr) as [Hn Ht].
    destruct (About.toastTimerRef s) as [h|] eqn:E; simpl; [|congruence].
    destruct Ht as [Hh _].
    replace (h =? 0) with false by (symmetry; apply Z.eqb_neq; lia).
    simpl. congruence.
  - exact IH.
  - unfold About.timerFires in Hf.
    destruct (existsb _ _); [|discriminate]. injection Hf as <-. simpl.
    congruence.
Qed.

(** X22. In [About], a dismissal, by the close button or by the timeout,
    clears the message, the download link and the timeout together; the only
    timeout that can fire is the one of the toast that is showing, and none
    fires on an empty slot. *)
Theorem about_dismissal_clears_everything s :
  About.reachable s ->
  (About.toastMessage (About.dismissToast s) = None
   /\ About.updateInfo (About.dismissToast s) = None
   /\ About.timers (About.dismissToast s) = []
   /\ About.toastTimerRef (About.dismissToast s) = None)
  /\ (forall h s',
        About.timerFires h s = Some s' ->
        About.toastTimerRef s = Some h
        /\ About.toastMessage s <> None
        /\ About.toastMessage s' = None
        /\ About.updateInfo s' = None
        /\ About.timers s' = []
        /\ About.toastTimerRef s' = None).
Proof.
  intros Hr. pose proof (AboutFacts.reachable_tracked s Hr) as Ht.
  pose proof (AboutFacts.dismissToast_tracked s Ht) as [_ Hd].
  split.
  - assert (Href : About.toastTimerRef (About.dismissToast s) = None).
    { unfold About.dismissToast. destruct Ht as [Hn Ht].
      destruct (About.toastTimerRef s) as [h|] eqn:E; simpl; [|reflexivity].
      destruct Ht as [Hh _].
      now replace (h =? 0) with false by (symmetry; apply Z.eqb_neq; lia). }
    rewrite Href in Hd.
    repeat split; try assumption;
      unfold About.dismissToast; destruct (About.truthy _); reflexivity.
  - intros h s' Hf.
    pose proof (about_message_while_timer s Hr) as Hm.
    unfold About.timerFires in Hf. destruct Ht as [Hn Ht].
    destruct (About.toastTimerRef s) as [h0|] eqn:E.
    + destruct Ht as [Hh [d Hts]]. rewrite Hts in Hf. simpl in Hf.
      destruct (Z.eqb_spec h0 h) as [->|Hne]; [|discriminate].
      simpl in Hf. injection Hf as <-. simpl.
      repeat split; try reflexivity. apply Hm. discriminate.
    + rewrite Ht in Hf. discriminate.
Qed.

(** X22 after one toast of 3000 ms. *)
Lemma about_dismissal_witness :
  About.toastMessage
    (About.dismissToast (About.showToast (jsstr "X") 3000 About.initial)) = None
  /\ About.timers
       (About.dismissToast (About.showToast (jsstr "X") 3000 About.initial)) = [].
Proof.
  destruct (about_dismissal_clears_everything
              (About.showToast (jsstr "X") 3000 About.initial)
              (About.reach_show _ _ _ About.reach_initial))
    as [[Hm [_ [Ht _]]] _].
  split; assumption.
Defined.

Import CopyToast.

Lemma copy_reachable_timed s : reachable s -> timed s.
Proof.
  induction 1 as [|displayValue a s Hr IH|h s s' Hr IH Hf].
  - split; simpl; [lia | auto].
  - destruct a; simpl; try exact IH.
    destruct IH as [Hn IH]. unfold showToast, timed. simpl.
    split; [lia|]. exists (nextHandle s). split; [lia|]. split; [reflexivity|].
    destruct (toastMessage s).
    + destruct IH as [h [Hh [Href Hts]]]. rewrite Href, Hts. simpl.
      replace (h =? 0) with false by (symmetry; apply Z.eqb_neq; lia).
      simpl. now rewrite Z.eqb_refl.
    + destruct IH as [Href Hts]. now rewrite Href, Hts.
  - destruct IH as [Hn IH]. unfold timerFires in Hf.
    destruct (toastMessage s).
    + destruct IH as [h0 [Hh [Href Hts]]]. rewrite Hts in Hf. simpl in Hf.
      destruct (Z.eqb_spec h0 h) as [Heq|Hne]; [|discriminate].
      simpl in Hf. injection Hf as <-. split; simpl; auto.
    + destruct IH as [Href Hts]. rewrite Hts in Hf. discriminate.
Qed.

(** X23. The copy toast of the account table: a toast is on screen exactly
    while one timeout of 2000 ms is pending, and when that timeout fires the
    toast is gone and nothing is left pending; a copy shows its toast only
    when the write succeeded, and raises an alert and leaves the toast alone
    when there is no clipboard or the write is rejected. *)
Theorem copy_toast_always_times_out s :
  reachable s ->
  match toastMessage s with
  | Some _ =>
      exists h s',
        timers s = [{| About.handle := h; About.delay := 2000 |}]
        /\ timerFires h s = Some s'
        /\ toastMessage s' = None
        /\ timers s' = []
  | None => timers s = [] /\ forall h, timerFires h s = None
  end
  /\ (forall displayValue a,
        let r := handleCopyValue displayValue a s in
        match a with
        | Written =>
            snd r = false
            /\ toastMessage (fst r) = Some (copiedText displayValue)
            /\ toastId (fst r) = toastId s + 1
            /\ timers (fst r)
               = [{| About.handle := nextHandle s; About.delay := 2000 |}]
        | _ => snd r = true /\ fst r = s
        end).
Proof.
  intros Hr. pose proof (copy_reachable_timed s Hr) as [Hn Ht]. split.
  - destruct (toastMessage s).
    + destruct Ht as [h [Hh [Href Hts]]].
      exists h. eexists. split; [exact Hts|].
      unfold timerFires. rewrite Hts. simpl. rewrite Z.eqb_refl. simpl.
      split; [reflexivity|]. simpl. auto.
    + destruct Ht as [Href Hts]. split; [exact Hts|].
      intros h. unfold timerFires. now rewrite Hts.
  - intros displayValue a. destruct a; simpl; auto.
    repeat split. unfold showToast. simpl.
    destruct (toastMessage s).
    + destruct Ht as [h [Hh [Href Hts]]]. rewrite Href, Hts. simpl.
      replace (h =? 0) with false by (symmetry; apply Z.eqb_neq; lia).
      simpl. now rewrite Z.eqb_refl.
    + destruct Ht as [Href Hts]. now rewrite Href, Hts.
Qed.

(** X23 after two copies in a row. *)
Lemma copy_toast_witness :
  exists h s',
    timers (fst (handleCopyValue (jsstr "b") Written
                   (fst (handleCopyValue (jsstr "a") Written initial))))
    = [{| About.handle := h; About.delay := 2000 |}]
    /\ timerFires h
         (fst (handleCopyValue (jsstr "b") Written
                 (fst (handleCopyValue (jsstr "a") Written initial))))
       = Some s'
    /\ toastMessage s' = None
    /\ timers s' = [].
Proof.
  exact (proj1 (copy_toast_always_times_out _
                  (reach_copy (jsstr "b") Written _
                     (reach_copy (jsstr "a") Written _ reach_initial)))).
Defined.

End ToastFacts.

(** ** The search filter *)

Section Search.

Variable toLowerCase : jsstring -> jsstring.

(** X24. The accounts listed are exactly those of the account list whose
    address, lower-cased, contains the lower-cased query; a query that
    lower-cases to the empty string lists every account, and the listing is
    never longer than the account list. *)
Theorem filteredEmails_matches_query s :
  (forall a, In a (filteredEmails toLowerCase s)
             <-> In a (emails s)
                 /\ occurs (toLowerCase (searchQuery s)) (toLowerCase (email a)))
  /\ (toLowerCase (searchQuery s) = [] ->
      filteredEmails toLowerCase s = emails s)
  /\ (List.length (filteredEmails toLowerCase s) <= List.length (emails s))%nat.
Proof.
  unfold filteredEmails. split; [|split].
  - intros a. now rewrite filter_In, includes_spec.
  - intros Hq. rewrite Hq. induction (emails s) as [|a l IH]; [reflexivity|].
    simpl. replace (includes (toLowerCase (email a)) []) with true.
    + now rewrite IH.
    + symmetry. apply includes_spec. now exists [], (toLowerCase (email a)).
  - apply filter_length_le.
Qed.

End Search.

(** ** The further properties at concrete inputs *)

(** X4 at the end of [deleteRun]. *)
Lemma current_page_witness :
  pageInvariant toLowerCaseAscii (state (worldAfter deleteRun)).
Proof.
  apply (current_page_always_in_range toLowerCaseAscii deleteRun).
  vm_compute. reflexivity.
Defined.

(** X5 on page 4 of 4, searching for [ann], which leaves 2 pages. *)
Lemma search_change_witness :
  exists w',
    step toLowerCaseAscii (Change_searchQuery (jsstr "ann"))
         (worldAfter onLastPage) = Some w'
    /\ searchQuery (state w') = jsstr "ann"
    /\ selectedIds (state w') = selectedIds (state (worldAfter onLastPage))
    /\ currentPage (state w')
       = (if totalPages toLowerCaseAscii (state w')
             <? currentPage (state (worldAfter onLastPage))
          then totalPages toLowerCaseAscii (state w')
          else 1).
Proof.
  apply (search_change_resets_or_clamps_page toLowerCaseAscii
           (worldAfter onLastPage) (jsstr "ann")).
  vm_compute. reflexivity.
Defined.

Example search_change_ends_on_page_2 :
  option_map (fun w => currentPage (state w))
    (run toLowerCaseAscii (onLastPage ++ [Change_searchQuery (jsstr "ann")]) mount)
  = Some 2
  /\ currentPage (state (worldAfter onLastPage)) = 4.
Proof. split; vm_compute; reflexivity. Qed.

(** X6 for the 35 accounts, 10 to a page. *)
Lemma pages_partition_witness :
  0 < pageSize (state (worldAfter onLastPage))
  /\ List.concat
       (map (pageAt toLowerCaseAscii (state (worldAfter onLastPage)))
            (map Z.of_nat
                 (seq 1 (Z.to_nat (totalPages toLowerCaseAscii
                                     (state (worldAfter onLastPage)))))))
     = filteredEmails toLowerCaseAscii (state (worldAfter onLastPage)).
Proof.
  assert (H : 0 < pageSize (state (worldAfter onLastPage)))
    by (vm_compute; reflexivity).
  split; [exact H|].
  exact (proj1 (pages_partition_filtered_list toLowerCaseAscii _ H)).
Defined.

(** X7 on the last page of the 35 accounts. *)
Lemma select_all_witness :
  exists w',
    step toLowerCaseAscii (Change_selectAll true) (worldAfter onLastPage)
    = Some w'
    /\ pageEmailIds toLowerCaseAscii (state w')
       = pageEmailIds toLowerCaseAscii (state (worldAfter onLastPage))
    /\ allPageSelected toLowerCaseAscii (state w') = true
    /\ (forall id,
          In id (selectedIds (state w'))
          <-> In id (selectedIds (state (worldAfter onLastPage)))
              \/ In id (pageEmailIds toLowerCaseAscii
                          (state (worldAfter onLastPage)))).
Proof.
  apply (select_all_acts_on_the_page toLowerCaseAscii (worldAfter onLastPage)
           true).
  - vm_compute. discriminate.
  - vm_compute. discriminate.
Defined.

(** X8 at the first render, the load of the list being rejected. *)
Lemma loadEmails_witness :
  exists w' tail,
    step toLowerCaseAscii (Settle 0 (Rejected (jsstr "no database"))) mount
    = Some w'
    /\ loading (state w') = false
    /\ emails (state w') = emails (state mount)
    /\ selectedIds (state w') = selectedIds (state mount)
    /\ pending w' = without 0 (pending mount)
    /\ invoked (trace w') = invoked (trace mount)
    /\ trace w'
       = trace mount
         ++ [EConsoleError (jsstr "no database")]
         ++ [ESet (setLoading false)] ++ tail
    /\ Forall isPageSet tail
    /\ Forall (fun e => ~ isUnhandledRejection e)
              (skipn (List.length (trace mount)) (trace w')).
Proof.
  apply (loadEmails_settles toLowerCaseAscii mount 0
           (Rejected (jsstr "no database"))); reflexivity.
Defined.

(** X9 for an import of which one line failed. *)
Lemma handleBatchImport_witness :
  exists w',
    step toLowerCaseAscii (Settle 0 (Resolved (RImport partlyImported)))
         (worldAfter importStarted) = Some w'
    /\ loading (state w') = false
    /\ emails (state w') = emails (state (worldAfter importStarted))
    /\ importResult (state w')
       = Some (importMessage (asImport (RImport partlyImported)))
    /\ pending w' = without 0 (pending (worldAfter importStarted)) ++ [emailsTask]
    /\ invoked (trace w')
       = invoked (trace (worldAfter importStarted)) ++ [get_emails].
Proof.
  apply (handleBatchImport_settles toLowerCaseAscii (worldAfter importStarted) 0
           (jsstr "a@b.com----pw----cid----rt")
           (Resolved (RImport partlyImported))).
  - vm_compute. reflexivity.
  - reflexivity.
Defined.

(** X10 for a delete of account 3 that the backend rejects. *)
Lemma handleDelete_witness :
  exists w',
    step toLowerCaseAscii (Settle 0 (Rejected (jsstr "not found")))
         (worldAfter deleteStarted) = Some w'
    /\ emails (state w') = emails (state (worldAfter deleteStarted))
    /\ loading (state w') = loading (state (worldAfter deleteStarted))
    /\ pending w' = without 0 (pending (worldAfter deleteStarted)) ++ []
    /\ invoked (trace w') = invoked (trace (worldAfter deleteStarted)) ++ []
    /\ (forall error, Rejected (jsstr "not found") = Rejected error ->
                      In EAlert (trace w')).
Proof.
  apply (handleDelete_settles toLowerCaseAscii (worldAfter deleteStarted) 0 3
           (Rejected (jsstr "not found"))).
  vm_compute. reflexivity.
Defined.

(** X11 with accounts 3 and 7 selected, the first delete rejected: at the
    click only the call for 3 is issued, the call for 7 follows the
    settlement of the first, and the reload follows the second. *)
Lemma handleBatchDelete_witness :
  (exists w0,
     run toLowerCaseAscii [Click_batchDelete true] (worldAfter bothSelected)
     = Some w0
     /\ invoked (trace w0)
        = invoked (trace (worldAfter bothSelected)) ++ [delete_email 3]
     /\ pending w0
        = pending (worldAfter bothSelected) ++ [batchDeleteTask 3 [7]]
     /\ selectedIds (state w0) = [3; 7])
  /\ (exists w1,
        run toLowerCaseAscii
            [Click_batchDelete true;
             Settle (List.length (pending (worldAfter bothSelected)))
                    (Rejected (jsstr "not found"))]
            (worldAfter bothSelected)
        = Some w1
        /\ invoked (trace w1)
           = invoked (trace (worldAfter bothSelected))
             ++ [delete_email 3; delete_email 7]
        /\ pending w1
           = pending (worldAfter bothSelected) ++ [batchDeleteTask 7 []]
        /\ selectedIds (state w1) = [3; 7])
  /\ exists w',
       run toLowerCaseAscii
           (Click_batchDelete true
            :: map (Settle (List.length (pending (worldAfter bothSelected))))
                   [Rejected (jsstr "not found"); Resolved RNone])
           (worldAfter bothSelected)
       = Some w'
       /\ invoked (trace w')
          = invoked (trace (worldAfter bothSelected))
            ++ map delete_email [3; 7] ++ [get_emails]
       /\ selectedIds (state w') = []
       /\ pending w' = pending (worldAfter bothSelected) ++ [emailsTask]
       /\ emails (state w') = emails (state (worldAfter bothSelected)).
Proof.
  assert (Hsel : selectedIds (state (worldAfter bothSelected)) = [3; 7])
    by (vm_compute; reflexivity).
  assert (Hlen : List.length [Rejected (jsstr "not found"); Resolved RNone]
                 = S (List.length [7])) by reflexivity.
  destruct (handleBatchDelete_deletes_every_selected_id toLowerCaseAscii
              (worldAfter bothSelected) 3 [7]
              [Rejected (jsstr "not found"); Resolved RNone] Hsel Hlen)
    as [Hstep Hend].
  split; [|split].
  - apply (Hstep 0%nat). simpl. lia.
  - apply (Hstep 1%nat). simpl. lia.
  - exact Hend.
Defined.

(** X16 for a running version 0.3.4 and a latest release v0.4.0. *)
Lemma handleCheckUpdate_witness :
  UpdateCheck.checking
    (snd (UpdateCheck.handleCheckUpdate_rest (fun z => z)
            UpdateCheck.loadingText releaseAnswers aboutBeforeVersion))
  = false
  /\ About.timers
       (UpdateCheck.toast
          (snd (UpdateCheck.handleCheckUpdate_rest (fun z => z)
                  UpdateCheck.loadingText releaseAnswers aboutBeforeVersion)))
     = []
  /\ About.updateInfo
       (UpdateCheck.toast
          (snd (UpdateCheck.handleCheckUpdate_rest (fun z => z)
                  UpdateCheck.loadingText releaseAnswers aboutBeforeVersion)))
     = Some {| About.version := jsstr "v0.4.0";
               About.downloadUrl := jsstr "https://example.com/v0.4.0" |}.
Proof.
  destruct (UpdateCheckFacts.handleCheckUpdate_outcome (fun z => z)
              UpdateCheck.loadingText releaseAnswers aboutBeforeVersion
              About.reach_initial)
    as [_ [Hc [_ [_ Hfound]]]].
  split; [exact Hc|].
  change (foundRelease (fun z => z) UpdateCheck.loadingText releaseAnswers)
    with (Some {| UpdateCheck.tag_name := jsstr "v0.4.0";
                  UpdateCheck.html_url := jsstr "https://example.com/v0.4.0" |})
    in Hfound.
  destruct Hfound as [_ [Hu [Ht _]]]. split; [exact Ht | exact Hu].
Defined.

(** X20 and X21 on small texts. *)
Lemma stripHtml_tags_witness :
  ~ In 38%N (jsstr "<p>a <b>b</b></p>")
  /\ withoutTags (stripHtml (Some (jsstr "<p>a <b>b</b></p>"))).
Proof.
  assert (H : ~ In 38%N (jsstr "<p>a <b>b</b></p>"))
    by (vm_compute; intuition discriminate).
  split; [exact H | exact (stripHtml_removes_tags _ H)].
Defined.

Lemma stripHtml_plain_witness :
  stripHtml (Some (jsstr "a b")) = jsstr "a b".
Proof.
  apply (stripHtml_keeps_plain_text (jsstr "a b")).
  - vm_compute. intuition discriminate.
  - vm_compute. intuition discriminate.
  - apply tidy_singleSpaced. vm_compute. intuition discriminate.
  - split.
    + intros c rest [= <- _]. reflexivity.
    + intros pre c E.
      assert (Er : rev (jsstr "a b") = c :: rev pre)
        by (rewrite E, rev_app_distr; reflexivity).
      injection Er as <- _. reflexivity.
Defined.
